(** * Maximum flow for a terminal / warehouse / store network

    A shallow embedding of [task_1.py]: the [MaxFlow] class ([add_edge],
    [_build_residual], [_bfs_augment], [edmonds_karp]) and the proportional
    decomposition of [build_and_run], together with the properties the
    specification states about them.

    Python dictionaries keep their keys in insertion order and the breadth
    first search iterates over them, so a dictionary is an association list
    whose keys are pairwise distinct: assigning to a key that is present
    replaces the value in place, assigning to a new key appends an entry.

    Code that can fail returns a [result]: a value, the exception raised,
    or [OutOfFuel].  The [while] loops of the source are recursive
    functions on a loop budget, the fuel; the theorems give a budget,
    [fuel_bound], with which no loop runs out.

    The last part embeds the prefix tree of [task_2]: the classes
    [TrieNode] and [Trie] of [trie.py] and the class [Homework] of
    [task_2.py], in the modules [Trie] and [Homework]. *)

From Stdlib Require Import ZArith QArith List String Bool Lia ListSet.
From Stdlib Require Import Permutation Ascii.
Import ListNotations.
Local Open Scope Z_scope.

(** ** Exceptions and results *)

Inductive exn : Type :=
| ValueError      (* raised by [add_edge] on a negative capacity *)
| KeyError        (* a subscript [d[k]] on a key that is absent *)
| OverflowError.  (* [int(float("inf"))] *)

(** The outcome of running a piece of code: a value, an exception, or the
    loop budget of the model ran out before the code finished. *)
Inductive result (A : Type) : Type :=
| Ok (a : A)
| Raise (e : exn)
| OutOfFuel.

Arguments Ok {A} a.
Arguments Raise {A} e.
Arguments OutOfFuel {A}.

Definition rbind {A B} (m : result A) (f : A -> result B) : result B :=
  match m with
  | Ok a => f a
  | Raise e => Raise e
  | OutOfFuel => OutOfFuel
  end.

Declare Scope result_scope.
Delimit Scope result_scope with result.
Notation "x <- m ;; k" := (rbind m (fun x => k))
  (at level 61, m at next level, right associativity) : result_scope.

(** ** Python dictionaries with string keys *)

Definition dict (V : Type) : Type := list (string * V).

Section Dict.
Context {V : Type}.

Fixpoint get (d : dict V) (k : string) : option V :=
  match d with
  | [] => None
  | (k', x) :: d' => if String.eqb k k' then Some x else get d' k
  end.

(** [d[k] = x] *)
Fixpoint setitem (d : dict V) (k : string) (x : V) : dict V :=
  match d with
  | [] => [(k, x)]
  | (k', y) :: d' =>
      if String.eqb k k' then (k', x) :: d' else (k', y) :: setitem d' k x
  end.

(** [k in d] *)
Definition contains (d : dict V) (k : string) : bool :=
  match get d k with Some _ => true | None => false end.

(** [d.get(k, dflt)] *)
Definition get_default (d : dict V) (k : string) (dflt : V) : V :=
  match get d k with Some x => x | None => dflt end.

(** [d[k]] in an expression *)
Definition getitem (d : dict V) (k : string) : result V :=
  match get d k with Some x => Ok x | None => Raise KeyError end.

(** [d.setdefault(k, dflt)]: the value found or inserted, and the
    dictionary afterwards. *)
Definition setdefault (d : dict V) (k : string) (dflt : V) : V * dict V :=
  match get d k with
  | Some x => (x, d)
  | None => (dflt, setitem d k dflt)
  end.

Definition keys (d : dict V) : list string := map fst d.
Definition values (d : dict V) : list V := map snd d.

Definition wf_dict (d : dict V) : Prop := NoDup (keys d).
End Dict.

(** ** The capacitated graph *)

Definition row : Type := dict Z.
Definition graph : Type := dict row.

(** [g[u][v]] as an optional value. *)
Definition entry (g : graph) (u v : string) : option Z :=
  match get g u with
  | Some r => get r v
  | None => None
  end.

(** The capacity of the edge [u -> v], [0] when there is no such edge. *)
Definition capacity (g : graph) (u v : string) : Z :=
  match entry g u v with Some c => c | None => 0 end.

(** All edges [(u, v, c)], in iteration order. *)
Definition edges (g : graph) : list (string * string * Z) :=
  flat_map (fun ur => map (fun vc => (fst ur, fst vc, snd vc)) (snd ur)) g.

Definition is_edge (u v : string) (e : string * string * Z) : bool :=
  String.eqb (fst (fst e)) u && String.eqb (snd (fst e)) v.

(** How many edges go from [u] to [v]. *)
Definition edge_count (g : graph) (u v : string) : nat :=
  List.length (filter (is_edge u v) (edges g)).

Definition wf_graph (g : graph) : Prop :=
  wf_dict g /\ forall u r, In (u, r) g -> wf_dict r.

(** Every endpoint of an edge has an entry of its own. *)
Definition closed_graph (g : graph) : Prop :=
  forall u v, entry g u v <> None -> In v (keys g).

Definition nonneg_graph (g : graph) : Prop :=
  forall u v c, In (u, v, c) (edges g) -> 0 <= c.

(** ** The [MaxFlow] object and its methods *)

Record MaxFlow : Type := mkMaxFlow {
  mf_graph : graph;          (* self.graph, a defaultdict(dict) *)
  mf_nodes : ListSet.set string      (* self.nodes *)
}.

(** A method runs on the object and leaves it in a new state, also when it
    raises. *)
Definition method (A : Type) : Type := MaxFlow -> result A * MaxFlow.

Definition mret {A} (a : A) : method A := fun self => (Ok a, self).

Definition mbind {A B} (m : method A) (f : A -> method B) : method B :=
  fun self =>
    match m self with
    | (Ok a, self') => f a self'
    | (Raise e, self') => (Raise e, self')
    | (OutOfFuel, self') => (OutOfFuel, self')
    end.

Definition mraise {A} (e : exn) : method A := fun self => (Raise e, self).

Declare Scope method_scope.
Delimit Scope method_scope with method.
Notation "x <- m ;; k" := (mbind m (fun x => k))
  (at level 61, m at next level, right associativity) : method_scope.
Notation "m ;; k" := (mbind m (fun _ => k))
  (at level 61, right associativity) : method_scope.

(** [MaxFlow()] *)
Definition init : MaxFlow := mkMaxFlow [] (empty_set string).

(** [self.nodes.add(x)] *)
Definition nodes_add (x : string) : method unit :=
  fun self =>
    (Ok tt, mkMaxFlow (mf_graph self) (set_add string_dec x (mf_nodes self))).

(** [self.graph[u]]: the graph is a [defaultdict(dict)], so reading a key
    that is absent first inserts it with an empty dictionary. *)
Definition graph_getitem (u : string) : method row :=
  fun self =>
    match get (mf_graph self) u with
    | Some r => (Ok r, self)
    | None => (Ok [], mkMaxFlow (setitem (mf_graph self) u []) (mf_nodes self))
    end.

(** [self.graph[u][v] = x]: the inner dictionary is shared, so the
    assignment shows in the graph. *)
Definition graph_setitem2 (u v : string) (x : Z) : method unit :=
  (r <- graph_getitem u ;;
   fun self =>
     (Ok tt, mkMaxFlow (setitem (mf_graph self) u (setitem r v x)) (mf_nodes self)))%method.

(** [self.graph.get(v, {})] *)
Definition graph_get (v : string) (dflt : row) : method row :=
  fun self => (Ok (get_default (mf_graph self) v dflt), self).

(** [self.graph.setdefault(v, dflt)] *)
Definition graph_setdefault (v : string) (dflt : row) : method row :=
  fun self =>
    let '(r, g) := setdefault (mf_graph self) v dflt in
    (Ok r, mkMaxFlow g (mf_nodes self)).

Definition add_edge (u v : string) (c : Z) : method unit :=
  (if c <? 0 then mraise ValueError
   else
     nodes_add u ;;
     nodes_add v ;;
     r <- graph_getitem u ;;
     graph_setitem2 u v (get_default r v 0 + c) ;;
     dflt <- graph_get v [] ;;
     graph_setdefault v dflt ;;
     mret tt)%method.

(** Building a graph from a list of edges, as the callers do. *)
Fixpoint add_edges (es : list (string * string * Z)) : method unit :=
  match es with
  | [] => mret tt
  | (u, v, c) :: es' => (add_edge u v c ;; add_edges es')%method
  end.

(** ** The residual graph *)

(** [res.setdefault(v, {}).setdefault(u, 0)]: the inner dictionary that the
    first call returns is the one stored under [v], so the second call
    changes the residual graph. *)
Definition add_reverse (res : graph) (u v : string) : graph :=
  let '(r, res1) := setdefault res v [] in
  let '(_, r') := setdefault r u 0 in
  setitem res1 v r'.

(** The inner loop [for v in list(res[u].keys())]. *)
Definition reverse_row (res : graph) (u : string) : result graph :=
  (r <- getitem res u ;;
   Ok (fold_left (fun acc v => add_reverse acc u v) (keys r) res))%result.

Fixpoint reverse_rows (us : list string) (res : graph) : result graph :=
  match us with
  | [] => Ok res
  | u :: us' => (res' <- reverse_row res u ;; reverse_rows us' res')%result
  end.

(** [{u: dict(vs) for u, vs in self.graph.items()}]: every row is copied, so
    the graph itself is never changed by the solver. *)
Definition copy_graph (g : graph) : graph :=
  map (fun ur => (fst ur, snd ur)) g.

Definition _build_residual (g : graph) : result graph :=
  let res := copy_graph g in
  reverse_rows (keys res) res.

(** ** Breadth-first search for an augmenting path *)

Record _PathResult : Type := mkPathResult {
  bottleneck : Z;
  parent : dict (option string)
}.

(** The running minimum starts at [float("inf")] and becomes an [int] at the
    first comparison. *)
Inductive num : Type :=
| Inf
| Int (z : Z).

(** [min(b, c)] *)
Definition num_min (b : num) (c : Z) : num :=
  match b with
  | Inf => Int c
  | Int z => Int (Z.min z c)
  end.

(** [int(b)] *)
Definition int_of (b : num) : result Z :=
  match b with
  | Inf => Raise OverflowError
  | Int z => Ok z
  end.

(** [while parent[x] is not None: p = parent[x];
    bottleneck = min(bottleneck, res[p][x]); x = p] *)
Fixpoint walk_bottleneck (fuel : nat) (res : graph)
    (par : dict (option string)) (x : string) (b : num) : result num :=
  match fuel with
  | O => OutOfFuel
  | S fuel' =>
      (px <- getitem par x ;;
       match px with
       | None => Ok b
       | Some p =>
           rp <- getitem res p ;;
           c <- getitem rp x ;;
           walk_bottleneck fuel' res par p (num_min b c)
       end)%result
  end.

(** What the scan of one row of the residual graph ends with: the sink was
    reached, or the search goes on with a larger tree and queue. *)
Inductive scan : Type :=
| Found (pr : _PathResult)
| Next (par : dict (option string)) (q : list string).

(** [for v, cap in res[u].items(): ...] *)
Fixpoint scan_row (fuel : nat) (res : graph) (t u : string)
    (items : list (string * Z)) (par : dict (option string))
    (q : list string) : result scan :=
  match items with
  | [] => Ok (Next par q)
  | (v, cap) :: items' =>
      if negb (contains par v) && (0 <? cap) then
        let par' := setitem par v (Some u) in
        if String.eqb v t then
          (b <- walk_bottleneck fuel res par' v Inf ;;
           z <- int_of b ;;
           Ok (Found (mkPathResult z par')))%result
        else scan_row fuel res t u items' par' (q ++ [v])
      else scan_row fuel res t u items' par q
  end.

(** [while q: u = q.popleft(); ...]; [fuel0] is the budget of the inner
    loops, [fuel] the one of this loop. *)
Fixpoint bfs_loop (fuel0 fuel : nat) (res : graph) (t : string)
    (par : dict (option string)) (q : list string)
    : result (option _PathResult) :=
  match q with
  | [] => Ok None
  | u :: q' =>
      match fuel with
      | O => OutOfFuel
      | S fuel' =>
          (r <- getitem res u ;;
           sc <- scan_row fuel0 res t u r par q' ;;
           match sc with
           | Found pr => Ok (Some pr)
           | Next par' q'' => bfs_loop fuel0 fuel' res t par' q''
           end)%result
      end
  end.

Definition _bfs_augment (fuel : nat) (res : graph) (s t : string)
    : result (option _PathResult) :=
  bfs_loop fuel fuel res t [(s, None)] [s].

(** ** The solver *)

(** [while res_path.parent[v] is not None: u = res_path.parent[v];
    residual[u][v] -= aug; residual[v][u] += aug; v = u] *)
Fixpoint push (fuel : nat) (residual : graph) (par : dict (option string))
    (v : string) (aug : Z) : result graph :=
  match fuel with
  | O => OutOfFuel
  | S fuel' =>
      (pv <- getitem par v ;;
       match pv with
       | None => Ok residual
       | Some u =>
           ru <- getitem residual u ;;
           c <- getitem ru v ;;
           let residual1 := setitem residual u (setitem ru v (c - aug)) in
           rv <- getitem residual1 v ;;
           c' <- getitem rv u ;;
           let residual2 := setitem residual1 v (setitem rv u (c' + aug)) in
           push fuel' residual2 par u aug
       end)%result
  end.

(** The [while True] loop: the total flow and the residual graph at the
    [break]. *)
Fixpoint ek_loop (fuel0 fuel : nat) (residual : graph) (s t : string)
    (total_flow : Z) : result (Z * graph) :=
  match fuel with
  | O => OutOfFuel
  | S fuel' =>
      (res_path <- _bfs_augment fuel0 residual s t ;;
       match res_path with
       | None => Ok (total_flow, residual)
       | Some pr =>
           let aug := bottleneck pr in
           residual' <- push fuel0 residual (parent pr) t aug ;;
           ek_loop fuel0 fuel' residual' s t (total_flow + aug)
       end)%result
  end.

(** [flow_matrix[u][v] = x] on a [defaultdict(dict)]. *)
Definition fm_setitem2 (fm : graph) (u v : string) (x : Z) : graph :=
  setitem fm u (setitem (get_default fm u []) v x).

(** [for v in self.graph[u]: ...] *)
Fixpoint flow_row (residual : graph) (u : string) (items : list (string * Z))
    (fm : graph) : result graph :=
  match items with
  | [] => Ok fm
  | (v, cap0) :: items' =>
      (ru <- getitem residual u ;;
       cap_res <- getitem ru v ;;
       let used := cap0 - cap_res in
       flow_row residual u items'
         (fm_setitem2 fm u v (if 0 <? used then used else 0)))%result
  end.

(** [for u in self.graph: ...] *)
Fixpoint flow_rows (residual : graph) (g : graph) (fm : graph)
    : result graph :=
  match g with
  | [] => Ok fm
  | (u, r) :: g' =>
      (fm' <- flow_row residual u r fm ;; flow_rows residual g' fm')%result
  end.

(** [edmonds_karp] on the graph of the object; every loop of the source
    runs at most [fuel] times. *)
Definition edmonds_karp_on (fuel : nat) (g : graph) (s t : string)
    : result (Z * graph * graph) :=
  (residual <- _build_residual g ;;
   out <- ek_loop fuel fuel residual s t 0 ;;
   flow_matrix <- flow_rows (snd out) g [] ;;
   Ok (fst out, flow_matrix, snd out))%result.

Definition edmonds_karp (fuel : nat) (s t : string)
    : method (Z * graph * graph) :=
  fun self => (edmonds_karp_on fuel (mf_graph self) s t, self).

(** ** The proportional decomposition of [build_and_run]

    The network of [build_and_run] is fixed; the decomposition is modelled
    for any lists of terminals and warehouses and any dictionaries of
    edges.  Python computes the shares and the table in floating point;
    here they are exact rationals. *)

(** [flow_matrix.get(a, {}).get(b, 0)] *)
Definition flow_lookup (flow_matrix : graph) (a b : string) : Z :=
  get_default (get_default flow_matrix a []) b 0.

(** [d[k]] on a [defaultdict]: a key that is absent is inserted with an
    empty dictionary. *)
Definition dd_getitem (d : graph) (k : string) : row * graph :=
  match get d k with
  | Some r => (r, d)
  | None => ([], setitem d k [])
  end.

(** [for (t, s), _ in edges_T_S.items():
       in_T_to_S[s][t] = flow_matrix.get(t, {}).get(s, 0)] *)
Definition build_in_T_to_S (edges_T_S : list (string * string * Z))
    (flow_matrix : graph) : graph :=
  fold_left
    (fun acc e =>
       let t := fst (fst e) in
       let s := snd (fst e) in
       fm_setitem2 acc s t (flow_lookup flow_matrix t s))
    edges_T_S [].

(** [for (s, m), _ in edges_S_M.items():
       out_S_to_M[s][m] = flow_matrix.get(s, {}).get(m, 0)] *)
Definition build_out_S_to_M (edges_S_M : list (string * string * Z))
    (flow_matrix : graph) : graph :=
  fold_left
    (fun acc e =>
       let s := fst (fst e) in
       let m := snd (fst e) in
       fm_setitem2 acc s m (flow_lookup flow_matrix s m))
    edges_S_M [].

(** [sum(r.values())] *)
Definition sum_values (r : row) : Z :=
  fold_left Z.add (values r) 0.

(** [{s: sum(in_T_to_S[s].values()) for s in warehouses}]; the reads of
    [in_T_to_S] may insert empty rows. *)
Fixpoint build_in_total_S (warehouses : list string) (in_T_to_S : graph)
    (acc : dict Z) : dict Z * graph :=
  match warehouses with
  | [] => (acc, in_T_to_S)
  | s :: ws =>
      let '(r, d) := dd_getitem in_T_to_S s in
      build_in_total_S ws d (setitem acc s (sum_values r))
  end.

(** [{t: in_T_to_S[s].get(t, 0) / total_in for t in terminals}] *)
Definition shares_of (terminals : list string) (row_in : row) (total_in : Z)
    : dict Q :=
  fold_left
    (fun acc t =>
       setitem acc t (inject_Z (get_default row_in t 0%Z) / inject_Z total_in)%Q)
    terminals [].

(** [terminal_store_flow[t][m]], [0.0] when there is no entry. *)
Definition qentry (tsf : dict (dict Q)) (t m : string) : Q :=
  get_default (get_default tsf t []) m 0%Q.

(** [for t, sh in shares.items(): terminal_store_flow[t][m] += flow_sm * sh] *)
Definition attribute_store (shares : dict Q) (m : string) (flow_sm : Z)
    (tsf : dict (dict Q)) : dict (dict Q) :=
  fold_left
    (fun acc tsh =>
       let t := fst tsh in
       let sh := snd tsh in
       setitem acc t
         (setitem (get_default acc t []) m
            (qentry acc t m + inject_Z flow_sm * sh)%Q))
    shares tsf.

(** [for m, flow_sm in out_S_to_M[s].items():
       if flow_sm == 0: continue
       ...] *)
Definition attribute_row (shares : dict Q) (row_out : row)
    (tsf : dict (dict Q)) : dict (dict Q) :=
  fold_left
    (fun acc mf =>
       if snd mf =? 0 then acc
       else attribute_store shares (fst mf) (snd mf) acc)
    row_out tsf.

Record decomp_state : Type := mkDecomp {
  in_T_to_S : graph;
  out_S_to_M : graph;
  terminal_store_flow : dict (dict Q)
}.

(** The body of [for s in warehouses]. *)
Definition decompose_step (terminals : list string) (in_total_S : dict Z)
    (st : decomp_state) (s : string) : decomp_state :=
  let total_in := get_default in_total_S s 0 in
  if total_in =? 0 then st
  else
    let '(row_in, in1) := dd_getitem (in_T_to_S st) s in
    let shares := shares_of terminals row_in total_in in
    let '(row_out, out1) := dd_getitem (out_S_to_M st) s in
    mkDecomp in1 out1 (attribute_row shares row_out (terminal_store_flow st)).

(** Lines 270 to 298 of [build_and_run]: the table of flows from terminals
    to stores. *)
Definition decompose (terminals warehouses : list string)
    (edges_T_S edges_S_M : list (string * string * Z)) (flow_matrix : graph)
    : dict (dict Q) :=
  let in0 := build_in_T_to_S edges_T_S flow_matrix in
  let '(in_total_S, in1) := build_in_total_S warehouses in0 [] in
  let out0 := build_out_S_to_M edges_S_M flow_matrix in
  terminal_store_flow
    (fold_left (decompose_step terminals in_total_S) warehouses
       (mkDecomp in1 out0 [])).

(** ** The network of [build_and_run] *)

Definition SRC : string := "SRC".
Definition SNK : string := "SNK".

Definition terminals : list string := ["T1"; "T2"]%string.
Definition warehouses : list string := ["S1"; "S2"; "S3"; "S4"]%string.
Definition stores : list string :=
  ["M1"; "M2"; "M3"; "M4"; "M5"; "M6"; "M7"; "M8"; "M9"; "M10"; "M11";
   "M12"; "M13"; "M14"]%string.

Definition out_T : dict Z := [("T1", 25 + 20 + 15); ("T2", 15 + 30 + 10)]%string.

Definition edges_T_S : list (string * string * Z) :=
  [("T1", "S1", 25); ("T1", "S2", 20); ("T1", "S3", 15);
   ("T2", "S3", 15); ("T2", "S4", 30); ("T2", "S2", 10)]%string.

Definition edges_S_M : list (string * string * Z) :=
  [("S1", "M1", 15); ("S1", "M2", 10); ("S1", "M3", 20);
   ("S2", "M4", 15); ("S2", "M5", 10); ("S2", "M6", 25);
   ("S3", "M7", 20); ("S3", "M8", 15); ("S3", "M9", 10);
   ("S4", "M10", 20); ("S4", "M11", 10); ("S4", "M12", 15);
   ("S4", "M13", 5); ("S4", "M14", 10)]%string.

(** [sum(c for (s, mm), c in edges_S_M.items() if mm == m)] *)
Definition cap_in (m : string) : Z :=
  fold_left Z.add
    (map snd (filter (fun e => String.eqb (snd (fst e)) m) edges_S_M)) 0.

(** The calls of [add_edge] that build the network, in order; [out_T[t]]
    finds both terminals. *)
Definition network_edges : list (string * string * Z) :=
  map (fun t => (SRC, t, get_default out_T t 0)) terminals
  ++ edges_T_S
  ++ edges_S_M
  ++ map (fun m => (m, SNK, if 0 <? cap_in m then cap_in m else 10 ^ 9))
       stores.

(** [build_and_run] up to the table of flows from terminals to stores;
    writing the files is left out. *)
Definition build_and_run (fuel : nat) : result (Z * dict (dict Q)) :=
  match add_edges network_edges init with
  | (Ok _, mf) =>
      match fst (edmonds_karp fuel SRC SNK mf) with
      | Ok (max_flow_value, flow_matrix, _) =>
          Ok (max_flow_value,
              decompose terminals warehouses edges_T_S edges_S_M flow_matrix)
      | Raise e => Raise e
      | OutOfFuel => OutOfFuel
      end
  | (Raise e, _) => Raise e
  | (OutOfFuel, _) => OutOfFuel
  end.

(** ** Scenarios of the specification *)

Definition run_edges (es : list (string * string * Z)) : MaxFlow :=
  snd (add_edges es init).

Definition single_edge : MaxFlow :=
  run_edges [("source", "sink", 10)]%string.

Definition diamond : MaxFlow :=
  run_edges [("source", "a", 5); ("source", "b", 5);
             ("a", "sink", 3); ("b", "sink", 10)]%string.

(** Scenario 4: sources [X] and [Y] feed the hub [H] with 6 and 4, and the
    hub feeds the consumers [P] and [Q] with 7 and 3. *)
Definition hub_flows : graph :=
  [("X", [("H", 6)]); ("Y", [("H", 4)]); ("H", [("P", 7); ("Q", 3)])]%string.

Definition hub_table : dict (dict Q) :=
  decompose ["X"; "Y"]%string ["H"]%string
    [("X", "H", 6); ("Y", "H", 4)]%string
    [("H", "P", 7); ("H", "Q", 3)]%string hub_flows.

(** Scenario 3: no path leads to the sink. *)
Definition disconnected : MaxFlow :=
  run_edges [("source", "a", 4); ("b", "sink", 7)]%string.

(** Two edges in opposite directions between the same nodes. *)
Definition antiparallel : MaxFlow :=
  run_edges [("a", "b", 1); ("b", "a", 1)]%string.


(** * Specification vocabulary *)

Definition zsum {A} (f : A -> Z) (l : list A) : Z :=
  fold_right (fun a acc => f a + acc) 0 l.

Definition b2z (b : bool) : Z := if b then 1 else 0.

(** The same keys in the same order, at both levels. *)
Definition shape (g : graph) : list (string * list string) :=
  map (fun ur => (fst ur, keys (snd ur))) g.

(** The sum of the capacities of the edges that leave [s]. *)
Definition out_capacity (g : graph) (s : string) : Z :=
  zsum snd (get_default g s []).

(** The graph that [add_edge u v c] leaves behind when [c] is not
    negative. *)
Definition graph_after_add_edge (g : graph) (u v : string) (c : Z) : graph :=
  let g1 := match get g u with Some _ => g | None => setitem g u [] end in
  let r := get_default g u [] in
  let g2 := setitem g1 u (setitem r v (get_default r v 0 + c)) in
  match get g2 v with Some _ => g2 | None => setitem g2 v [] end.

(** Decidable versions of the well-formedness conditions, to check them on
    concrete graphs by computation. *)
Fixpoint nodupb (l : list string) : bool :=
  match l with
  | [] => true
  | x :: l' => negb (existsb (String.eqb x) l') && nodupb l'
  end.

Definition wf_graphb (g : graph) : bool :=
  nodupb (keys g) && forallb (fun ur => nodupb (keys (snd ur))) g.

Definition nonneg_graphb (g : graph) : bool :=
  forallb (fun e => 0 <=? snd e) (edges g).

(** What [_build_residual] keeps of the graph while it runs: the entries of
    the graph are there unchanged, and every other entry is [0] and is the
    reverse of an edge. *)
Definition residual_inv (g res : graph) : Prop :=
  wf_graph res /\
  (forall a, In a (keys g) -> In a (keys res)) /\
  (forall a b,
     entry res a b = entry g a b \/
     (entry g a b = None /\ entry g b a <> None /\ entry res a b = Some 0)) /\
  (forall a, In a (keys res) ->
     In a (keys g) \/ exists b, entry g b a <> None).

(** The entry that the residual graph has for [(u, v)] at the start. *)
Definition residual_entry (g : graph) (u v : string) : option Z :=
  match entry g u v with
  | Some c => Some c
  | None => match entry g v u with Some _ => Some 0 | None => None end
  end.

(** ** Flows, cuts and the invariants of the solver *)

(** The total residual capacity that leaves [n], over the nodes [N]. *)
Definition rowsum (N : list string) (R : graph) (n : string) : Z :=
  zsum (fun v => capacity R n v) N.

(** Every entry of the residual graph has a reciprocal entry. *)
Definition reciprocal (R : graph) : Prop :=
  forall u v, entry R u v <> None -> entry R v u <> None.

(** The predecessor dictionaries that the search builds: the source first,
    then nodes that are new, each with a predecessor that is already there
    and an edge of positive residual capacity from it. *)
Inductive ptree (R : graph) (s : string) : dict (option string) -> Prop :=
| ptree_root : ptree R s [(s, None)]
| ptree_snoc par u v c :
    ptree R s par -> In u (keys par) -> ~ In v (keys par) ->
    entry R u v = Some c -> 0 < c ->
    ptree R s (par ++ [(v, Some u)]).

(** The edges met when following the predecessors from [x]. *)
Inductive path_to (par : dict (option string))
  : string -> list (string * string) -> Prop :=
| path_root x : get par x = Some None -> path_to par x []
| path_step x p l :
    get par x = Some (Some p) -> path_to par p l ->
    path_to par x ((p, x) :: l).

(** A list of edges that leads from [s] to [x], last edge first. *)
Inductive chain (s : string) : string -> list (string * string) -> Prop :=
| chain_nil : chain s s []
| chain_cons p x l : chain s p l -> chain s x ((p, x) :: l).

(** One step of [push] and the whole walk, as functions of the path. *)
Definition push_edge (R : graph) (u v : string) (aug : Z) : graph :=
  let R1 :=
    setitem R u (setitem (get_default R u []) v (capacity R u v - aug)) in
  setitem R1 v (setitem (get_default R1 v []) u (capacity R1 v u + aug)).

Definition push_path (R : graph) (l : list (string * string)) (aug : Z)
    : graph :=
  fold_left (fun acc e => push_edge acc (fst e) (snd e) aug) l R.

(** The running minimum of [walk_bottleneck] along a path. *)
Definition path_min (R : graph) (l : list (string * string)) (b : num) : num :=
  fold_left (fun acc e => num_min acc (capacity R (fst e) (snd e))) l b.

(** The invariant of the augmenting loop: the residual graph keeps the
    entries it started with, no residual capacity is negative, what is
    taken from an edge is given to its reverse, and the residual capacity
    that leaves a node changes only at the source and at the sink. *)
Definition flow_inv (R0 R : graph) (s t : string) (total : Z) : Prop :=
  shape R = shape R0 /\
  (forall u v, 0 <= capacity R u v) /\
  (forall u v,
     capacity R u v + capacity R v u = capacity R0 u v + capacity R0 v u) /\
  (forall n,
     rowsum (keys R0) R n =
     rowsum (keys R0) R0 n
       - total * (b2z (String.eqb n s) - b2z (String.eqb n t))).

(** The states of the augmenting loop: how many iterations have been
    completed, and the residual graph and the total flow at that point. *)
Inductive loop_state (fuel : nat) (g : graph) (s t : string)
  : nat -> graph -> Z -> Prop :=
| loop_start res :
    _build_residual g = Ok res -> loop_state fuel g s t 0 res 0
| loop_iter k res total pr res' :
    loop_state fuel g s t k res total ->
    _bfs_augment fuel res s t = Ok (Some pr) ->
    push fuel res (parent pr) t (bottleneck pr) = Ok res' ->
    loop_state fuel g s t (S k) res' (total + bottleneck pr).

(** The nodes of a graph: the keys of its residual graph, which are the
    keys of the graph and the endpoints of its edges. *)
Definition node_list (g : graph) : list string :=
  match _build_residual g with
  | Ok res => keys res
  | _ => []
  end.

(** A loop budget that is enough for [edmonds_karp]. *)
Definition fuel_bound (g : graph) (s : string) : nat :=
  (List.length (node_list g) + Z.to_nat (out_capacity g s) + 1)%nat.

(** A flow gives every edge of the graph a value. *)
Definition flow : Type := string -> string -> Z.

Definition flow_out (g : graph) (f : flow) (n : string) : Z :=
  zsum (fun e => if String.eqb (fst (fst e)) n
                 then f (fst (fst e)) (snd (fst e)) else 0) (edges g).

Definition flow_in (g : graph) (f : flow) (n : string) : Z :=
  zsum (fun e => if String.eqb (snd (fst e)) n
                 then f (fst (fst e)) (snd (fst e)) else 0) (edges g).

(** A flow is feasible when it respects the capacities and is conserved at
    every node other than the source and the sink. *)
Definition feasible (g : graph) (s t : string) (f : flow) : Prop :=
  (forall u v c, In (u, v, c) (edges g) -> 0 <= f u v <= c) /\
  (forall n, n <> s -> n <> t -> flow_in g f n = flow_out g f n).

Definition flow_value (g : graph) (s : string) (f : flow) : Z :=
  flow_out g f s - flow_in g f s.

(** The flow that a flow matrix stands for. *)
Definition matrix_flow (fm : graph) : flow := capacity fm.

(** A cut is the set of nodes on the side of the source. *)
Definition cut : Type := string -> bool.

Definition separates (S : cut) (s t : string) : Prop :=
  S s = true /\ S t = false.

(** The sum of the capacities of the edges that cross the cut forwards. *)
Definition cut_capacity (g : graph) (S : cut) : Z :=
  zsum (fun e => if S (fst (fst e)) && negb (S (snd (fst e)))
                 then snd e else 0) (edges g).

(** Inflow and outflow of a node in a flow matrix. *)
Definition inflow (fm : graph) (n : string) : Z :=
  zsum (fun e => if String.eqb (snd (fst e)) n then snd e else 0) (edges fm).

Definition outflow (fm : graph) (n : string) : Z :=
  zsum snd (get_default fm n []).

(** What [_bfs_augment] returns when it finds the sink: the predecessors
    lead from the sink back to the source along distinct nodes, over
    entries of the residual graph whose capacity is at least the
    bottleneck, and the bottleneck is positive. *)
Definition augmenting (R : graph) (s t : string) (pr : _PathResult) : Prop :=
  t <> s /\
  exists l,
    path_to (parent pr) t l /\ chain s t l /\ l <> [] /\
    (List.length l < List.length (keys R))%nat /\
    NoDup (map snd l) /\
    0 < bottleneck pr /\
    (forall p y, In (p, y) l ->
       exists c, entry R p y = Some c /\ bottleneck pr <= c /\ p <> y).

(** What the search leaves when it fails: a set of nodes with the source
    that no edge of positive residual capacity leaves. *)
Definition closed_set (R : graph) (s t : string) (S : list string) : Prop :=
  In s S /\ (t <> s -> ~ In t S) /\
  (forall u v c, In u S -> entry R u v = Some c -> 0 < c -> In v S).

(** [used if used > 0 else 0] *)
Definition clamp (used : Z) : Z := if 0 <? used then used else 0.

(** The entry of the flow matrix for [(u, v)] when the loop ends with the
    residual graph [R]. *)
Definition flow_entry (g R : graph) (u v : string) : option Z :=
  match entry g u v with
  | Some c => Some (clamp (c - capacity R u v))
  | None => None
  end.

(** A flow seen on the edges of the graph only. *)
Definition restrict (g : graph) (f : flow) : flow :=
  fun u v => match entry g u v with Some _ => f u v | None => 0 end.

(** The cut that a list of nodes stands for. *)
Definition cut_of (S : list string) : cut :=
  fun x => existsb (String.eqb x) S.

(** The net flow that the residual graph [R] records on the pair
    [(u, v)]. *)
Definition net_flow (g R : graph) (u v : string) : Z :=
  capacity g u v - capacity R u v.

(** ** The proportional decomposition *)

Definition qsum {A} (f : A -> Q) (l : list A) : Q :=
  fold_right (fun a acc => (f a + acc)%Q) 0%Q l.

(** Whether a dictionary of edges has the edge [a -> b]. *)
Definition has_edge (es : list (string * string * Z)) (a b : string) : bool :=
  existsb (is_edge a b) es.

(** What the mid-tier node [h] passes from the upstream node [u] to the
    downstream node [d]: nothing when nothing enters [h], and otherwise the
    flow from [h] to [d] times the share of [u] in the inflow of [h]. *)
Definition attributed (in0 out0 : graph) (h u d : string) : Q :=
  let total_in := sum_values (get_default in0 h []) in
  if total_in =? 0 then 0%Q
  else (inject_Z (flow_lookup out0 h d)
        * (inject_Z (flow_lookup in0 h u) / inject_Z total_in))%Q.

(** During the loop over the warehouses the two dictionaries of flows
    keep their rows. *)
Definition same_rows (d d' : graph) : Prop :=
  forall k, get_default d' k [] = get_default d k [].

(** ** Further vocabulary for the graph and the solver *)

(** What every object built with [add_edge] keeps. *)
Definition built_inv (self : MaxFlow) : Prop :=
  wf_graph (mf_graph self) /\ nonneg_graph (mf_graph self) /\
  closed_graph (mf_graph self) /\ NoDup (mf_nodes self) /\
  (forall x, In x (mf_nodes self) <-> In x (keys (mf_graph self))).

(** The sum of the capacities that a list of [add_edge] calls gives for the
    ordered pair [(u, v)]. *)
Definition added (es : list (string * string * Z)) (u v : string) : Z :=
  zsum (fun e => if is_edge u v e then snd e else 0) es.

(** A walk of [n] edges of positive residual capacity from [x]. *)
Inductive walk (R : graph) (x : string) : string -> nat -> Prop :=
| walk_nil : walk R x x 0
| walk_snoc u v c n :
    walk R x u n -> entry R u v = Some c -> 0 < c -> walk R x v (S n).

Definition reach (R : graph) (s x : string) : Prop := exists n, walk R s x n.

(** How many predecessors lie between a node and the root of the tree. *)
Definition depth (par : dict (option string)) (x : string) (n : nat) : Prop :=
  exists l, path_to par x l /\ List.length l = n.

(** The row of [x] has been scanned: what it reaches over an edge of
    positive residual capacity is in the tree, at most one level deeper. *)
Definition scanned (R : graph) (par : dict (option string)) (x : string)
    : Prop :=
  forall v c, entry R x v = Some c -> 0 < c ->
    In v (keys par) /\
    forall dx dv, depth par x dx -> depth par v dv -> (dv <= S dx)%nat.

(** The state of the search while the row of [u], at depth [d], is scanned:
    the queue holds nodes of depth [d] and then nodes of depth [d + 1], no
    node of the tree is deeper, and a node of the tree that is not [u] and
    not in the queue has been scanned. *)
Definition levels (R : graph) (par : dict (option string)) (u : string)
    (q : list string) (d : nat) : Prop :=
  depth par u d /\
  (forall x dx, depth par x dx -> (dx <= S d)%nat) /\
  (forall x, In x (keys par) -> x = u \/ In x q \/ scanned R par x) /\
  exists qa qb,
    q = qa ++ qb /\
    (forall x, In x qa -> depth par x d) /\
    (forall x, In x qb -> depth par x (S d)).

(** What the search returns with: the predecessor tree, with the sink in
    it, the bottleneck that the walk back computes, and a path that no walk
    of positive residual capacity from the source to the sink undercuts. *)
Definition found_inv (fuel : nat) (R : graph) (s t : string)
    (pr : _PathResult) : Prop :=
  ptree R s (parent pr) /\
  walk_bottleneck fuel R (parent pr) t Inf = Ok (Int (bottleneck pr)) /\
  forall l n, path_to (parent pr) t l -> walk R s t n ->
              (List.length l <= n)%nat.

(** The sum of the capacities of the edges that enter [t]. *)
Definition in_capacity (g : graph) (t : string) : Z :=
  zsum (fun e => if String.eqb (snd (fst e)) t then snd e else 0) (edges g).

(** The check that every entry of [R] has its reverse entry. *)
Definition reciprocalb (R : graph) : bool :=
  forallb (fun e => match entry R (snd (fst e)) (fst (fst e)) with
                    | Some _ => true
                    | None => false
                    end) (edges R).

(** * The prefix tree of [task_2]

    A shallow embedding of [trie.py] and of the class [Homework] of
    [task_2.py].  A key is a string and the tree branches on its
    characters; [children] is a dictionary from characters to nodes, in
    insertion order.  The value [None] of Python is [None] here: a node
    with the value [None] ends no word. *)

Module Trie.

(** What a method returns: a value, or it raises [TypeError]; the [while]
    loop of [has_prefix] runs on a budget. *)
Inductive outcome (A : Type) : Type :=
| Return (a : A)
| TypeError
| NoFuel.

Arguments Return {A} a.
Arguments TypeError {A}.
Arguments NoFuel {A}.

Section Values.
Variable V : Type.

(** [class TrieNode] *)
#[warnings="-register-all"]
Inductive TrieNode : Type :=
| mkTrieNode (children : list (ascii * TrieNode)) (value : option V).

Definition children (n : TrieNode) : list (ascii * TrieNode) :=
  match n with mkTrieNode cs _ => cs end.

Definition value (n : TrieNode) : option V :=
  match n with mkTrieNode _ v => v end.

(** [TrieNode()] *)
Definition new_node : TrieNode := mkTrieNode [] None.

(** [cs.get(ch)] *)
Fixpoint child (cs : list (ascii * TrieNode)) (ch : ascii)
    : option TrieNode :=
  match cs with
  | [] => None
  | (c, n) :: cs' => if Ascii.eqb ch c then Some n else child cs' ch
  end.

(** [cs[ch] = n]: in place when [ch] is a key, at the end otherwise. *)
Fixpoint set_child (cs : list (ascii * TrieNode)) (ch : ascii) (n : TrieNode)
    : list (ascii * TrieNode) :=
  match cs with
  | [] => [(ch, n)]
  | (c, m) :: cs' =>
      if Ascii.eqb ch c then (c, n) :: cs' else (c, m) :: set_child cs' ch n
  end.

(** [del cs[ch]] *)
Definition del_child (cs : list (ascii * TrieNode)) (ch : ascii)
    : list (ascii * TrieNode) :=
  filter (fun e => negb (Ascii.eqb (fst e) ch)) cs.

(** [class Trie]: the root and the number of words. *)
Record Trie : Type := mkTrie { root : TrieNode; size : Z }.

(** [Trie()] *)
Definition init : Trie := mkTrie new_node 0.

(** The loop and the last lines of [put], from the node [cur] on:
    [for ch in key: if ch not in cur.children: cur.children[ch] = TrieNode();
     cur = cur.children[ch]], then [cur.value = value].  The second
    component tells whether [cur.value is None] held at the last node. *)
Fixpoint put_node (cur : TrieNode) (key : list ascii) (v : option V)
    : TrieNode * bool :=
  match key with
  | [] =>
      (mkTrieNode (children cur) v,
       match value cur with None => true | Some _ => false end)
  | ch :: key' =>
      let nxt := match child (children cur) ch with
                 | Some n => n
                 | None => new_node
                 end in
      let '(nxt', fresh) := put_node nxt key' v in
      (mkTrieNode (set_child (children cur) ch nxt') (value cur), fresh)
  end.

(** [put(key, value=None)] *)
Definition put (key : string) (v : option V) (self : Trie) : outcome Trie :=
  match key with
  | EmptyString => TypeError
  | _ =>
      let '(r, fresh) := put_node (root self) (list_ascii_of_string key) v in
      Return (mkTrie r (if fresh then size self + 1 else size self))
  end.

(** The walk down the tree along [key]; [None] when a character is
    missing. *)
Fixpoint descend (cur : TrieNode) (key : list ascii) : option TrieNode :=
  match key with
  | [] => Some cur
  | ch :: key' =>
      match child (children cur) ch with
      | Some nxt => descend nxt key'
      | None => None
      end
  end.

(** [get(key)] *)
Definition get (key : string) (self : Trie) : outcome (option V) :=
  match key with
  | EmptyString => TypeError
  | _ =>
      match descend (root self) (list_ascii_of_string key) with
      | Some cur => Return (value cur)
      | None => Return None
      end
  end.

(** [_del(node, k, d)] on the characters [k[d:]]: the node afterwards,
    what [_del] returns, and whether [self.size -= 1] ran. *)
Fixpoint _del (node : TrieNode) (k : list ascii)
    : TrieNode * bool * bool :=
  match k with
  | [] =>
      match value node with
      | Some _ =>
          (mkTrieNode (children node) None,
           (List.length (children node) =? 0)%nat, true)
      | None => (node, false, false)
      end
  | ch :: k' =>
      match child (children node) ch with
      | Some nxt =>
          let '(nxt', gone, less) := _del nxt k' in
          let cs := set_child (children node) ch nxt' in
          if gone then
            let cs' := del_child cs ch in
            (mkTrieNode cs' (value node),
             (List.length cs' =? 0)%nat
             && match value node with None => true | Some _ => false end,
             less)
          else (mkTrieNode cs (value node), false, less)
      | None => (node, false, false)
      end
  end.

(** [delete(key)] *)
Definition delete (key : string) (self : Trie) : outcome Trie :=
  match key with
  | EmptyString => TypeError
  | _ =>
      let '(r, _, less) := _del (root self) (list_ascii_of_string key) in
      Return (mkTrie r (if less then size self - 1 else size self))
  end.

(** [is_empty()] *)
Definition is_empty (self : Trie) : bool := size self =? 0.

(** The loop of [longest_prefix_of]. *)
Fixpoint longest_from (cur : TrieNode) (s : list ascii)
    (cur_pref longest : list ascii) : list ascii :=
  match s with
  | [] => longest
  | ch :: s' =>
      match child (children cur) ch with
      | Some nxt =>
          let cur_pref' := cur_pref ++ [ch] in
          longest_from nxt s' cur_pref'
            (match value nxt with Some _ => cur_pref' | None => longest end)
      | None => longest
      end
  end.

(** [longest_prefix_of(s)] *)
Definition longest_prefix_of (s : string) (self : Trie) : outcome string :=
  match s with
  | EmptyString => TypeError
  | _ =>
      Return (string_of_list_ascii
                (longest_from (root self) (list_ascii_of_string s) [] []))
  end.

(** [_collect(node, path, out)]: the list [out] afterwards; [path] is as
    it was when the call returns. *)
Fixpoint _collect (node : TrieNode) (path : list ascii) (out : list string)
    : list string :=
  let out1 := match value node with
              | Some _ => out ++ [string_of_list_ascii path]
              | None => out
              end in
  fold_left
    (fun acc e => _collect (snd e) (path ++ [fst e]) acc)
    (children node) out1.

(** [keys_with_prefix(prefix)] *)
Definition keys_with_prefix (prefix : string) (self : Trie) : list string :=
  match descend (root self) (list_ascii_of_string prefix) with
  | Some cur => _collect cur (list_ascii_of_string prefix) []
  | None => []
  end.

(** [keys()] *)
Definition keys (self : Trie) : list string := _collect (root self) [] [].

End Values.

Arguments mkTrieNode {V} children value.
Arguments children {V} n.
Arguments value {V} n.
Arguments new_node {V}.
Arguments child {V} cs ch.
Arguments set_child {V} cs ch n.
Arguments del_child {V} cs ch.
Arguments mkTrie {V} root size.
Arguments root {V} t.
Arguments size {V} t.
Arguments init {V}.
Arguments put_node {V} cur key v.
Arguments put {V} key v self.
Arguments descend {V} cur key.
Arguments get {V} key self.
Arguments _del {V} node k.
Arguments delete {V} key self.
Arguments is_empty {V} self.
Arguments longest_from {V} cur s cur_pref longest.
Arguments longest_prefix_of {V} s self.
Arguments _collect {V} node path out.
Arguments keys_with_prefix {V} prefix self.
Arguments keys {V} self.

End Trie.

(** ** [class Homework(Trie)] *)

Module Homework.

(** [window.append(ch)] on a [deque(maxlen=k)]: a full window drops its
    first element. *)
Definition window_append (k : nat) (window : list ascii) (ch : ascii)
    : list ascii :=
  if (k =? 0)%nat then window
  else if (List.length window =? k)%nat then tl window ++ [ch]
  else window ++ [ch].

(** [dfs(node)]: the window and the counter afterwards. *)
Fixpoint dfs {V} (k : nat) (target : string) (node : Trie.TrieNode V)
    (st : list ascii * Z) : list ascii * Z :=
  let cnt1 :=
    match Trie.value node with
    | Some _ =>
        if (List.length (fst st) =? k)%nat
           && String.eqb (string_of_list_ascii (fst st)) target
        then snd st + 1 else snd st
    | None => snd st
    end in
  fold_left
    (fun acc e =>
       let before := List.length (fst acc) in
       let acc1 :=
         dfs k target (snd e) (window_append k (fst acc) (fst e), snd acc) in
       if (before <? List.length (fst acc1))%nat
       then (removelast (fst acc1), snd acc1)
       else acc1)
    (Trie.children node) (fst st, cnt1).

(** [count_words_with_suffix(pattern)] *)
Definition count_words_with_suffix {V} (pattern : string) (self : Trie.Trie V)
    : Z :=
  match pattern with
  | EmptyString => Trie.size self
  | _ => snd (dfs (String.length pattern) pattern (Trie.root self) ([], 0))
  end.

(** [node = stack.pop()] *)
Definition pop {A} (stack : list A) : option (A * list A) :=
  match rev stack with
  | [] => None
  | x :: r => Some (x, rev r)
  end.

(** [while stack: node = stack.pop(); if node.value is not None: return True;
     stack.extend(node.children.values())], then [return False]. *)
Fixpoint search {V} (fuel : nat) (stack : list (Trie.TrieNode V))
    : Trie.outcome bool :=
  match fuel with
  | O => Trie.NoFuel
  | S fuel' =>
      match pop stack with
      | None => Trie.Return false
      | Some (node, stack') =>
          match Trie.value node with
          | Some _ => Trie.Return true
          | None => search fuel' (stack' ++ map snd (Trie.children node))
          end
      end
  end.

(** [has_prefix(prefix)] *)
Definition has_prefix {V} (fuel : nat) (prefix : string) (self : Trie.Trie V)
    : Trie.outcome bool :=
  match Trie.descend (Trie.root self) (list_ascii_of_string prefix) with
  | None => Trie.Return false
  | Some cur =>
      match Trie.value cur with
      | Some _ => Trie.Return true
      | None => search fuel [cur]
      end
  end.

End Homework.

(** ** Vocabulary for the prefix tree *)

(** The value stored for a path of characters below a node. *)
Definition stored {V} (n : Trie.TrieNode V) (ks : list ascii) : option V :=
  match Trie.descend n ks with
  | Some m => Trie.value m
  | None => None
  end.

(** The paths below a node that end a word, in the order of [_collect]. *)
Fixpoint paths {V} (n : Trie.TrieNode V) : list (list ascii) :=
  match n with
  | Trie.mkTrieNode cs v =>
      (match v with Some _ => [[]] | None => [] end)
      ++ flat_map (fun e => map (cons (fst e)) (paths (snd e))) cs
  end.

(** How many nodes a tree has. *)
Fixpoint nodes {V} (n : Trie.TrieNode V) : nat :=
  match n with
  | Trie.mkTrieNode cs _ =>
      S (fold_right (fun e acc => (nodes (snd e) + acc)%nat) 0%nat cs)
  end.

Definition all_children {V} (P : Trie.TrieNode V -> Prop)
    (cs : list (ascii * Trie.TrieNode V)) : Prop :=
  fold_right (fun e acc => P (snd e) /\ acc) True cs.

(** The characters of the children of every node are pairwise distinct. *)
Fixpoint wf_node {V} (n : Trie.TrieNode V) : Prop :=
  match n with
  | Trie.mkTrieNode cs _ => NoDup (map fst cs) /\ all_children wf_node cs
  end.

(** No branch is dead: a node without children ends a word. *)
Fixpoint pruned {V} (n : Trie.TrieNode V) : Prop :=
  match n with
  | Trie.mkTrieNode cs v =>
      (cs = [] -> v <> None) /\ all_children pruned cs
  end.

(** The tries that [put] with a value and [delete] build from the empty
    one. *)
Inductive built {V} : Trie.Trie V -> Prop :=
| built_init : built Trie.init
| built_put t key v t' :
    built t -> Trie.put key (Some v) t = Trie.Return t' -> built t'
| built_delete t key t' :
    built t -> Trie.delete key t = Trie.Return t' -> built t'.

(** Whether the last character of [s] is [c]. *)
Fixpoint ends_with (c : ascii) (s : string) : bool :=
  match s with
  | EmptyString => false
  | String a EmptyString => Ascii.eqb a c
  | String _ s' => ends_with c s'
  end.

(** A trie with the words of a list, each with the value [0]. *)
Definition trie_of (words : list string) : Trie.Trie Z :=
  fold_left
    (fun t w => match Trie.put w (Some 0) t with
                | Trie.Return t' => t'
                | _ => t
                end)
    words Trie.init.

(** What the tries built with [put] and [delete] keep: distinct characters
    at every node, no value at the root, no dead branch, and a size that
    is the number of keys. *)
Definition trie_inv {V} (t : Trie.Trie V) : Prop :=
  wf_node (Trie.root t) /\
  Trie.value (Trie.root t) = None /\
  all_children pruned (Trie.children (Trie.root t)) /\
  Trie.size t = Z.of_nat (List.length (Trie.keys t)).

(** Whether the list [p] is a prefix of [ks]. *)
Fixpoint starts_with (p ks : list ascii) : bool :=
  match p, ks with
  | [], _ => true
  | _ :: _, [] => false
  | a :: p', b :: ks' => Ascii.eqb a b && starts_with p' ks'
  end.

(** Whether the last element of [l] is [c]. *)
Fixpoint ends_in (c : ascii) (l : list ascii) : bool :=
  match l with
  | [] => false
  | a :: l' => match l' with [] => Ascii.eqb a c | _ => ends_in c l' end
  end.

(** Whether a word ends at a node or below it. *)
Definition occupied {V} (n : Trie.TrieNode V) : bool :=
  match paths n with [] => false | _ :: _ => true end.

(** How many nodes the trees of a stack have. *)
Definition stack_nodes {V} (stack : list (Trie.TrieNode V)) : nat :=
  fold_right (fun n acc => (nodes n + acc)%nat) 0%nat stack.

(** * Properties *)

(** ** Dictionaries *)

Section DictFacts.
Context {V : Type}.
Implicit Types (d : dict V) (k : string) (x : V).

Lemma get_In d k x : get d k = Some x -> In (k, x) d.
Proof.
  induction d as [|[k' y] d IH]; simpl; [discriminate|].
  destruct (String.eqb_spec k k') as [->|Hne].
  - intros [= ->]. now left.
  - intros H. right. now apply IH.
Qed.

Lemma get_None d k : get d k = None <-> ~ In k (keys d).
Proof.
  induction d as [|[k' y] d IH]; simpl.
  - tauto.
  - destruct (String.eqb_spec k k') as [->|Hne].
    + split; [discriminate|]. intros H. exfalso. apply H. now left.
    + rewrite IH. split; intros H; [intros [E|E]; [congruence|tauto]|tauto].
Qed.

Lemma get_Some_key d k x : get d k = Some x -> In k (keys d).
Proof.
  intros H. apply get_In in H. unfold keys.
  change k with (fst (k, x)). now apply in_map.
Qed.

Lemma In_keys_get d k : In k (keys d) -> exists x, get d k = Some x.
Proof.
  intros H. destruct (get d k) eqn:E; [eauto|].
  apply get_None in E. tauto.
Qed.

Lemma In_get d k x : wf_dict d -> In (k, x) d -> get d k = Some x.
Proof.
  unfold wf_dict. induction d as [|[k' y] d IH]; simpl; [tauto|].
  intros Hnd [E|Hin].
  - injection E as -> ->. now rewrite String.eqb_refl.
  - inversion Hnd as [|? ? Hni Hnd']; subst.
    destruct (String.eqb_spec k k') as [->|Hne].
    + exfalso. apply Hni. change k' with (fst (k', x)). now apply in_map.
    + now apply IH.
Qed.

Lemma get_setitem_same d k x : get (setitem d k x) k = Some x.
Proof.
  induction d as [|[k' y] d IH]; simpl.
  - now rewrite String.eqb_refl.
  - destruct (String.eqb_spec k k') as [->|Hne]; simpl.
    + now rewrite String.eqb_refl.
    + destruct (String.eqb_spec k k'); [congruence|exact IH].
Qed.

Lemma get_setitem_other d k k' x :
  k <> k' -> get (setitem d k x) k' = get d k'.
Proof.
  intros Hne. induction d as [|[k0 y] d IH]; simpl.
  - destruct (String.eqb_spec k' k); [congruence|reflexivity].
  - destruct (String.eqb_spec k k0) as [->|Hne0]; simpl.
    + destruct (String.eqb_spec k' k0); [congruence|reflexivity].
    + destruct (String.eqb_spec k' k0); [reflexivity|exact IH].
Qed.

Lemma get_setitem d k k' x :
  get (setitem d k x) k' = if String.eqb k' k then Some x else get d k'.
Proof.
  destruct (String.eqb_spec k' k) as [->|Hne].
  - apply get_setitem_same.
  - apply get_setitem_other. congruence.
Qed.

Lemma keys_setitem_present d k x :
  In k (keys d) -> keys (setitem d k x) = keys d.
Proof.
  induction d as [|[k' y] d IH]; simpl; [tauto|].
  intros H. destruct (String.eqb_spec k k') as [->|Hne]; simpl.
  - reflexivity.
  - f_equal. apply IH. destruct H; [congruence|assumption].
Qed.

Lemma setitem_absent d k x :
  ~ In k (keys d) -> setitem d k x = d ++ [(k, x)].
Proof.
  induction d as [|[k' y] d IH]; simpl; [reflexivity|].
  intros H. destruct (String.eqb_spec k k') as [->|Hne].
  - exfalso. apply H. now left.
  - f_equal. apply IH. tauto.
Qed.

Lemma keys_setitem_absent d k x :
  ~ In k (keys d) -> keys (setitem d k x) = keys d ++ [k].
Proof.
  intros H. rewrite setitem_absent by assumption.
  unfold keys. now rewrite map_app.
Qed.

Lemma In_keys_setitem d k k' x :
  In k' (keys (setitem d k x)) <-> k' = k \/ In k' (keys d).
Proof.
  destruct (in_dec string_dec k (keys d)) as [Hin|Hni].
  - rewrite keys_setitem_present by assumption.
    split; [tauto|]. intros [->|H]; assumption.
  - rewrite keys_setitem_absent by assumption.
    rewrite in_app_iff. simpl. split; intros H; intuition congruence.
Qed.

Lemma wf_setitem d k x : wf_dict d -> wf_dict (setitem d k x).
Proof.
  unfold wf_dict. intros Hnd.
  destruct (in_dec string_dec k (keys d)) as [Hin|Hni].
  - now rewrite keys_setitem_present.
  - rewrite keys_setitem_absent by assumption.
    apply NoDup_app; [assumption|repeat constructor; simpl; tauto|].
    intros a Ha [<-|[]]. tauto.
Qed.

Lemma contains_true d k : contains d k = true <-> In k (keys d).
Proof.
  unfold contains. destruct (get d k) eqn:E.
  - split; [intros _; eapply get_Some_key; eassumption|reflexivity].
  - split; [discriminate|]. intros H. apply get_None in E. tauto.
Qed.

Lemma contains_false d k : contains d k = false <-> ~ In k (keys d).
Proof.
  rewrite <- contains_true. destruct (contains d k); intuition congruence.
Qed.

End DictFacts.

Lemma In_setitem {V} (d : dict V) k x k' y :
  In (k', y) (setitem d k x) -> (k' = k /\ y = x) \/ In (k', y) d.
Proof.
  induction d as [|[k0 z] d IH]; simpl.
  - intros [[= <- <-]|[]]. now left.
  - destruct (String.eqb_spec k k0) as [->|Hne]; simpl.
    + intros [[= <- <-]|H]; [now left|right; now right].
    + intros [E|H]; [right; now left|].
      destruct (IH H) as [?|?]; [now left|right; now right].
Qed.

(** ** Graphs *)

Lemma entry_setitem (g : graph) u r a b :
  entry (setitem g u r) a b = if String.eqb a u then get r b else entry g a b.
Proof.
  unfold entry. rewrite get_setitem. now destruct (String.eqb a u).
Qed.

Lemma capacity_setitem (g : graph) u r a b :
  capacity (setitem g u r) a b =
  if String.eqb a u then get_default r b 0 else capacity g a b.
Proof.
  unfold capacity, get_default. rewrite entry_setitem.
  now destruct (String.eqb a u).
Qed.

Lemma wf_graph_setitem (g : graph) u r :
  wf_graph g -> wf_dict r -> wf_graph (setitem g u r).
Proof.
  intros [Hg Hr] Hwf. split.
  - now apply wf_setitem.
  - intros a r' Hin. apply In_setitem in Hin as [[_ ->]|Hin]; eauto.
Qed.

Lemma wf_graph_row (g : graph) u r : wf_graph g -> get g u = Some r -> wf_dict r.
Proof. intros [_ H] E. eapply H, get_In, E. Qed.

Lemma wf_nil {V} : wf_dict (@nil (string * V)).
Proof. constructor. Qed.

Lemma In_edges (g : graph) u v c :
  In (u, v, c) (edges g) <-> exists r, In (u, r) g /\ In (v, c) r.
Proof.
  unfold edges. rewrite in_flat_map. split.
  - intros [[u' r] [Hin H]]. simpl in H. apply in_map_iff in H.
    destruct H as [[v' c'] [[= <- <- <-] H]]. eauto.
  - intros [r [Hin H]]. exists (u, r). split; [assumption|].
    simpl. apply in_map_iff. exists (v, c). auto.
Qed.

Lemma In_edges_entry (g : graph) u v c :
  wf_graph g -> In (u, v, c) (edges g) <-> entry g u v = Some c.
Proof.
  intros [Hg Hr]. rewrite In_edges. unfold entry. split.
  - intros [r [Hin H]]. rewrite (In_get _ _ _ Hg Hin). apply In_get; eauto.
  - destruct (get g u) as [r|] eqn:E; [|discriminate].
    intros H. exists r. split; now apply get_In.
Qed.

Lemma row_count (r : row) v :
  wf_dict r ->
  List.length (filter (fun vc => String.eqb (fst vc) v) r) =
  match get r v with Some _ => 1%nat | None => 0%nat end.
Proof.
  unfold wf_dict. induction r as [|[k c] r IH]; simpl; [reflexivity|].
  intros Hnd. inversion Hnd as [|? ? Hni Hnd']; subst.
  rewrite (String.eqb_sym k v).
  destruct (String.eqb_spec v k) as [->|Hne]; simpl.
  - rewrite IH by assumption.
    apply get_None in Hni. now rewrite Hni.
  - now apply IH.
Qed.

Lemma edge_count_entry (g : graph) u v :
  wf_graph g ->
  edge_count g u v = match entry g u v with Some _ => 1%nat | None => 0%nat end.
Proof.
  unfold edge_count, edges, entry. intros [Hg Hr].
  induction g as [|[k r] g IH]; simpl; [reflexivity|].
  inversion Hg as [|? ? Hni Hnd]; subst.
  rewrite filter_app, length_app, IH; [|assumption|intros; eapply Hr; right; eassumption].
  assert (Hrow : wf_dict r) by (eapply Hr; left; reflexivity).
  destruct (String.eqb_spec u k) as [->|Hne].
  - apply get_None in Hni. rewrite Hni, Nat.add_0_r.
    rewrite <- (row_count _ v Hrow).
    clear. induction r as [|[k' c] r IH]; simpl; [reflexivity|].
    unfold is_edge at 1. simpl. rewrite String.eqb_refl. simpl.
    destruct (String.eqb k' v); simpl; now rewrite IH.
  - replace (filter _ _) with (@nil (string * string * Z)); [reflexivity|].
    clear - Hne. induction r as [|[k' c] r IH]; simpl; [reflexivity|].
    unfold is_edge at 1. simpl.
    destruct (String.eqb_spec k u); [congruence|]. simpl. exact IH.
Qed.

(** ** [add_edge] *)

Lemma add_edge_run u v c self :
  0 <= c ->
  add_edge u v c self =
  (Ok tt,
   mkMaxFlow (graph_after_add_edge (mf_graph self) u v c)
     (set_add string_dec v (set_add string_dec u (mf_nodes self)))).
Proof.
  intros Hc. unfold add_edge.
  destruct (Z.ltb_spec c 0) as [|_]; [lia|].
  destruct self as [g ns].
  unfold mbind, nodes_add, graph_setitem2, graph_getitem, graph_get,
    graph_setdefault, mret, mbind, graph_after_add_edge, setdefault,
    get_default; simpl.
  destruct (get g u) as [r|] eqn:Eu; simpl.
  - rewrite Eu. simpl.
    destruct (get (setitem g u _) v); reflexivity.
  - rewrite get_setitem_same. simpl.
    match goal with
    | |- context [get (setitem ?a ?b ?x) v] => destruct (get (setitem a b x) v)
    end; reflexivity.
Qed.

Lemma entry_after_add_edge g u v c a b :
  entry (graph_after_add_edge g u v c) a b =
  if String.eqb a u && String.eqb b v then Some (capacity g u v + c)
  else entry g a b.
Proof.
  unfold graph_after_add_edge.
  set (g1 := match get g u with Some _ => g | None => setitem g u [] end).
  set (r := get_default g u []).
  set (g2 := setitem g1 u _).
  assert (E2 : entry g2 a b =
    if String.eqb a u && String.eqb b v then Some (capacity g u v + c)
    else entry g a b).
  { unfold g2. rewrite entry_setitem.
    destruct (String.eqb_spec a u) as [->|Hne]; simpl.
    - rewrite get_setitem.
      assert (Er : forall b', get r b' = entry g u b').
      { intros b'. unfold r, get_default, entry. now destruct (get g u). }
      destruct (String.eqb_spec b v) as [->|Hne].
      + unfold capacity, get_default. now rewrite Er.
      + apply Er.
    - unfold g1. destruct (get g u); [reflexivity|].
      rewrite entry_setitem. destruct (String.eqb_spec a u); [congruence|reflexivity]. }
  destruct (get g2 v) eqn:Ev; [exact E2|].
  rewrite entry_setitem. destruct (String.eqb_spec a v) as [->|Hne]; [|exact E2].
  rewrite <- E2. unfold entry. now rewrite Ev.
Qed.

Lemma wf_after_add_edge g u v c :
  wf_graph g -> wf_graph (graph_after_add_edge g u v c).
Proof.
  intros Hwf. unfold graph_after_add_edge.
  set (g1 := match get g u with Some _ => g | None => setitem g u [] end).
  assert (H1 : wf_graph g1).
  { unfold g1. destruct (get g u); [assumption|].
    apply wf_graph_setitem; [assumption|apply wf_nil]. }
  set (r := get_default g u []).
  assert (Hr : wf_dict r).
  { unfold r, get_default. destruct (get g u) eqn:E; [|apply wf_nil].
    eapply wf_graph_row; eassumption. }
  set (g2 := setitem g1 u _).
  assert (H2 : wf_graph g2).
  { apply wf_graph_setitem; [assumption|]. now apply wf_setitem. }
  destruct (get g2 v); [assumption|].
  apply wf_graph_setitem; [assumption|apply wf_nil].
Qed.

(** C10: a negative capacity makes [add_edge] raise [ValueError] (the
    invalid-capacity condition) and the object, its graph and its node set,
    is exactly as it was before the call. *)
Theorem add_edge_negative_raises (self : MaxFlow) (u v : string) (c : Z) :
  c < 0 -> add_edge u v c self = (Raise ValueError, self).
Proof.
  intros Hc. unfold add_edge.
  destruct (Z.ltb_spec c 0); [reflexivity|lia].
Qed.

Lemma add_edge_negative_raises_witness :
  add_edge "T1" "S1" (-5) diamond = (Raise ValueError, diamond).
Proof. apply add_edge_negative_raises. lia. Defined.

(** C9: two calls of [add_edge] for the same ordered pair, with capacities
    [c1] and [c2] that are not negative, both succeed and leave exactly one
    edge from [u] to [v]; its capacity is what the pair had before (nothing
    when the edge is new) plus [c1 + c2]. *)
Theorem add_edge_accumulates (self : MaxFlow) (u v : string) (c1 c2 : Z) :
  wf_graph (mf_graph self) -> 0 <= c1 -> 0 <= c2 ->
  exists self2,
    (add_edge u v c1 ;; add_edge u v c2)%method self = (Ok tt, self2) /\
    entry (mf_graph self2) u v =
      Some (capacity (mf_graph self) u v + (c1 + c2)) /\
    edge_count (mf_graph self2) u v = 1%nat /\
    (entry (mf_graph self) u v = None ->
     entry (mf_graph self2) u v = Some (c1 + c2)).
Proof.
  intros Hwf H1 H2. eexists. unfold mbind.
  rewrite add_edge_run by assumption.
  rewrite add_edge_run by assumption. cbn [mf_graph mf_nodes].
  split; [reflexivity|]. cbn [mf_graph mf_nodes].
  assert (E : entry
    (graph_after_add_edge (graph_after_add_edge (mf_graph self) u v c1) u v c2)
    u v = Some (capacity (mf_graph self) u v + (c1 + c2))).
  { rewrite entry_after_add_edge, !String.eqb_refl. simpl.
    unfold capacity at 1. rewrite entry_after_add_edge, !String.eqb_refl.
    simpl. f_equal. lia. }
  split; [exact E|]. split.
  - rewrite edge_count_entry by (now do 2 apply wf_after_add_edge).
    now rewrite E.
  - intros Hnone. rewrite E. unfold capacity. now rewrite Hnone.
Qed.

Lemma add_edge_accumulates_witness :
  exists self2,
    (add_edge "T1" "S1" 25 ;; add_edge "T1" "S1" 25)%method init
      = (Ok tt, self2) /\
    entry (mf_graph self2) "T1" "S1" =
      Some (capacity (mf_graph init) "T1" "S1" + (25 + 25)) /\
    edge_count (mf_graph self2) "T1" "S1" = 1%nat /\
    (entry (mf_graph init) "T1" "S1" = None ->
     entry (mf_graph self2) "T1" "S1" = Some (25 + 25)).
Proof.
  apply (add_edge_accumulates init "T1" "S1" 25 25); [|lia|lia].
  split; [constructor|intros ? ? []].
Defined.

(** ** Checking well-formedness by computation *)

Lemma nodupb_NoDup l : nodupb l = true -> NoDup l.
Proof.
  induction l as [|x l IH]; simpl; [constructor|].
  intros H. apply andb_true_iff in H as [H1 H2].
  constructor; [|now apply IH].
  intros Hin. apply negb_true_iff in H1.
  assert (E : existsb (String.eqb x) l = true).
  { apply existsb_exists. exists x. split; [assumption|apply String.eqb_refl]. }
  congruence.
Qed.

Lemma wf_graphb_true g : wf_graphb g = true -> wf_graph g.
Proof.
  unfold wf_graphb. intros H. apply andb_true_iff in H as [H1 H2].
  split; [now apply nodupb_NoDup|].
  intros u r Hin. rewrite forallb_forall in H2.
  apply nodupb_NoDup. exact (H2 _ Hin).
Qed.

Lemma nonneg_graphb_true g : nonneg_graphb g = true -> nonneg_graph g.
Proof.
  unfold nonneg_graphb, nonneg_graph. rewrite forallb_forall.
  intros H u v c Hin. specialize (H _ Hin). simpl in H. lia.
Qed.

(** ** [_build_residual] *)

Lemma copy_graph_id g : copy_graph g = g.
Proof.
  unfold copy_graph. induction g as [|[u r] g IH]; simpl; [reflexivity|].
  now rewrite IH.
Qed.

Lemma entry_add_reverse res u v a b :
  entry (add_reverse res u v) a b =
  if String.eqb a v && String.eqb b u then
    match entry res v u with Some x => Some x | None => Some 0 end
  else entry res a b.
Proof.
  unfold add_reverse, setdefault.
  destruct (get res v) as [r|] eqn:Ev.
  - assert (Evu : entry res v u = get r u) by (unfold entry; now rewrite Ev).
    rewrite Evu.
    destruct (get r u) as [x|] eqn:Eu; rewrite entry_setitem;
      destruct (String.eqb_spec a v) as [->|Hne]; simpl; try reflexivity.
    + destruct (String.eqb_spec b u) as [->|Hne]; [assumption|].
      unfold entry. now rewrite Ev.
    + rewrite get_setitem.
      destruct (String.eqb_spec b u) as [->|Hne]; [reflexivity|].
      unfold entry. now rewrite Ev.
  - assert (Evu : entry res v u = None) by (unfold entry; now rewrite Ev).
    rewrite Evu. simpl. rewrite entry_setitem.
    destruct (String.eqb_spec a v) as [->|Hne]; simpl.
    + destruct (String.eqb_spec b u) as [->|Hne]; [reflexivity|].
      unfold entry. now rewrite Ev.
    + rewrite entry_setitem.
      destruct (String.eqb_spec a v); [congruence|reflexivity].
Qed.

Lemma keys_add_reverse res u v a :
  In a (keys res) -> In a (keys (add_reverse res u v)).
Proof.
  intros H. unfold add_reverse, setdefault.
  destruct (get res v) as [r|] eqn:Ev.
  - destruct (get r u); apply In_keys_setitem; now right.
  - simpl. apply In_keys_setitem. right. apply In_keys_setitem. now right.
Qed.

Lemma wf_add_reverse res u v : wf_graph res -> wf_graph (add_reverse res u v).
Proof.
  intros Hwf. unfold add_reverse, setdefault.
  destruct (get res v) as [r|] eqn:Ev.
  - assert (Hr : wf_dict r) by (eapply wf_graph_row; eassumption).
    destruct (get r u); apply wf_graph_setitem; try assumption.
    now apply wf_setitem.
  - simpl. apply wf_graph_setitem.
    + apply wf_graph_setitem; [assumption|apply wf_nil].
    + repeat constructor. simpl. tauto.
Qed.

Lemma entry_key (g : graph) u v : entry g u v <> None -> In u (keys g).
Proof.
  unfold entry. destruct (get g u) eqn:E; [|congruence].
  intros _. eapply get_Some_key; eassumption.
Qed.

Lemma keys_add_reverse_inv res u v a :
  In a (keys (add_reverse res u v)) -> a = v \/ In a (keys res).
Proof.
  unfold add_reverse, setdefault.
  destruct (get res v) as [r|] eqn:Ev.
  - destruct (get r u); intros H; apply In_keys_setitem in H; tauto.
  - simpl. intros H. apply In_keys_setitem in H as [H|H]; [tauto|].
    apply In_keys_setitem in H. tauto.
Qed.

Lemma residual_inv_add_reverse g res u v :
  residual_inv g res -> entry res u v <> None ->
  residual_inv g (add_reverse res u v).
Proof.
  intros (Hwf & Hk & He & Hn) Huv.
  split; [now apply wf_add_reverse|]. split; [|split].
  - intros a Ha. now apply keys_add_reverse, Hk.
  - intros a b. rewrite entry_add_reverse.
    destruct (String.eqb_spec a v) as [->|Hne]; simpl; [|apply He].
    destruct (String.eqb_spec b u) as [->|Hne]; simpl; [|apply He].
    destruct (entry res v u) as [x|] eqn:Evu.
    + rewrite <- Evu. apply He.
    + right. destruct (He v u) as [E|(_ & _ & E)]; [|congruence].
      rewrite Evu in E. split; [now symmetry|]. split; [|reflexivity].
      destruct (He u v) as [E'|(_ & E' & _)]; congruence.
  - intros a Ha. apply keys_add_reverse_inv in Ha as [->|Ha]; [|now apply Hn].
    destruct (He u v) as [E|(_ & E & _)].
    + right. exists u. congruence.
    + left. eapply entry_key, E.
Qed.

Lemma entry_add_reverse_mono res u v a b :
  entry res a b <> None -> entry (add_reverse res u v) a b <> None.
Proof.
  intros H. rewrite entry_add_reverse.
  destruct (String.eqb a v && String.eqb b u) eqn:E; [|assumption].
  apply andb_true_iff in E as [E1 E2].
  apply String.eqb_eq in E1, E2. subst.
  destruct (entry res v u); congruence.
Qed.

Lemma fold_add_reverse g u vs : forall res,
  residual_inv g res ->
  (forall v, In v vs -> entry res u v <> None) ->
  let res' := fold_left (fun acc v => add_reverse acc u v) vs res in
  residual_inv g res' /\
  (forall a b, entry res a b <> None -> entry res' a b <> None) /\
  (forall v, In v vs -> entry res' v u <> None).
Proof.
  induction vs as [|v vs IH]; intros res Hinv Hvs; simpl.
  - split; [assumption|]. split; [auto|intros ? []].
  - assert (Hv : entry res u v <> None) by (apply Hvs; now left).
    destruct (IH (add_reverse res u v)) as (H1 & H2 & H3).
    + now apply residual_inv_add_reverse.
    + intros w Hw. apply entry_add_reverse_mono. apply Hvs. now right.
    + split; [assumption|]. split.
      * intros a b Hab. now apply H2, entry_add_reverse_mono.
      * intros w [<-|Hw]; [|now apply H3].
        apply H2. rewrite entry_add_reverse, !String.eqb_refl. simpl.
        destruct (entry res v u); congruence.
Qed.

Lemma reverse_rows_spec g us : forall res,
  residual_inv g res ->
  (forall u, In u us -> In u (keys res)) ->
  exists res',
    reverse_rows us res = Ok res' /\
    residual_inv g res' /\
    (forall a b, entry res a b <> None -> entry res' a b <> None) /\
    (forall u v, In u us -> entry res u v <> None -> entry res' v u <> None).
Proof.
  induction us as [|u us IH]; intros res Hinv Hus; simpl.
  - exists res. split; [reflexivity|]. split; [assumption|].
    split; [auto|]. intros ? ? [].
  - unfold reverse_row, getitem.
    destruct (In_keys_get res u) as [r Er]; [apply Hus; now left|].
    rewrite Er. simpl.
    destruct (fold_add_reverse g u (keys r) res Hinv) as (H1 & H2 & H3).
    { intros v Hv. unfold entry. rewrite Er.
      destruct (In_keys_get r v Hv) as [x ->]. discriminate. }
    set (res1 := fold_left _ _ _) in *.
    destruct (IH res1 H1) as (res' & E & I1 & I2 & I3).
    { intros w Hw. destruct H1 as (_ & Hk1 & _).
      assert (Hin : In w (keys res)) by (apply Hus; now right).
      subst res1. clear - Hin. revert res Hin.
      induction (keys r) as [|v vs IHv]; intros res Hin; simpl.
      - assumption.
      - apply IHv. now apply keys_add_reverse. }
    exists res'. split; [assumption|]. split; [assumption|]. split.
    + intros a b Hab. now apply I2, H2.
    + intros a b [<-|Ha] Hab.
      * apply I2, H3. unfold entry in Hab. rewrite Er in Hab.
        destruct (get r b) eqn:Eb; [|congruence].
        eapply get_Some_key; eassumption.
      * apply (I3 a b Ha). now apply H2.
Qed.

Lemma residual_inv_init g : wf_graph g -> residual_inv g g.
Proof. intros H. split; [assumption|]. repeat split; auto. Qed.

Lemma build_residual_spec g :
  wf_graph g ->
  exists res,
    _build_residual g = Ok res /\
    wf_graph res /\
    (forall a, In a (keys res) <->
               In a (keys g) \/ exists b, entry g b a <> None) /\
    (forall u v, entry res u v = residual_entry g u v).
Proof.
  intros Hwf. unfold _build_residual. rewrite copy_graph_id.
  destruct (reverse_rows_spec g (keys g) g (residual_inv_init g Hwf))
    as (res & E & (Hw & Hk & He & Hkeys) & _ & Hrev); [auto|].
  exists res. split; [assumption|]. split; [assumption|].
  assert (Hent : forall u v, entry res u v = residual_entry g u v);
    [|split; [|exact Hent]].
  2:{ intros a. split; [apply Hkeys|]. intros [Ha|[b Hb]]; [now apply Hk|].
      apply (entry_key res a b). rewrite Hent. unfold residual_entry.
      destruct (entry g a b); [discriminate|].
      destruct (entry g b a); congruence. }
  intros u v. unfold residual_entry.
  destruct (entry g u v) as [c|] eqn:Euv.
  - destruct (He u v) as [E'|(E' & _)]; congruence.
  - destruct (entry g v u) as [c|] eqn:Evu.
    + assert (Hn : entry res u v <> None).
      { apply Hrev; [|congruence]. apply entry_key with (v := u). congruence. }
      destruct (He u v) as [E'|(_ & _ & E')]; congruence.
    + destruct (He u v) as [E'|(_ & E' & _)]; congruence.
Qed.

(** C7: on every graph [_build_residual] returns a residual graph in which
    every edge of the graph keeps its capacity (also when the reverse pair
    is an edge too), the reverse of an edge that has no reverse edge in the
    graph has capacity [0], and every entry has a reciprocal entry. *)
Theorem build_residual_invariants (g : graph) :
  wf_graph g ->
  exists res,
    _build_residual g = Ok res /\
    (forall u v c, In (u, v, c) (edges g) -> entry res u v = Some c) /\
    (forall u v c, In (u, v, c) (edges g) -> entry g v u = None ->
                   entry res v u = Some 0) /\
    (forall u v, entry res u v <> None -> entry res v u <> None).
Proof.
  intros Hwf.
  destruct (build_residual_spec g Hwf) as (res & E & _ & _ & He).
  exists res. split; [assumption|]. split; [|split].
  - intros u v c Hin. apply In_edges_entry in Hin; [|assumption].
    rewrite He. unfold residual_entry. now rewrite Hin.
  - intros u v c Hin Hrev. apply In_edges_entry in Hin; [|assumption].
    rewrite He. unfold residual_entry. now rewrite Hrev, Hin.
  - intros u v. rewrite !He. unfold residual_entry.
    destruct (entry g u v), (entry g v u); congruence.
Qed.

Lemma build_residual_invariants_witness :
  exists res,
    _build_residual (mf_graph antiparallel) = Ok res /\
    (forall u v c, In (u, v, c) (edges (mf_graph antiparallel)) ->
                   entry res u v = Some c) /\
    (forall u v c, In (u, v, c) (edges (mf_graph antiparallel)) ->
                   entry (mf_graph antiparallel) v u = None ->
                   entry res v u = Some 0) /\
    (forall u v, entry res u v <> None -> entry res v u <> None).
Proof.
  apply (build_residual_invariants (mf_graph antiparallel)).
  apply wf_graphb_true. reflexivity.
Defined.

(** ** Sums over lists *)

Section Sums.
Context {A : Type}.
Implicit Types (f g : A -> Z) (l : list A).


Lemma zsum_app f l1 l2 : zsum f (l1 ++ l2) = zsum f l1 + zsum f l2.
Proof.
  induction l1 as [|a l1 IH]; simpl; [reflexivity|].
  rewrite IH. lia.
Qed.

Lemma zsum_ext f g l :
  (forall a, In a l -> f a = g a) -> zsum f l = zsum g l.
Proof.
  induction l as [|a l IH]; simpl; intros H; [reflexivity|].
  rewrite IH by auto. now rewrite H by auto.
Qed.

Lemma zsum_zero l : zsum (fun _ => 0) l = 0.
Proof. induction l as [|a l IH]; simpl; [reflexivity|]. now rewrite IH. Qed.

Lemma zsum_plus f g l : zsum (fun a => f a + g a) l = zsum f l + zsum g l.
Proof.
  induction l as [|a l IH]; simpl; [reflexivity|]. rewrite IH. lia.
Qed.

Lemma zsum_minus f g l : zsum (fun a => f a - g a) l = zsum f l - zsum g l.
Proof.
  induction l as [|a l IH]; simpl; [reflexivity|]. rewrite IH. lia.
Qed.

Lemma zsum_scale c f l : zsum (fun a => c * f a) l = c * zsum f l.
Proof.
  induction l as [|a l IH]; simpl; [lia|]. rewrite IH. lia.
Qed.

Lemma zsum_le f g l :
  (forall a, In a l -> f a <= g a) -> zsum f l <= zsum g l.
Proof.
  induction l as [|a l IH]; simpl; intros H; [lia|].
  assert (f a <= g a) by auto. assert (zsum f l <= zsum g l) by auto. lia.
Qed.

Lemma zsum_nonneg f l : (forall a, In a l -> 0 <= f a) -> 0 <= zsum f l.
Proof.
  intros H. rewrite <- (zsum_zero l). now apply zsum_le.
Qed.

End Sums.

Lemma zsum_exchange {A B} (h : A -> B -> Z) (l : list A) (m : list B) :
  zsum (fun a => zsum (fun b => h a b) m) l =
  zsum (fun b => zsum (fun a => h a b) l) m.
Proof.
  induction l as [|a l IH]; simpl.
  - symmetry. exact (zsum_zero m).
  - rewrite IH, <- zsum_plus. reflexivity.
Qed.

Lemma zsum_map {A B} (h : B -> A) (f : A -> Z) (m : list B) :
  zsum f (map h m) = zsum (fun b => f (h b)) m.
Proof.
  induction m as [|b m IH]; simpl; [reflexivity|]. now rewrite IH.
Qed.


(** The sum of a function that vanishes away from one node. *)
Lemma zsum_single (N : list string) (k : string) (F : string -> Z) :
  NoDup N ->
  zsum (fun x => if String.eqb x k then F x else 0) N =
  if in_dec string_dec k N then F k else 0.
Proof.
  induction N as [|a N IH]; simpl; intros Hnd; [reflexivity|].
  inversion Hnd as [|? ? Hni Hnd']; subst. rewrite IH by assumption.
  destruct (String.eqb_spec a k) as [->|Hne].
  - destruct (string_dec k k); [|congruence].
    destruct (in_dec string_dec k N); [tauto|lia].
  - destruct (string_dec a k); [congruence|].
    destruct (in_dec string_dec k N); lia.
Qed.

Lemma zsum_single_in (N : list string) (k : string) (F : string -> Z) :
  NoDup N -> In k N ->
  zsum (fun x => if String.eqb x k then F x else 0) N = F k.
Proof.
  intros Hnd Hin. rewrite zsum_single by assumption.
  destruct (in_dec string_dec k N); tauto.
Qed.

(** A sum over the entries of a dictionary as a sum over a list of nodes
    that has all its keys. *)
Lemma zsum_dict {V} (d : dict V) (N : list string) (F : string -> V -> Z) :
  wf_dict d -> NoDup N -> incl (keys d) N ->
  zsum (fun kv => F (fst kv) (snd kv)) d =
  zsum (fun k => match get d k with Some x => F k x | None => 0 end) N.
Proof.
  unfold wf_dict. induction d as [|[k x] d IH]; simpl; intros Hd HN Hincl.
  - now rewrite zsum_zero.
  - inversion Hd as [|? ? Hni Hd']; subst.
    rewrite IH; [|assumption|assumption|intros a Ha; apply Hincl; now right].
    rewrite <- (zsum_single_in N k (fun _ => F k x) HN) by (apply Hincl; now left).
    rewrite <- zsum_plus. apply zsum_ext. intros a Ha.
    destruct (String.eqb_spec a k) as [->|Hne]; [|lia].
    apply get_None in Hni. rewrite Hni. lia.
Qed.

(** ** The shape of a graph *)

Lemma shape_keys (R R' : graph) : shape R = shape R' -> keys R = keys R'.
Proof.
  intros H. apply (f_equal (map fst)) in H. unfold shape in H.
  rewrite !map_map in H. exact H.
Qed.

Lemma shape_get (R R' : graph) u :
  shape R = shape R' ->
  match get R u, get R' u with
  | Some r, Some r' => keys r = keys r'
  | None, None => True
  | _, _ => False
  end.
Proof.
  revert R'. induction R as [|[k r] R IH]; intros [|[k' r'] R'] H;
    simpl in *; try discriminate; [exact I|].
  injection H as -> Hr Hs.
  destruct (String.eqb u k'); [assumption|]. now apply IH.
Qed.

Lemma shape_entry (R R' : graph) u v :
  shape R = shape R' -> entry R u v <> None -> entry R' u v <> None.
Proof.
  intros H. unfold entry. pose proof (shape_get R R' u H) as Hg.
  destruct (get R u) as [r|], (get R' u) as [r'|]; try tauto.
  intros Hv E. apply Hv. apply get_None. rewrite Hg. now apply get_None.
Qed.

Lemma shape_wf (R R' : graph) : shape R = shape R' -> wf_graph R -> wf_graph R'.
Proof.
  intros H [Hk Hr]. split.
  - unfold wf_dict. now rewrite <- (shape_keys _ _ H).
  - intros u r' Hin.
    assert (E : get R' u = Some r').
    { apply In_get; [|assumption].
      unfold wf_dict. now rewrite <- (shape_keys _ _ H). }
    pose proof (shape_get R R' u H) as Hg. rewrite E in Hg.
    destruct (get R u) as [r|] eqn:Eu; [|tauto].
    unfold wf_dict. rewrite <- Hg. eapply Hr, get_In, Eu.
Qed.

Lemma shape_reciprocal (R R' : graph) :
  shape R = shape R' -> reciprocal R -> reciprocal R'.
Proof.
  intros H Hrec u v Huv. apply (shape_entry R R' v u H). apply Hrec.
  now apply (shape_entry R' R u v (eq_sym H)).
Qed.

Lemma shape_setitem (R : graph) u r r' :
  get R u = Some r -> keys r' = keys r -> shape (setitem R u r') = shape R.
Proof.
  induction R as [|[k x] R IH]; simpl; [discriminate|].
  destruct (String.eqb_spec u k) as [->|Hne]; simpl.
  - intros [= ->] E. now rewrite E.
  - intros E1 E2. now rewrite IH.
Qed.

Lemma capacity_update (R : graph) u v x a b :
  capacity (setitem R u (setitem (get_default R u []) v x)) a b =
  if String.eqb a u && String.eqb b v then x else capacity R a b.
Proof.
  rewrite capacity_setitem.
  destruct (String.eqb_spec a u) as [->|Hne]; simpl; [|reflexivity].
  unfold get_default at 1. rewrite get_setitem.
  destruct (String.eqb_spec b v) as [->|Hne]; [reflexivity|].
  unfold capacity, entry, get_default. now destruct (get R u).
Qed.

Lemma shape_update (R : graph) u v x :
  entry R u v <> None ->
  shape (setitem R u (setitem (get_default R u []) v x)) = shape R.
Proof.
  unfold entry, get_default. destruct (get R u) as [r|] eqn:E; [|congruence].
  intros Hv. eapply shape_setitem; [eassumption|].
  apply keys_setitem_present. destruct (get r v) eqn:Ev; [|congruence].
  eapply get_Some_key; eassumption.
Qed.

Lemma capacity_push_edge (R : graph) u v aug a b :
  u <> v ->
  capacity (push_edge R u v aug) a b =
  capacity R a b
    - (if String.eqb a u && String.eqb b v then aug else 0)
    + (if String.eqb a v && String.eqb b u then aug else 0).
Proof.
  intros Hne. unfold push_edge. rewrite !capacity_update.
  destruct (String.eqb_spec a v) as [->|Hav]; simpl.
  - destruct (String.eqb_spec v u); [congruence|]. simpl.
    destruct (String.eqb_spec b u) as [->|]; lia.
  - destruct (String.eqb_spec a u) as [->|]; simpl; [|lia].
    destruct (String.eqb_spec b v) as [->|]; lia.
Qed.

Lemma shape_push_edge (R : graph) u v aug :
  entry R u v <> None -> entry R v u <> None ->
  shape (push_edge R u v aug) = shape R.
Proof.
  intros Huv Hvu. unfold push_edge.
  rewrite shape_update; [now apply shape_update|].
  apply (shape_entry R); [|assumption].
  symmetry. now apply shape_update.
Qed.

Lemma capacity_none (R : graph) u v : entry R u v = None -> capacity R u v = 0.
Proof. unfold capacity. now intros ->. Qed.

Lemma entry_capacity (R : graph) u v c :
  entry R u v = Some c -> capacity R u v = c.
Proof. unfold capacity. now intros ->. Qed.

(** One round of the [push] loop is [push_edge]. *)
Lemma push_step fuel R par v u aug :
  get par v = Some (Some u) ->
  entry R u v <> None -> entry R v u <> None ->
  push (S fuel) R par v aug = push fuel (push_edge R u v aug) par u aug.
Proof.
  intros Hp Huv Hvu. simpl. unfold getitem at 1. rewrite Hp. simpl.
  unfold push_edge.
  assert (Hru : exists ru c, get R u = Some ru /\ get ru v = Some c).
  { unfold entry in Huv. destruct (get R u) as [ru|]; [|congruence].
    destruct (get ru v) as [c|] eqn:E; [|congruence]. eauto. }
  destruct Hru as (ru & c & Eu & Ec).
  unfold getitem at 1. rewrite Eu. simpl.
  unfold getitem at 1. rewrite Ec. simpl.
  assert (E1 : get_default R u [] = ru) by (unfold get_default; now rewrite Eu).
  assert (E2 : capacity R u v = c).
  { apply entry_capacity. unfold entry. now rewrite Eu. }
  rewrite E1, E2.
  set (R1 := setitem R u (setitem ru v (c - aug))).
  assert (Hvu1 : entry R1 v u <> None).
  { apply (shape_entry R); [|assumption]. symmetry.
    unfold R1. rewrite <- E1. now apply shape_update. }
  unfold entry in Hvu1. destruct (get R1 v) as [rv|] eqn:Ev; [|congruence].
  destruct (get rv u) as [c'|] eqn:Ec'; [|congruence].
  unfold getitem at 1. rewrite Ev. simpl.
  unfold getitem at 1. rewrite Ec'. simpl.
  assert (E3 : get_default R1 v [] = rv) by (unfold get_default; now rewrite Ev).
  assert (E4 : capacity R1 v u = c').
  { apply entry_capacity. unfold entry. now rewrite Ev. }
  now rewrite E3, E4.
Qed.

(** ** Pushing flow along a path *)

Lemma push_run par aug x l :
  path_to par x l ->
  forall fuel R,
    (List.length l < fuel)%nat ->
    (forall p y, In (p, y) l -> entry R p y <> None /\ entry R y p <> None) ->
    push fuel R par x aug = Ok (push_path R l aug).
Proof.
  induction 1 as [x Hx|x p l Hx Hp IH]; intros fuel R Hf He.
  - destruct fuel as [|fuel]; [simpl in Hf; lia|].
    simpl. unfold getitem. now rewrite Hx.
  - destruct fuel as [|fuel]; [simpl in Hf; lia|].
    destruct (He p x) as [Hpx Hxp]; [now left|].
    rewrite (push_step fuel R par x p aug Hx Hpx Hxp).
    rewrite IH; [reflexivity|simpl in Hf; lia|].
    intros a b Hin. destruct (He a b) as [Hab Hba]; [now right|].
    assert (Hs : shape R = shape (push_edge R p x aug))
      by (symmetry; now apply shape_push_edge).
    split; eapply shape_entry; eassumption.
Qed.

Lemma push_path_cons R p y l aug :
  push_path R ((p, y) :: l) aug = push_path (push_edge R p y aug) l aug.
Proof. reflexivity. Qed.

Lemma shape_push_path l aug : forall R,
  (forall p y, In (p, y) l -> entry R p y <> None /\ entry R y p <> None) ->
  shape (push_path R l aug) = shape R.
Proof.
  induction l as [|[p y] l IH]; intros R He; [reflexivity|].
  rewrite push_path_cons.
  destruct (He p y) as [Hpy Hyp]; [now left|].
  assert (Hs : shape (push_edge R p y aug) = shape R)
    by now apply shape_push_edge.
  rewrite IH; [assumption|].
  intros a b Hin. destruct (He a b) as [Hab Hba]; [now right|].
  split; eapply shape_entry; try eassumption; now symmetry.
Qed.

Lemma skew_push_path l aug : forall R a b,
  (forall p y, In (p, y) l -> p <> y) ->
  capacity (push_path R l aug) a b + capacity (push_path R l aug) b a =
  capacity R a b + capacity R b a.
Proof.
  induction l as [|[p y] l IH]; intros R a b Hne; [reflexivity|].
  rewrite push_path_cons, IH by (intros; apply Hne; now right).
  assert (Hpy : p <> y) by (apply Hne; now left).
  rewrite !capacity_push_edge by assumption.
  destruct (String.eqb a p), (String.eqb b y), (String.eqb a y),
    (String.eqb b p); simpl; lia.
Qed.

Lemma nonneg_push_path l aug : forall R,
  0 <= aug ->
  NoDup (map snd l) ->
  (forall p y, In (p, y) l -> p <> y /\ aug <= capacity R p y) ->
  (forall a b, 0 <= capacity R a b) ->
  forall a b, 0 <= capacity (push_path R l aug) a b.
Proof.
  induction l as [|[p y] l IH]; intros R Haug Hnd He Hpos; [assumption|].
  rewrite push_path_cons.
  simpl in Hnd. inversion Hnd as [|? ? Hni Hnd']; subst.
  destruct (He p y) as [Hpy Hcap]; [now left|].
  apply IH; try assumption.
  - intros a b Hin. destruct (He a b) as [Hab Hc]; [now right|].
    split; [assumption|]. rewrite capacity_push_edge by assumption.
    destruct (String.eqb_spec b y) as [->|Hby].
    + exfalso. apply Hni. change y with (snd (a, y)). now apply in_map.
    + rewrite andb_false_r.
      destruct (String.eqb a y && String.eqb b p); lia.
  - intros a b. rewrite capacity_push_edge by assumption.
    specialize (Hpos a b).
    destruct (String.eqb_spec a p) as [->|]; simpl.
    + destruct (String.eqb_spec b y) as [->|]; simpl;
        destruct (String.eqb p y && _); lia.
    + destruct (String.eqb a y && String.eqb b p); lia.
Qed.

Lemma rowsum_push_edge N R u v aug n :
  NoDup N -> In u N -> In v N -> u <> v ->
  rowsum N (push_edge R u v aug) n =
  rowsum N R n - aug * b2z (String.eqb n u) + aug * b2z (String.eqb n v).
Proof.
  intros HN Hu Hv Hne. unfold rowsum.
  rewrite (zsum_ext _ (fun b =>
    (capacity R n b - (if String.eqb b v then aug * b2z (String.eqb n u) else 0))
    + (if String.eqb b u then aug * b2z (String.eqb n v) else 0))).
  - rewrite zsum_plus, zsum_minus.
    rewrite (zsum_single_in N v (fun _ => aug * b2z (String.eqb n u))) by assumption.
    rewrite (zsum_single_in N u (fun _ => aug * b2z (String.eqb n v))) by assumption.
    reflexivity.
  - intros b _. rewrite capacity_push_edge by assumption.
    unfold b2z.
    destruct (String.eqb n u), (String.eqb b v), (String.eqb n v),
      (String.eqb b u); simpl; lia.
Qed.

Lemma rowsum_push_path N s aug x l :
  chain s x l ->
  forall R,
    NoDup N ->
    (forall p y, In (p, y) l -> In p N /\ In y N /\ p <> y) ->
    forall n,
      rowsum N (push_path R l aug) n =
      rowsum N R n + aug * (b2z (String.eqb n x) - b2z (String.eqb n s)).
Proof.
  induction 1 as [|p x l Hc IH]; intros R HN He n.
  - unfold push_path. simpl. lia.
  - destruct (He p x) as (Hp & Hx & Hne); [now left|].
    rewrite push_path_cons, IH; [|assumption|intros; apply He; now right].
    rewrite rowsum_push_edge by assumption. lia.
Qed.

(** ** The predecessor tree of the search *)

Lemma get_app_Some {V} (d d' : dict V) k x :
  get d k = Some x -> get (d ++ d') k = Some x.
Proof.
  induction d as [|[k' y] d IH]; simpl; [discriminate|].
  destruct (String.eqb k k'); [trivial|exact IH].
Qed.

Lemma get_app_None {V} (d d' : dict V) k :
  get d k = None -> get (d ++ d') k = get d' k.
Proof.
  induction d as [|[k' y] d IH]; simpl; [reflexivity|].
  destruct (String.eqb k k'); [discriminate|exact IH].
Qed.

Lemma keys_app {V} (d d' : dict V) : keys (d ++ d') = keys d ++ keys d'.
Proof. unfold keys. apply map_app. Qed.

Lemma ptree_source R s par : ptree R s par -> get par s = Some None.
Proof.
  induction 1 as [|par u v c Hp IH Hu Hv He Hc]; simpl.
  - now rewrite String.eqb_refl.
  - now apply get_app_Some.
Qed.

Lemma ptree_root_unique R s par x :
  ptree R s par -> get par x = Some None -> x = s.
Proof.
  induction 1 as [|par u v c Hp IH Hu Hv He Hc]; simpl.
  - destruct (String.eqb_spec x s); [trivial|discriminate].
  - intros Hx. destruct (get par x) as [o|] eqn:E.
    + rewrite (get_app_Some _ _ _ _ E) in Hx. apply IH. congruence.
    + rewrite (get_app_None _ _ _ E) in Hx. simpl in Hx.
      destruct (String.eqb x v); discriminate.
Qed.

Lemma ptree_wf R s par : ptree R s par -> wf_dict par.
Proof.
  unfold wf_dict.
  induction 1 as [|par u v c Hp IH Hu Hv He Hc]; simpl.
  - repeat constructor. simpl. tauto.
  - rewrite keys_app. apply NoDup_app; [assumption|repeat constructor; simpl; tauto|].
    intros a Ha [<-|[]]. tauto.
Qed.

Lemma entry_target_key R u v :
  reciprocal R -> entry R u v <> None -> In v (keys R).
Proof. intros Hrec H. eapply entry_key, Hrec, H. Qed.

Lemma ptree_keys R s par :
  reciprocal R -> In s (keys R) -> ptree R s par -> incl (keys par) (keys R).
Proof.
  intros Hrec Hs. induction 1 as [|par u v c Hp IH Hu Hv He Hc].
  - intros a [<-|[]]. assumption.
  - rewrite keys_app. intros a Ha. apply in_app_iff in Ha as [Ha|[<-|[]]].
    + now apply IH.
    + simpl. apply (entry_target_key R u); [assumption|congruence].
Qed.

Lemma ptree_length R s par :
  wf_graph R -> reciprocal R -> In s (keys R) -> ptree R s par ->
  (List.length par <= List.length (keys R))%nat.
Proof.
  intros Hwf Hrec Hs Hp.
  replace (List.length par) with (List.length (keys par))
    by (unfold keys; apply length_map).
  apply NoDup_incl_length.
  - eapply ptree_wf; eassumption.
  - eapply ptree_keys; eassumption.
Qed.

Lemma path_to_app par e x l : path_to par x l -> path_to (par ++ e) x l.
Proof.
  induction 1 as [x Hx|x p l Hx Hp IH].
  - apply path_root. now apply get_app_Some.
  - apply path_step; [now apply get_app_Some|assumption].
Qed.

Lemma ptree_path R s par :
  ptree R s par ->
  forall x, In x (keys par) ->
  exists l,
    path_to par x l /\ chain s x l /\
    (List.length l < List.length par)%nat /\
    NoDup (map snd l) /\ incl (map snd l) (keys par) /\
    (forall p y, In (p, y) l ->
       exists c, entry R p y = Some c /\ 0 < c /\ p <> y).
Proof.
  induction 1 as [|par u v c Hp IH Hu Hv He Hc]; intros x Hx.
  - destruct Hx as [<-|[]]. exists []. split.
    { apply path_root. simpl. now rewrite String.eqb_refl. }
    split; [constructor|]. split; [simpl; lia|]. split; [constructor|].
    split; [intros ? []|intros ? ? []].
  - rewrite keys_app in Hx. apply in_app_iff in Hx as [Hx|[<-|[]]].
    + destruct (IH x Hx) as (l & H1 & H2 & H3 & H4 & H5 & H6).
      exists l. split; [now apply path_to_app|]. split; [assumption|].
      split; [rewrite length_app; simpl; lia|]. split; [assumption|].
      split; [|assumption].
      intros a Ha. rewrite keys_app. apply in_app_iff. left. now apply H5.
    + destruct (IH u Hu) as (l & H1 & H2 & H3 & H4 & H5 & H6).
      exists ((u, v) :: l). split.
      { apply path_step; [|now apply path_to_app].
        rewrite get_app_None by (now apply get_None). simpl.
        now rewrite String.eqb_refl. }
      split; [now constructor|]. split; [rewrite length_app; simpl; lia|].
      split.
      { simpl. constructor; [|assumption]. intros Hin. apply Hv. now apply H5. }
      split.
      { intros a [<-|Ha]; rewrite keys_app; apply in_app_iff;
          [right; now left|left; now apply H5]. }
      intros p y [[= <- <-]|Hin]; [|now apply H6].
      exists c. split; [assumption|]. split; [assumption|]. congruence.
Qed.

(** ** The bottleneck of a path *)

Lemma walk_run R par x l :
  path_to par x l ->
  forall fuel b,
    (List.length l < fuel)%nat ->
    (forall p y, In (p, y) l -> entry R p y <> None) ->
    walk_bottleneck fuel R par x b = Ok (path_min R l b).
Proof.
  induction 1 as [x Hx|x p l Hx Hp IH]; intros fuel b Hf He.
  - destruct fuel as [|fuel]; [simpl in Hf; lia|].
    simpl. unfold getitem. now rewrite Hx.
  - destruct fuel as [|fuel]; [simpl in Hf; lia|].
    simpl. unfold getitem at 1. rewrite Hx. simpl.
    assert (Hpx : entry R p x <> None) by (apply He; now left).
    unfold entry in Hpx. destruct (get R p) as [rp|] eqn:Ep; [|congruence].
    destruct (get rp x) as [c|] eqn:Ec; [|congruence].
    unfold getitem at 1. rewrite Ep. simpl.
    unfold getitem at 1. rewrite Ec. simpl.
    rewrite IH; [|simpl in Hf; lia|intros; apply He; now right].
    unfold path_min. simpl. do 3 f_equal.
    symmetry. apply entry_capacity. unfold entry. now rewrite Ep.
Qed.

Lemma path_min_int R l : forall z,
  exists m,
    path_min R l (Int z) = Int m /\ m <= z /\
    (forall p y, In (p, y) l -> m <= capacity R p y) /\
    (0 < z -> (forall p y, In (p, y) l -> 0 < capacity R p y) -> 0 < m).
Proof.
  induction l as [|[p y] l IH]; intros z.
  - exists z. split; [reflexivity|]. split; [lia|]. split; [intros ? ? []|auto].
  - destruct (IH (Z.min z (capacity R p y))) as (m & E & Hle & Hall & Hpos).
    exists m. split; [exact E|]. split; [lia|]. split.
    + intros a b [[= <- <-]|Hin]; [lia|now apply Hall].
    + intros Hz Hc. apply Hpos.
      * assert (0 < capacity R p y) by (apply Hc; now left). lia.
      * intros; apply Hc; now right.
Qed.

Lemma path_min_inf R l :
  l <> [] ->
  exists m,
    path_min R l Inf = Int m /\
    (forall p y, In (p, y) l -> m <= capacity R p y) /\
    ((forall p y, In (p, y) l -> 0 < capacity R p y) -> 0 < m).
Proof.
  destruct l as [|[p y] l]; [congruence|]. intros _.
  destruct (path_min_int R l (capacity R p y)) as (m & E & Hle & Hall & Hpos).
  exists m. split; [exact E|]. split.
  - intros a b [[= <- <-]|Hin]; [lia|now apply Hall].
  - intros Hc. apply Hpos; [apply Hc; now left|intros; apply Hc; now right].
Qed.

(** ** The search *)

Section Search.
Variables (R : graph) (s t : string) (fuel0 : nat).
Hypothesis Hwf : wf_graph R.
Hypothesis Hrec : reciprocal R.
Hypothesis Hs : In s (keys R).
Hypothesis Hfuel : (List.length (keys R) <= fuel0)%nat.

Lemma sink_reached par u c :
  ptree R s par -> In u (keys par) -> ~ In t (keys par) ->
  entry R u t = Some c -> 0 < c ->
  exists m,
    walk_bottleneck fuel0 R (setitem par t (Some u)) t Inf = Ok (Int m) /\
    augmenting R s t (mkPathResult m (setitem par t (Some u))).
Proof.
  intros Hp Hu Ht He Hc.
  rewrite setitem_absent by assumption.
  assert (Hp' : ptree R s (par ++ [(t, Some u)]))
    by (eapply ptree_snoc; eassumption).
  destruct (ptree_path R s _ Hp' t) as (l & H1 & H2 & H3 & H4 & H5 & H6).
  { rewrite keys_app. apply in_app_iff. right. now left. }
  assert (Hlen : (List.length (par ++ [(t, Some u)]) <= List.length (keys R))%nat)
    by (apply (ptree_length R s); assumption).
  assert (Hl : l <> []).
  { intros ->. inversion H1 as [x Hx|]; subst.
    apply (ptree_root_unique R s _ t Hp') in Hx. subst t.
    apply Ht. eapply get_Some_key, ptree_source, Hp. }
  destruct (path_min_inf R l Hl) as (m & Em & Hle & Hpos).
  exists m. split.
  - rewrite (walk_run R _ t l H1); [now rewrite Em|lia|].
    intros p y Hin. destruct (H6 p y Hin) as (c' & -> & _). discriminate.
  - split.
    { intros ->. apply Ht. eapply get_Some_key, ptree_source, Hp. }
    exists l. simpl. split; [assumption|]. split; [assumption|].
    split; [assumption|]. split; [lia|]. split; [assumption|]. split.
    + apply Hpos. intros p y Hin.
      destruct (H6 p y Hin) as (c' & E & Hc' & _).
      now rewrite (entry_capacity _ _ _ _ E).
    + intros p y Hin. destruct (H6 p y Hin) as (c' & E & Hc' & Hne).
      exists c'. split; [assumption|]. split; [|assumption].
      rewrite <- (entry_capacity _ _ _ _ E). now apply Hle.
Qed.

Lemma scan_row_spec u items : forall par q,
  ptree R s par -> In u (keys par) ->
  (forall v c, In (v, c) items -> entry R u v = Some c) ->
  (t = s \/ ~ In t (keys par)) ->
  match scan_row fuel0 R t u items par q with
  | Ok (Found pr) => augmenting R s t pr
  | Ok (Next par' q') =>
      ptree R s par' /\ (t = s \/ ~ In t (keys par')) /\
      (exists new, q' = q ++ new /\ keys par' = keys par ++ new) /\
      (forall v c, In (v, c) items -> 0 < c -> In v (keys par'))
  | _ => False
  end.
Proof.
  induction items as [|[v cap] items IH]; intros par q Hp Hu He Ht; simpl.
  - split; [assumption|]. split; [assumption|]. split.
    + exists []. now rewrite !app_nil_r.
    + intros ? ? [].
  - assert (Hev : entry R u v = Some cap) by (apply He; now left).
    assert (He' : forall w c, In (w, c) items -> entry R u w = Some c)
      by (intros; apply He; now right).
    destruct (contains par v) eqn:Ec; simpl.
    + (* [v] has a predecessor already *)
      apply contains_true in Ec.
      specialize (IH par q Hp Hu He' Ht).
      destruct (scan_row fuel0 R t u items par q) as [[pr|par' q']| |];
        try assumption.
      destruct IH as (I1 & I2 & (new & I3 & I4) & I5).
      split; [assumption|]. split; [assumption|]. split; [eauto|].
      intros w c [[= <- <-]|Hin] Hc; [|now apply (I5 w c)].
      rewrite I4. apply in_app_iff. now left.
    + apply contains_false in Ec.
      destruct (Z.ltb_spec 0 cap) as [Hcap|Hcap].
      * destruct (String.eqb_spec v t) as [->|Hvt].
        -- destruct (sink_reached par u cap Hp Hu Ec Hev Hcap) as (m & E & Ha).
           rewrite E. simpl. exact Ha.
        -- assert (Hp' : ptree R s (setitem par v (Some u))).
           { rewrite setitem_absent by assumption.
             eapply ptree_snoc; eassumption. }
           assert (Hk : keys (setitem par v (Some u)) = keys par ++ [v])
             by now apply keys_setitem_absent.
           assert (Hu' : In u (keys (setitem par v (Some u))))
             by (rewrite Hk; apply in_app_iff; now left).
           assert (Ht' : t = s \/ ~ In t (keys (setitem par v (Some u)))).
           { destruct Ht as [Ht|Ht]; [now left|right].
             rewrite Hk. intros Hin. apply in_app_iff in Hin.
             destruct Hin as [Hin|[Hin|[]]]; [tauto|congruence]. }
           specialize (IH (setitem par v (Some u)) (q ++ [v]) Hp' Hu' He' Ht').
           destruct (scan_row fuel0 R t u items _ (q ++ [v]))
             as [[pr|par' q']| |]; try assumption.
           destruct IH as (I1 & I2 & (new & I3 & I4) & I5).
           split; [assumption|]. split; [assumption|]. split.
           { exists (v :: new). rewrite I3, I4, Hk, <- !app_assoc.
             now split. }
           intros w c [[= <- <-]|Hin] Hc; [|now apply (I5 w c)].
           rewrite I4, Hk. apply in_app_iff. left.
           apply in_app_iff. right. now left.
      * specialize (IH par q Hp Hu He' Ht).
        destruct (scan_row fuel0 R t u items par q) as [[pr|par' q']| |];
          try assumption.
        destruct IH as (I1 & I2 & (new & I3 & I4) & I5).
        split; [assumption|]. split; [assumption|]. split; [eauto|].
        intros w c [[= <- <-]|Hin] Hc; [lia|now apply (I5 w c)].
Qed.

End Search.

Section SearchLoop.
Variables (R : graph) (s t : string) (fuel0 : nat).
Hypothesis Hwf : wf_graph R.
Hypothesis Hrec : reciprocal R.
Hypothesis Hs : In s (keys R).
Hypothesis Hfuel : (List.length (keys R) <= fuel0)%nat.

Lemma search_done par :
  ptree R s par -> (t = s \/ ~ In t (keys par)) ->
  (forall u, In u (keys par) ->
     forall v c, entry R u v = Some c -> 0 < c -> In v (keys par)) ->
  closed_set R s t (keys par).
Proof.
  intros Hp Ht Hc. split; [|split].
  - eapply get_Some_key, ptree_source, Hp.
  - intros Hne. destruct Ht; [congruence|assumption].
  - intros u v c Hu. now apply Hc.
Qed.

Lemma bfs_loop_spec : forall fuel par q,
  ptree R s par -> (t = s \/ ~ In t (keys par)) ->
  incl q (keys par) ->
  (forall u, In u (keys par) ->
     In u q \/
     forall v c, entry R u v = Some c -> 0 < c -> In v (keys par)) ->
  (List.length (keys R) + List.length q <= fuel + List.length par)%nat ->
  match bfs_loop fuel0 fuel R t par q with
  | Ok (Some pr) => augmenting R s t pr
  | Ok None => exists S, closed_set R s t S
  | _ => False
  end.
Proof.
  assert (Hdone : forall fuel par,
    ptree R s par -> (t = s \/ ~ In t (keys par)) ->
    (forall u, In u (keys par) ->
       In u [] \/
       forall v c, entry R u v = Some c -> 0 < c -> In v (keys par)) ->
    match bfs_loop fuel0 fuel R t par [] with
    | Ok (Some pr) => augmenting R s t pr
    | Ok None => exists S, closed_set R s t S
    | _ => False
    end).
  { intros fuel par Hp Ht Hc. destruct fuel; simpl;
      exists (keys par); apply search_done; try assumption;
      intros u Hu; destruct (Hc u Hu) as [[]|H]; exact H. }
  induction fuel as [|fuel IH]; intros par q Hp Ht Hq Hc Hm;
    destruct q as [|u q']; try (now apply Hdone).
  - pose proof (ptree_length R s par Hwf Hrec Hs Hp). simpl in Hm. lia.
  - simpl.
    assert (Hu : In u (keys par)) by (apply Hq; now left).
    assert (HuR : In u (keys R)) by (eapply ptree_keys; eassumption).
    destruct (In_keys_get R u HuR) as [r Er].
    unfold getitem. rewrite Er. simpl.
    assert (Hr : forall v c, In (v, c) r -> entry R u v = Some c).
    { intros v c Hin. unfold entry. rewrite Er. apply In_get; [|assumption].
      eapply wf_graph_row; eassumption. }
    pose proof (scan_row_spec R s t fuel0 Hwf Hrec Hs Hfuel u r par q'
                  Hp Hu Hr Ht) as Hscan.
    destruct (scan_row fuel0 R t u r par q') as [[pr|par' q'']| |];
      try assumption.
    destruct Hscan as (I1 & I2 & (new & I3 & I4) & I5).
    apply IH; try assumption.
    + rewrite I3, I4. intros a Ha. apply in_app_iff in Ha. apply in_app_iff.
      destruct Ha as [Ha|Ha]; [left; apply Hq; now right|now right].
    + intros a Ha. rewrite I4 in Ha. apply in_app_iff in Ha.
      destruct Ha as [Ha|Ha].
      * destruct (Hc a Ha) as [[<-|Hin]|Hsc].
        -- right. intros v c Hv Hpos. apply (I5 v c); [|assumption].
           unfold entry in Hv. rewrite Er in Hv. now apply get_In.
        -- left. rewrite I3. apply in_app_iff. now left.
        -- right. intros v c Hv Hpos. rewrite I4. apply in_app_iff. left.
           now apply (Hsc v c).
      * left. rewrite I3. apply in_app_iff. now right.
    + assert (El : List.length par' = (List.length par + List.length new)%nat).
      { rewrite <- (length_map fst par'). fold (keys par'). rewrite I4.
        rewrite length_app. unfold keys. now rewrite length_map. }
      rewrite I3, El, length_app. simpl in Hm. lia.
Qed.

Lemma bfs_augment_spec :
  match _bfs_augment fuel0 R s t with
  | Ok (Some pr) => augmenting R s t pr
  | Ok None => exists S, closed_set R s t S
  | _ => False
  end.
Proof.
  unfold _bfs_augment. apply bfs_loop_spec.
  - constructor.
  - destruct (string_dec t s) as [->|Hne]; [now left|right].
    simpl. intros [E|[]]. congruence.
  - intros a Ha. exact Ha.
  - intros u Hu. left. exact Hu.
  - simpl. lia.
Qed.

End SearchLoop.

Lemma bfs_augment_absent fuel R s t :
  ~ In s (keys R) -> _bfs_augment (S fuel) R s t = Raise KeyError.
Proof.
  intros Hs. unfold _bfs_augment. simpl. unfold getitem.
  apply get_None in Hs. now rewrite Hs.
Qed.

(** ** One iteration of the augmenting loop *)

Lemma augment_step R0 R s t total pr fuel :
  wf_graph R0 -> reciprocal R0 ->
  flow_inv R0 R s t total -> augmenting R s t pr ->
  (List.length (keys R0) <= fuel)%nat ->
  exists R',
    push fuel R (parent pr) t (bottleneck pr) = Ok R' /\
    flow_inv R0 R' s t (total + bottleneck pr).
Proof.
  intros Hwf Hrec (Hsh & Hpos & Hskew & Hrow)
    (Hts & l & H1 & H2 & H3 & H4 & H5 & H6 & H7) Hf.
  set (aug := bottleneck pr) in *.
  assert (HrecR : reciprocal R)
    by (eapply shape_reciprocal; [symmetry|]; eassumption).
  assert (Hk : keys R = keys R0) by now apply shape_keys.
  assert (He : forall p y, In (p, y) l ->
            entry R p y <> None /\ entry R y p <> None).
  { intros p y Hin. destruct (H7 p y Hin) as (c & E & _).
    assert (entry R p y <> None) by congruence. split; [assumption|].
    now apply HrecR. }
  exists (push_path R l aug). split.
  - apply push_run; [assumption|rewrite Hk in H4; lia|assumption].
  - split; [|split; [|split]].
    + rewrite shape_push_path; assumption.
    + apply nonneg_push_path; try assumption; [lia|].
      intros p y Hin. destruct (H7 p y Hin) as (c & E & Hc & Hne).
      split; [assumption|]. now rewrite (entry_capacity _ _ _ _ E).
    + intros u v. rewrite skew_push_path; [apply Hskew|].
      intros p y Hin. now destruct (H7 p y Hin) as (c & _ & _ & Hne).
    + intros n. rewrite (rowsum_push_path (keys R0) s aug t l H2).
      * rewrite Hrow. ring.
      * apply Hwf.
      * intros p y Hin. destruct (He p y Hin) as [Hpy Hyp].
        destruct (H7 p y Hin) as (c & _ & _ & Hne).
        rewrite <- Hk. split; [eapply entry_key; eassumption|].
        split; [eapply entry_key; eassumption|assumption].
Qed.

(** ** The augmenting loop *)

Lemma rowsum_nonneg N R n :
  (forall u v, 0 <= capacity R u v) -> 0 <= rowsum N R n.
Proof. intros H. apply zsum_nonneg. intros v _. apply H. Qed.

Lemma flow_inv_source R0 R s t total :
  t <> s -> flow_inv R0 R s t total ->
  rowsum (keys R0) R s = rowsum (keys R0) R0 s - total.
Proof.
  intros Hts (_ & _ & _ & Hrow). rewrite Hrow, String.eqb_refl.
  destruct (String.eqb_spec s t); [congruence|]. simpl. lia.
Qed.

Lemma ek_loop_spec R0 s t fuel0 :
  wf_graph R0 -> reciprocal R0 -> In s (keys R0) ->
  (List.length (keys R0) <= fuel0)%nat ->
  forall fuel R total,
    flow_inv R0 R s t total ->
    (Z.to_nat (rowsum (keys R0) R s) < fuel)%nat ->
    exists total' R',
      ek_loop fuel0 fuel R s t total = Ok (total', R') /\
      flow_inv R0 R' s t total' /\ total <= total' /\
      exists S, closed_set R' s t S.
Proof.
  intros Hwf Hrec Hs Hf0.
  induction fuel as [|fuel IH]; intros R total Hinv Hm; [lia|].
  simpl.
  assert (Hsh : shape R0 = shape R) by (symmetry; apply Hinv).
  assert (Hk : keys R0 = keys R) by now apply shape_keys.
  pose proof (bfs_augment_spec R s t fuel0) as Hbfs.
  destruct (_bfs_augment fuel0 R s t) as [[pr|]| |].
  - assert (Haug : augmenting R s t pr).
    { apply Hbfs; try (rewrite <- Hk; assumption).
      - eapply shape_wf; eassumption.
      - eapply shape_reciprocal; eassumption. }
    destruct (augment_step R0 R s t total pr fuel0 Hwf Hrec Hinv Haug Hf0)
      as (R' & Epush & Hinv').
    simpl. rewrite Epush. simpl.
    assert (Hts : t <> s) by apply Haug.
    assert (Hb : 0 < bottleneck pr) by (destruct Haug as (_ & l & H); apply H).
    destruct (IH R' (total + bottleneck pr) Hinv') as (total' & R'' & E & I1 & I2 & I3).
    + rewrite (flow_inv_source R0 R' s t _ Hts Hinv').
      rewrite (flow_inv_source R0 R s t _ Hts Hinv) in Hm.
      pose proof (rowsum_nonneg (keys R0) R' s (proj1 (proj2 Hinv'))) as Hge.
      rewrite (flow_inv_source R0 R' s t _ Hts Hinv') in Hge. lia.
    + exists total', R''. split; [assumption|]. split; [assumption|].
      split; [lia|assumption].
  - simpl. exists total, R. split; [reflexivity|]. split; [assumption|].
    split; [lia|].
    apply Hbfs; try (rewrite <- Hk; assumption).
    + eapply shape_wf; eassumption.
    + eapply shape_reciprocal; eassumption.
  - exfalso. apply Hbfs; try (rewrite <- Hk; assumption).
    + eapply shape_wf; eassumption.
    + eapply shape_reciprocal; eassumption.
  - exfalso. apply Hbfs; try (rewrite <- Hk; assumption).
    + eapply shape_wf; eassumption.
    + eapply shape_reciprocal; eassumption.
Qed.

(** ** The residual graph at the start *)

Section InitialResidual.
Variables (g R0 : graph).
Hypothesis Hwf : wf_graph g.
Hypothesis Hwf0 : wf_graph R0.
Hypothesis Hentry : forall u v, entry R0 u v = residual_entry g u v.

Lemma residual_capacity u v : capacity R0 u v = capacity g u v.
Proof.
  unfold capacity. rewrite Hentry. unfold residual_entry.
  destruct (entry g u v); [reflexivity|]. now destruct (entry g v u).
Qed.

Lemma residual_reciprocal : reciprocal R0.
Proof.
  intros u v. rewrite !Hentry. unfold residual_entry.
  destruct (entry g u v), (entry g v u); congruence.
Qed.

Lemma residual_edge u v : entry g u v <> None -> entry R0 u v <> None.
Proof.
  rewrite Hentry. unfold residual_entry. destruct (entry g u v); congruence.
Qed.

Lemma capacity_nonneg u v : nonneg_graph g -> 0 <= capacity g u v.
Proof.
  intros Hnn. unfold capacity. destruct (entry g u v) as [c|] eqn:E; [|lia].
  apply (Hnn u v c). now apply In_edges_entry.
Qed.

Lemma flow_inv_init s t : nonneg_graph g -> flow_inv R0 R0 s t 0.
Proof.
  intros Hnn. split; [reflexivity|]. split; [|split].
  - intros u v. rewrite residual_capacity. now apply capacity_nonneg.
  - reflexivity.
  - intros n. lia.
Qed.

Lemma rowsum_out_capacity s : rowsum (keys R0) R0 s = out_capacity g s.
Proof.
  unfold rowsum, out_capacity.
  rewrite (zsum_ext _ (fun v => capacity g s v))
    by (intros; apply residual_capacity).
  set (d := get_default g s []).
  assert (Hd : forall k, get d k = entry g s k).
  { intros k. unfold d, get_default, entry. now destruct (get g s). }
  assert (Hwd : wf_dict d).
  { unfold d, get_default. destruct (get g s) eqn:E; [|apply wf_nil].
    exact (wf_graph_row g s _ Hwf E). }
  pose proof (zsum_dict d (keys R0) (fun _ x => x) Hwd) as Hsum.
  simpl in Hsum. symmetry. etransitivity; [apply Hsum|].
  - apply Hwf0.
  - intros k Hk. destruct (In_keys_get d k Hk) as [x Ex].
    apply (entry_target_key R0 s); [apply residual_reciprocal|].
    apply residual_edge. rewrite <- Hd. congruence.
  - apply zsum_ext. intros k _. unfold capacity. now rewrite Hd.
Qed.

End InitialResidual.

(** ** The flow matrix *)

Lemma entry_fm_setitem2 fm u v x a b :
  entry (fm_setitem2 fm u v x) a b =
  if String.eqb a u && String.eqb b v then Some x else entry fm a b.
Proof.
  unfold fm_setitem2. rewrite entry_setitem.
  destruct (String.eqb_spec a u) as [->|]; simpl; [|reflexivity].
  rewrite get_setitem. destruct (String.eqb b v); [reflexivity|].
  unfold get_default, entry. now destruct (get fm u).
Qed.

Lemma wf_fm_setitem2 fm u v x : wf_graph fm -> wf_graph (fm_setitem2 fm u v x).
Proof.
  intros Hwf. apply wf_graph_setitem; [assumption|]. apply wf_setitem.
  unfold get_default. destruct (get fm u) eqn:E; [|apply wf_nil].
  eapply wf_graph_row; eassumption.
Qed.

Lemma flow_row_spec R u items : forall fm,
  wf_dict items -> wf_graph fm ->
  (forall v c, In (v, c) items -> entry R u v <> None) ->
  exists fm',
    flow_row R u items fm = Ok fm' /\ wf_graph fm' /\
    forall a b,
      entry fm' a b =
      match (if String.eqb a u then get items b else None) with
      | Some c => Some (clamp (c - capacity R u b))
      | None => entry fm a b
      end.
Proof.
  unfold wf_dict.
  induction items as [|[v c] items IH]; intros fm Hnd Hwf He; simpl.
  - exists fm. split; [reflexivity|]. split; [assumption|].
    intros a b. now destruct (String.eqb a u).
  - inversion Hnd as [|? ? Hni Hnd']; subst.
    assert (Huv : entry R u v <> None) by (apply (He v c); now left).
    unfold entry in Huv. destruct (get R u) as [ru|] eqn:Eu; [|congruence].
    destruct (get ru v) as [x|] eqn:Ev; [|congruence].
    unfold getitem at 1. rewrite Eu. simpl.
    unfold getitem at 1. rewrite Ev. simpl.
    destruct (IH (fm_setitem2 fm u v (if 0 <? c - x then c - x else 0)))
      as (fm' & E & Hwf' & Hent); [assumption|now apply wf_fm_setitem2| |].
    { intros w c' Hin. apply (He w c'). now right. }
    exists fm'. split; [assumption|]. split; [assumption|].
    intros a b. rewrite Hent, entry_fm_setitem2.
    destruct (String.eqb_spec a u) as [->|]; simpl; [|reflexivity].
    destruct (String.eqb_spec b v) as [->|]; [|reflexivity].
    apply get_None in Hni. rewrite Hni. unfold clamp.
    assert (Ecap : capacity R u v = x).
    { apply entry_capacity. unfold entry. now rewrite Eu. }
    now rewrite Ecap.
Qed.

Lemma flow_rows_spec R g : forall fm,
  wf_graph g -> wf_graph fm ->
  (forall u v, entry g u v <> None -> entry R u v <> None) ->
  exists fm',
    flow_rows R g fm = Ok fm' /\ wf_graph fm' /\
    forall a b,
      entry fm' a b =
      match flow_entry g R a b with
      | Some x => Some x
      | None => entry fm a b
      end.
Proof.
  induction g as [|[u r] g IH]; intros fm [Hk Hr] Hwf He; simpl.
  - exists fm. split; [reflexivity|]. split; [assumption|]. reflexivity.
  - inversion Hk as [|? ? Hni Hk']; subst.
    destruct (flow_row_spec R u r fm) as (fm1 & E1 & Hwf1 & Hent1).
    { eapply Hr. now left. }
    { assumption. }
    { intros v c Hin. apply He. unfold entry. simpl.
      rewrite String.eqb_refl. rewrite (In_get r v c); [discriminate| |assumption].
      eapply Hr. now left. }
    rewrite E1. simpl.
    destruct (IH fm1) as (fm' & E & Hwf' & Hent).
    { split; [assumption|]. intros; eapply Hr; right; eassumption. }
    { assumption. }
    { intros a b Hab. apply He. unfold entry in *. simpl.
      destruct (String.eqb_spec a u) as [->|]; [|assumption].
      apply get_None in Hni. now rewrite Hni in Hab. }
    exists fm'. split; [assumption|]. split; [assumption|].
    intros a b. rewrite Hent, Hent1. unfold flow_entry, entry. simpl.
    destruct (String.eqb_spec a u) as [->|].
    + apply get_None in Hni. rewrite Hni. now destruct (get r b).
    + reflexivity.
Qed.

(** ** The whole solver *)

Lemma node_list_residual g R0 :
  _build_residual g = Ok R0 -> node_list g = keys R0.
Proof. unfold node_list. now intros ->. Qed.

Lemma edmonds_karp_run g s t fuel :
  wf_graph g -> nonneg_graph g -> In s (node_list g) ->
  (fuel_bound g s <= fuel)%nat ->
  exists R0 total R fm,
    _build_residual g = Ok R0 /\ wf_graph R0 /\
    (forall u v, entry R0 u v = residual_entry g u v) /\
    edmonds_karp_on fuel g s t = Ok (total, fm, R) /\
    flow_inv R0 R s t total /\ 0 <= total /\
    (exists S, closed_set R s t S) /\
    wf_graph fm /\ (forall a b, entry fm a b = flow_entry g R a b).
Proof.
  intros Hwf Hnn Hs Hfuel.
  destruct (build_residual_spec g Hwf) as (R0 & E0 & Hwf0 & Hkeys & Hent).
  unfold fuel_bound in Hfuel. rewrite (node_list_residual g R0 E0) in Hs, Hfuel.
  assert (Hrec : reciprocal R0) by (eapply residual_reciprocal; eassumption).
  destruct (ek_loop_spec R0 s t fuel Hwf0 Hrec Hs ltac:(lia) fuel R0 0)
    as (total & R & Eloop & Hinv & Htot & Hclosed).
  { now apply (flow_inv_init g R0 Hwf Hent). }
  { rewrite (rowsum_out_capacity g R0 Hwf Hwf0 Hent). lia. }
  destruct (flow_rows_spec R g [] Hwf) as (fm & Efm & Hwfm & Hfm).
  { split; [constructor|intros ? ? []]. }
  { intros u v Huv. apply (shape_entry R0 R); [symmetry; apply Hinv|].
    eapply residual_edge; eassumption. }
  exists R0, total, R, fm. split; [assumption|]. split; [assumption|].
  split; [assumption|]. split.
  - unfold edmonds_karp_on. rewrite E0. simpl. rewrite Eloop. simpl.
    rewrite Efm. reflexivity.
  - split; [assumption|]. split; [assumption|]. split; [assumption|].
    split; [assumption|]. intros a b. rewrite Hfm.
    now destruct (flow_entry g R a b).
Qed.

(** ** Sums over the edges of a graph and over pairs of nodes *)

Lemma zsum_antisym (N : list string) (h : string -> string -> Z) :
  (forall a b, h a b = - h b a) ->
  zsum (fun a => zsum (fun b => h a b) N) N = 0.
Proof.
  intros Hanti.
  assert (E : zsum (fun a => zsum (fun b => h a b) N) N =
              - zsum (fun a => zsum (fun b => h a b) N) N).
  { rewrite zsum_exchange at 1.
    rewrite (zsum_ext _ (fun b => -1 * zsum (fun a => h b a) N)).
    - rewrite zsum_scale. lia.
    - intros b _. rewrite <- zsum_scale. apply zsum_ext.
      intros a _. rewrite (Hanti a b). lia. }
  lia.
Qed.

(** The net flow that leaves a set of nodes is the net flow on the pairs
    that cross its border. *)
Lemma zsum_cut (N : list string) (S : cut) (psi : string -> string -> Z) :
  (forall a b, psi a b = - psi b a) ->
  zsum (fun n => b2z (S n) * zsum (fun v => psi n v) N) N =
  zsum (fun n =>
    zsum (fun v => if S n && negb (S v) then psi n v else 0) N) N.
Proof.
  intros Hanti.
  assert (Hin : zsum (fun a =>
    zsum (fun b => if S a && S b then psi a b else 0) N) N = 0).
  { apply (zsum_antisym N (fun a b => if S a && S b then psi a b else 0)).
    intros a b. rewrite (Hanti a b), (andb_comm (S a)).
    destruct (S b && S a); lia. }
  transitivity (zsum (fun n =>
      zsum (fun v => if S n && negb (S v) then psi n v else 0) N) N
    + zsum (fun a =>
      zsum (fun b => if S a && S b then psi a b else 0) N) N);
    [|rewrite Hin; lia].
  rewrite <- zsum_plus. apply zsum_ext. intros n _.
  rewrite <- zsum_scale, <- zsum_plus. apply zsum_ext. intros v _.
  unfold b2z. destruct (S n), (S v); cbv [andb negb]; lia.
Qed.

Lemma zsum_only (N : list string) (s : string) (D : string -> Z) :
  NoDup N -> In s N ->
  (forall n, In n N -> n <> s -> D n = 0) ->
  zsum D N = D s.
Proof.
  intros HN Hs Hz.
  rewrite <- (zsum_single_in N s D HN Hs). apply zsum_ext.
  intros n Hn. destruct (String.eqb_spec n s); [reflexivity|auto].
Qed.

Lemma zsum_edges_grid (G : graph) (N : list string)
    (F : string -> string -> Z -> Z) :
  wf_graph G -> NoDup N ->
  (forall u v, entry G u v <> None -> In u N /\ In v N) ->
  zsum (fun e => F (fst (fst e)) (snd (fst e)) (snd e)) (edges G) =
  zsum (fun u =>
    zsum (fun v => match entry G u v with Some c => F u v c | None => 0 end)
      N) N.
Proof.
  intros [Hk Hr] HN. induction G as [|[u r] G IH]; intros Hin.
  - simpl. symmetry. rewrite (zsum_ext _ (fun _ => 0)); [apply zsum_zero|].
    intros a _. apply zsum_zero.
  - inversion Hk as [|? ? Hni Hk']; subst.
    assert (Hnone : forall v, entry G u v = None).
    { intros v. unfold entry. apply get_None in Hni. now rewrite Hni. }
    assert (Hcons : forall a v,
      entry ((u, r) :: G) a v = if String.eqb a u then get r v else entry G a v).
    { intros a v. unfold entry. simpl. now destruct (String.eqb a u). }
    assert (Hwr : wf_dict r) by (eapply Hr; now left).
    unfold edges. simpl. fold (edges G). rewrite zsum_app, zsum_map. simpl.
    rewrite IH; [|assumption|intros; eapply Hr; right; eassumption|].
    2:{ intros a v Hav. apply Hin. rewrite Hcons.
        destruct (String.eqb_spec a u) as [->|]; [|assumption].
        now rewrite Hnone in Hav. }
    set (X := zsum (fun vc => F u (fst vc) (snd vc)) r).
    assert (HX : forall a, In a N ->
      (if String.eqb a u then X else 0) =
      if String.eqb a u
      then zsum (fun v => match get r v with Some c => F u v c | None => 0 end) N
      else 0).
    { intros a Ha. destruct (String.eqb_spec a u) as [->|]; [|reflexivity].
      unfold X. apply (zsum_dict r N (F u)); try assumption.
      intros v Hv. destruct (In_keys_get r v Hv) as [c Ec].
      apply (Hin u v). rewrite Hcons, String.eqb_refl. congruence. }
    assert (HXs : X = zsum (fun a => if String.eqb a u then X else 0) N).
    { destruct (in_dec string_dec u N) as [Hu|Hu].
      - symmetry. apply (zsum_single_in N u (fun _ => X)); assumption.
      - rewrite (zsum_ext _ (fun _ => 0)).
        + rewrite zsum_zero. unfold X.
          destruct r as [|[v c] r']; [reflexivity|].
          exfalso. apply Hu. apply (Hin u v).
          rewrite Hcons, String.eqb_refl. simpl. now rewrite String.eqb_refl.
        + intros a Ha. destruct (String.eqb_spec a u); [congruence|reflexivity]. }
    rewrite HXs, <- zsum_plus. apply zsum_ext. intros a Ha.
    rewrite (HX a Ha).
    destruct (String.eqb_spec a u) as [->|Hne].
    + rewrite (zsum_ext (fun v => match entry G u v with
                                  | Some c => F u v c | None => 0 end)
                        (fun _ => 0)) by (intros; now rewrite Hnone).
      rewrite zsum_zero, Z.add_0_r. apply zsum_ext. intros v _.
      now rewrite Hcons, String.eqb_refl.
    + simpl. apply zsum_ext. intros v _. rewrite Hcons.
      destruct (String.eqb_spec a u); [congruence|reflexivity].
Qed.

(** ** Flows and cuts of a graph *)

Section FlowsAndCuts.
Variables (g : graph) (N : list string).
Hypothesis Hwf : wf_graph g.
Hypothesis HN : NoDup N.
Hypothesis Hnodes : forall u v, entry g u v <> None -> In u N /\ In v N.

Lemma restrict_none f u v : entry g u v = None -> restrict g f u v = 0.
Proof. unfold restrict. now intros ->. Qed.

Lemma flow_out_grid f n :
  flow_out g f n = zsum (fun v => restrict g f n v) N.
Proof.
  unfold flow_out.
  pose proof (zsum_edges_grid g N
    (fun u v _ => if String.eqb u n then f u v else 0) Hwf HN Hnodes) as Hgrid.
  simpl in Hgrid. rewrite Hgrid.
  rewrite (zsum_ext _ (fun u =>
    if String.eqb u n then zsum (fun v => restrict g f u v) N else 0)).
  - rewrite (zsum_single N n (fun u => zsum (fun v => restrict g f u v) N) HN).
    destruct (in_dec string_dec n N) as [Hn|Hn]; [reflexivity|].
    symmetry. rewrite (zsum_ext _ (fun _ => 0)); [apply zsum_zero|].
    intros v _. apply restrict_none.
    destruct (entry g n v) eqn:E; [|reflexivity].
    exfalso. apply Hn. apply (Hnodes n v). congruence.
  - intros u _. destruct (String.eqb u n).
    + apply zsum_ext. intros v _. unfold restrict. now destruct (entry g u v).
    + rewrite (zsum_ext _ (fun _ => 0)); [apply zsum_zero|].
      intros v _. now destruct (entry g u v).
Qed.

Lemma flow_in_grid f n :
  flow_in g f n = zsum (fun u => restrict g f u n) N.
Proof.
  unfold flow_in.
  pose proof (zsum_edges_grid g N
    (fun u v _ => if String.eqb v n then f u v else 0) Hwf HN Hnodes) as Hgrid.
  simpl in Hgrid. rewrite Hgrid. apply zsum_ext. intros u _.
  rewrite (zsum_ext _ (fun v =>
    if String.eqb v n then restrict g f u v else 0)).
  - rewrite (zsum_single N n (fun v => restrict g f u v) HN).
    destruct (in_dec string_dec n N) as [Hn|Hn]; [reflexivity|].
    symmetry. apply restrict_none.
    destruct (entry g u n) eqn:E; [|reflexivity].
    exfalso. apply Hn. apply (Hnodes u n). congruence.
  - intros v _. unfold restrict.
    destruct (entry g u v); [reflexivity|]. now destruct (String.eqb v n).
Qed.

Lemma cut_capacity_grid (S : cut) :
  cut_capacity g S =
  zsum (fun u =>
    zsum (fun v => if S u && negb (S v) then capacity g u v else 0) N) N.
Proof.
  unfold cut_capacity.
  pose proof (zsum_edges_grid g N
    (fun u v c => if S u && negb (S v) then c else 0) Hwf HN Hnodes) as Hgrid.
  simpl in Hgrid. rewrite Hgrid. apply zsum_ext. intros u _.
  apply zsum_ext. intros v _. unfold capacity.
  destruct (entry g u v); [reflexivity|]. now destruct (S u && negb (S v)).
Qed.

(** Weak duality: no feasible flow is worth more than a cut. *)
Lemma weak_duality s t f (S : cut) :
  In s N -> feasible g s t f -> separates S s t ->
  flow_value g s f <= cut_capacity g S.
Proof.
  intros Hs [Hbound Hcons] [HSs HSt].
  set (phi := restrict g f).
  assert (Hphi : forall u v, 0 <= phi u v <= capacity g u v).
  { intros u v. unfold phi, restrict, capacity.
    destruct (entry g u v) as [c|] eqn:E; [|lia].
    apply Hbound. now apply In_edges_entry. }
  set (D := fun n => zsum (fun v => phi n v - phi v n) N).
  assert (HD : forall n, D n = flow_out g f n - flow_in g f n).
  { intros n. unfold D. rewrite zsum_minus, flow_out_grid, flow_in_grid.
    reflexivity. }
  assert (E1 : flow_value g s f = zsum (fun n => b2z (S n) * D n) N).
  { unfold flow_value. rewrite <- HD.
    rewrite (zsum_only N s (fun n => b2z (S n) * D n) HN Hs).
    - rewrite HSs. unfold b2z. lia.
    - intros n Hn Hns. destruct (S n) eqn:En; [|unfold b2z; lia].
      assert (n <> t) by (intros ->; congruence).
      rewrite HD, (Hcons n) by assumption. lia. }
  rewrite E1. unfold D.
  rewrite (zsum_cut N S (fun n v => phi n v - phi v n)) by (intros; lia).
  rewrite cut_capacity_grid.
  apply zsum_le. intros u _. apply zsum_le. intros v _.
  pose proof (Hphi u v). pose proof (Hphi v u).
  destruct (S u && negb (S v)); lia.
Qed.

End FlowsAndCuts.

Lemma cut_of_true S x : cut_of S x = true <-> In x S.
Proof.
  unfold cut_of. rewrite existsb_exists. split.
  - intros (y & Hy & E). apply String.eqb_eq in E. now subst.
  - intros H. exists x. split; [assumption|apply String.eqb_refl].
Qed.

(** ** The flow that the solver returns *)

Section FlowFacts.
Variables (g R0 R fm : graph) (s t : string) (total : Z).
Hypothesis Hwf : wf_graph g.
Hypothesis Hnn : nonneg_graph g.
Hypothesis Hwf0 : wf_graph R0.
Hypothesis Hent : forall u v, entry R0 u v = residual_entry g u v.
Hypothesis Hinv : flow_inv R0 R s t total.
Hypothesis Hwfm : wf_graph fm.
Hypothesis Hfm : forall a b, entry fm a b = flow_entry g R a b.

Lemma graph_nodes u v :
  entry g u v <> None -> In u (keys R0) /\ In v (keys R0).
Proof.
  intros H. apply (residual_edge g R0 Hent) in H. split.
  - eapply entry_key, H.
  - eapply entry_target_key; [|exact H].
    exact (residual_reciprocal g R0 Hent).
Qed.

Lemma matrix_edge u v : entry fm u v <> None <-> entry g u v <> None.
Proof.
  rewrite Hfm. unfold flow_entry. destruct (entry g u v); split; congruence.
Qed.

Lemma matrix_nodes u v :
  entry fm u v <> None -> In u (keys R0) /\ In v (keys R0).
Proof. intros H. apply graph_nodes. now apply matrix_edge. Qed.

Lemma residual_nonneg u v : 0 <= capacity R u v.
Proof. apply Hinv. Qed.

Lemma net_antisym u v : net_flow g R u v = - net_flow g R v u.
Proof.
  unfold net_flow. destruct Hinv as (_ & _ & Hskew & _).
  specialize (Hskew u v).
  rewrite !(residual_capacity g R0 Hent) in Hskew. lia.
Qed.

Lemma matrix_flow_net u v : matrix_flow fm u v = Z.max 0 (net_flow g R u v).
Proof.
  unfold matrix_flow, net_flow.
  assert (E : capacity fm u v =
    match entry g u v with
    | Some c => clamp (c - capacity R u v)
    | None => 0
    end).
  { unfold capacity at 1. rewrite Hfm. unfold flow_entry.
    now destruct (entry g u v). }
  rewrite E. pose proof (residual_nonneg u v).
  destruct (entry g u v) as [c|] eqn:Eg.
  - rewrite (entry_capacity g u v c Eg). unfold clamp.
    destruct (Z.ltb_spec 0 (c - capacity R u v)); lia.
  - rewrite (capacity_none g u v Eg). lia.
Qed.

Lemma matrix_flow_diff u v :
  matrix_flow fm u v - matrix_flow fm v u = net_flow g R u v.
Proof.
  rewrite !matrix_flow_net, (net_antisym v u). lia.
Qed.

Lemma matrix_flow_bounds u v c :
  entry g u v = Some c -> 0 <= matrix_flow fm u v <= c.
Proof.
  intros E. rewrite matrix_flow_net. unfold net_flow.
  rewrite (entry_capacity g u v c E).
  pose proof (residual_nonneg u v).
  assert (0 <= c) by (apply (Hnn u v c); now apply In_edges_entry).
  lia.
Qed.

Lemma net_rowsum n :
  zsum (fun v => net_flow g R n v) (keys R0) =
  total * (b2z (String.eqb n s) - b2z (String.eqb n t)).
Proof.
  unfold net_flow.
  transitivity (rowsum (keys R0) R0 n - rowsum (keys R0) R n).
  - unfold rowsum. rewrite <- zsum_minus. apply zsum_ext. intros v _.
    now rewrite (residual_capacity g R0 Hent).
  - destruct Hinv as (_ & _ & _ & Hrow). rewrite (Hrow n). lia.
Qed.

Lemma outflow_grid n :
  outflow fm n = zsum (fun v => matrix_flow fm n v) (keys R0).
Proof.
  unfold outflow. set (d := get_default fm n []).
  assert (Hd : forall k, get d k = entry fm n k).
  { intros k. unfold d, get_default, entry. now destruct (get fm n). }
  assert (Hwd : wf_dict d).
  { unfold d, get_default. destruct (get fm n) eqn:E; [|apply wf_nil].
    exact (wf_graph_row fm n _ Hwfm E). }
  pose proof (zsum_dict d (keys R0) (fun _ x => x) Hwd) as Hsum.
  simpl in Hsum. etransitivity; [apply Hsum|].
  - apply Hwf0.
  - intros k Hk. destruct (In_keys_get d k Hk) as [x Ex].
    apply (matrix_nodes n k). rewrite <- Hd. congruence.
  - apply zsum_ext. intros k _. unfold matrix_flow, capacity. now rewrite Hd.
Qed.

Lemma inflow_grid n :
  inflow fm n = zsum (fun u => matrix_flow fm u n) (keys R0).
Proof.
  unfold inflow.
  pose proof (zsum_edges_grid fm (keys R0)
    (fun _ v c => if String.eqb v n then c else 0) Hwfm (proj1 Hwf0)
    matrix_nodes) as Hgrid.
  simpl in Hgrid. rewrite Hgrid. apply zsum_ext. intros u Hu.
  rewrite (zsum_ext _ (fun v =>
    if String.eqb v n then matrix_flow fm u v else 0)).
  - rewrite (zsum_single (keys R0) n (fun v => matrix_flow fm u v))
      by apply Hwf0.
    destruct (in_dec string_dec n (keys R0)) as [Hn|Hn]; [reflexivity|].
    unfold matrix_flow, capacity.
    destruct (entry fm u n) eqn:E; [|reflexivity].
    exfalso. apply Hn. apply (matrix_nodes u n). congruence.
  - intros v _. unfold matrix_flow, capacity.
    destruct (entry fm u v); [reflexivity|]. now destruct (String.eqb v n).
Qed.

Lemma matrix_balance n :
  outflow fm n - inflow fm n =
  total * (b2z (String.eqb n s) - b2z (String.eqb n t)).
Proof.
  rewrite outflow_grid, inflow_grid, <- zsum_minus, <- net_rowsum.
  apply zsum_ext. intros v _. apply matrix_flow_diff.
Qed.

Hypothesis Hs : In s (keys R0).
Hypothesis Hst : s <> t.

Lemma restrict_matrix u v :
  restrict g (matrix_flow fm) u v = matrix_flow fm u v.
Proof.
  unfold restrict, matrix_flow, capacity. rewrite Hfm. unfold flow_entry.
  now destruct (entry g u v).
Qed.

Lemma matrix_flow_out n : flow_out g (matrix_flow fm) n = outflow fm n.
Proof.
  rewrite (flow_out_grid g (keys R0) Hwf (proj1 Hwf0) graph_nodes).
  rewrite outflow_grid.
  apply zsum_ext. intros v _. apply restrict_matrix.
Qed.

Lemma matrix_flow_in n : flow_in g (matrix_flow fm) n = inflow fm n.
Proof.
  rewrite (flow_in_grid g (keys R0) Hwf (proj1 Hwf0) graph_nodes).
  rewrite inflow_grid.
  apply zsum_ext. intros v _. apply restrict_matrix.
Qed.

Lemma matrix_feasible : feasible g s t (matrix_flow fm).
Proof.
  split.
  - intros u v c Hin. apply In_edges_entry in Hin; [|assumption].
    exact (matrix_flow_bounds u v c Hin).
  - intros n Hns Hnt. rewrite matrix_flow_in, matrix_flow_out.
    pose proof (matrix_balance n) as Hb.
    destruct (String.eqb_spec n s); [congruence|].
    destruct (String.eqb_spec n t); [congruence|].
    unfold b2z in Hb. lia.
Qed.

Lemma matrix_value : flow_value g s (matrix_flow fm) = total.
Proof.
  unfold flow_value. rewrite matrix_flow_in, matrix_flow_out.
  rewrite (matrix_balance s).
  rewrite String.eqb_refl. destruct (String.eqb_spec s t); [congruence|].
  unfold b2z. lia.
Qed.

Lemma closed_set_cut S :
  closed_set R s t S ->
  separates (cut_of S) s t /\ cut_capacity g (cut_of S) = total.
Proof.
  intros (HSs & HSt & Hclosed). split.
  - split; [now apply cut_of_true|].
    destruct (cut_of S t) eqn:E; [|reflexivity].
    apply cut_of_true in E. exfalso. apply HSt; [congruence|assumption].
  - rewrite (cut_capacity_grid g (keys R0) Hwf (proj1 Hwf0) graph_nodes).
    set (D := fun n => zsum (fun v => net_flow g R n v) (keys R0)).
    assert (HD : forall n, D n =
      total * (b2z (String.eqb n s) - b2z (String.eqb n t))).
    { intros n. apply net_rowsum. }
    assert (E1 : total = zsum (fun n => b2z (cut_of S n) * D n) (keys R0)).
    { rewrite (zsum_only (keys R0) s _ (proj1 Hwf0) Hs).
      - assert (Ec : cut_of S s = true) by now apply cut_of_true.
        rewrite Ec, HD, String.eqb_refl.
        destruct (String.eqb_spec s t); [congruence|]. unfold b2z. lia.
      - intros n Hn Hns. destruct (cut_of S n) eqn:En; [|unfold b2z; lia].
        apply cut_of_true in En. rewrite HD.
        destruct (String.eqb_spec n s); [congruence|].
        destruct (String.eqb_spec n t) as [->|]; [|unfold b2z; lia].
        exfalso. apply HSt; [congruence|assumption]. }
    symmetry. rewrite E1. unfold D.
    rewrite (zsum_cut (keys R0) (cut_of S) (net_flow g R))
      by (intros; apply net_antisym).
    apply zsum_ext. intros u _. apply zsum_ext. intros v _.
    destruct (cut_of S u) eqn:Eu; [|reflexivity].
    destruct (cut_of S v) eqn:Ev; [reflexivity|]. cbv [andb negb].
    apply cut_of_true in Eu.
    assert (Hv : ~ In v S) by (rewrite <- cut_of_true; congruence).
    unfold net_flow.
    assert (Hz : capacity R u v = 0).
    { pose proof (residual_nonneg u v) as Hge.
      unfold capacity in *. destruct (entry R u v) as [c|] eqn:E; [|reflexivity].
      destruct (Z_lt_le_dec 0 c) as [Hc|Hc]; [|lia].
      exfalso. apply Hv. now apply (Hclosed u v c). }
    lia.
Qed.

End FlowFacts.

(** ** The states of the augmenting loop *)

Lemma path_to_unique par x l :
  path_to par x l -> forall l', path_to par x l' -> l = l'.
Proof.
  induction 1 as [x Hx|x p l Hx Hp IH]; intros l' H';
    inversion H' as [y Hy|y q m Hy Hq]; subst; try congruence.
  assert (q = p) by congruence. subst q. f_equal. now apply IH.
Qed.

Lemma bfs_augment_no_source fuel R s t :
  ~ In s (keys R) -> forall pr, _bfs_augment fuel R s t <> Ok (Some pr).
Proof.
  intros Hs pr. destruct fuel as [|fuel].
  - discriminate.
  - now rewrite bfs_augment_absent.
Qed.

Lemma bfs_augment_found fuel R0 R s t total pr :
  wf_graph R0 -> reciprocal R0 -> flow_inv R0 R s t total ->
  (List.length (keys R0) <= fuel)%nat ->
  _bfs_augment fuel R s t = Ok (Some pr) ->
  In s (keys R0) /\ augmenting R s t pr.
Proof.
  intros Hwf Hrec Hinv Hf E.
  assert (Hsh : shape R0 = shape R) by (symmetry; apply Hinv).
  assert (Hk : keys R0 = keys R) by now apply shape_keys.
  destruct (in_dec string_dec s (keys R0)) as [Hs|Hs].
  - split; [assumption|].
    pose proof (bfs_augment_spec R s t fuel) as Hbfs. rewrite E in Hbfs.
    apply Hbfs; try (rewrite <- Hk; assumption).
    + eapply shape_wf; eassumption.
    + eapply shape_reciprocal; eassumption.
  - exfalso. rewrite Hk in Hs.
    exact (bfs_augment_no_source fuel R s t Hs pr E).
Qed.

Lemma loop_state_inv fuel g R0 s t :
  wf_graph g -> nonneg_graph g ->
  _build_residual g = Ok R0 -> wf_graph R0 ->
  (forall u v, entry R0 u v = residual_entry g u v) ->
  (List.length (keys R0) <= fuel)%nat ->
  forall k R total,
    loop_state fuel g s t k R total ->
    flow_inv R0 R s t total /\ Z.of_nat k <= total /\
    (total = 0 \/ (t <> s /\ In s (keys R0))).
Proof.
  intros Hwf Hnn E0 Hwf0 Hent Hf.
  assert (Hrec : reciprocal R0) by (eapply residual_reciprocal; eassumption).
  induction 1 as [res E|k res total pr res' Hst IH Ebfs Epush].
  - assert (res = R0) by congruence. subst res.
    split; [now apply (flow_inv_init g R0 Hwf Hent)|]. split; [lia|now left].
  - destruct IH as (Hinv & Hk & _).
    destruct (bfs_augment_found fuel R0 res s t total pr Hwf0 Hrec Hinv Hf Ebfs)
      as (Hs & Haug).
    destruct (augment_step R0 res s t total pr fuel Hwf0 Hrec Hinv Haug Hf)
      as (R' & Epush' & Hinv').
    assert (res' = R') by congruence. subst res'.
    assert (Hb : 0 < bottleneck pr) by (destruct Haug as (_ & l & H); apply H).
    split; [assumption|]. split; [lia|]. right. split; [apply Haug|assumption].
Qed.

Lemma ek_loop_reaches fuel0 g s t : forall fuel k R total total' R',
  loop_state fuel0 g s t k R total ->
  ek_loop fuel0 fuel R s t total = Ok (total', R') ->
  exists k', loop_state fuel0 g s t k' R' total' /\
             _bfs_augment fuel0 R' s t = Ok None.
Proof.
  induction fuel as [|fuel IH]; intros k R total total' R' Hst E;
    [discriminate|].
  simpl in E.
  destruct (_bfs_augment fuel0 R s t) as [[pr|]| |] eqn:Ebfs;
    simpl in E; try discriminate.
  - destruct (push fuel0 R (parent pr) t (bottleneck pr)) as [R1| |] eqn:Ep;
      simpl in E; try discriminate.
    eapply IH; [|exact E]. eapply loop_iter; eassumption.
  - injection E as <- <-. eauto.
Qed.

Lemma out_capacity_nonneg g s :
  wf_graph g -> nonneg_graph g -> 0 <= out_capacity g s.
Proof.
  intros Hwf Hnn. unfold out_capacity, get_default.
  destruct (get g s) as [r|] eqn:E; [|simpl; lia].
  apply zsum_nonneg. intros [v c] Hin. simpl.
  apply (Hnn s v c). apply In_edges. exists r.
  split; [now apply get_In|assumption].
Qed.

Lemma edmonds_karp_reaches fuel g s t total fm R :
  edmonds_karp_on fuel g s t = Ok (total, fm, R) ->
  exists k, loop_state fuel g s t k R total /\
            _bfs_augment fuel R s t = Ok None.
Proof.
  unfold edmonds_karp_on.
  destruct (_build_residual g) as [R0| |] eqn:E0; simpl; try discriminate.
  destruct (ek_loop fuel fuel R0 s t 0) as [[total' R']| |] eqn:El; simpl;
    try discriminate.
  destruct (flow_rows R' g []) as [fm'| |]; simpl; try discriminate.
  intros [= <- <- <-].
  eapply ek_loop_reaches; [|exact El]. now constructor.
Qed.

Lemma edmonds_karp_absent_source fuel g s t :
  wf_graph g -> (0 < fuel)%nat -> ~ In s (node_list g) ->
  edmonds_karp_on fuel g s t = Raise KeyError.
Proof.
  intros Hwf Hf Hs.
  destruct (build_residual_spec g Hwf) as (R0 & E0 & _).
  rewrite (node_list_residual g R0 E0) in Hs.
  unfold edmonds_karp_on. rewrite E0. simpl.
  destruct fuel as [|fuel]; [lia|].
  cbn [ek_loop]. now rewrite bfs_augment_absent.
Qed.

Lemma fuel_bound_pos g s : (0 < fuel_bound g s)%nat.
Proof. unfold fuel_bound. lia. Qed.

(** C2: the augmenting loop terminates.  At every state that the loop
    reaches, a path that the search returns has a positive bottleneck and
    the push along it succeeds, so the total flow grows by at least one in
    every iteration; the total flow never exceeds the capacity that leaves
    the source, so the number of iterations is bounded by it, and with a
    budget of [fuel_bound g s] the solver finishes: it returns when the
    source is a node and raises [KeyError] when it is not. *)
Theorem augmenting_loop_terminates (g : graph) (s t : string) (fuel : nat) :
  wf_graph g -> nonneg_graph g -> (fuel_bound g s <= fuel)%nat ->
  (forall k R total,
     loop_state fuel g s t k R total ->
     Z.of_nat k <= total <= out_capacity g s /\
     forall pr,
       _bfs_augment fuel R s t = Ok (Some pr) ->
       0 < bottleneck pr /\
       exists R',
         push fuel R (parent pr) t (bottleneck pr) = Ok R' /\
         loop_state fuel g s t (S k) R' (total + bottleneck pr)) /\
  (In s (node_list g) ->
   exists total fm R k,
     edmonds_karp_on fuel g s t = Ok (total, fm, R) /\
     loop_state fuel g s t k R total) /\
  (~ In s (node_list g) -> edmonds_karp_on fuel g s t = Raise KeyError).
Proof.
  intros Hwf Hnn Hfuel.
  destruct (build_residual_spec g Hwf) as (R0 & E0 & Hwf0 & Hkeys & Hent).
  assert (Hrec : reciprocal R0) by (eapply residual_reciprocal; eassumption).
  assert (Hf : (List.length (keys R0) <= fuel)%nat).
  { unfold fuel_bound in Hfuel. rewrite (node_list_residual g R0 E0) in Hfuel.
    lia. }
  split; [|split].
  - intros k R total Hst.
    destruct (loop_state_inv fuel g R0 s t Hwf Hnn E0 Hwf0 Hent Hf k R total Hst)
      as (Hinv & Hk & Hcase).
    split.
    + split; [assumption|]. destruct Hcase as [->|[Hts Hs]].
      * now apply out_capacity_nonneg.
      * pose proof (rowsum_nonneg (keys R0) R s (proj1 (proj2 Hinv))) as Hge.
        rewrite (flow_inv_source R0 R s t total Hts Hinv) in Hge.
        rewrite (rowsum_out_capacity g R0 Hwf Hwf0 Hent) in Hge. lia.
    + intros pr Ebfs.
      destruct (bfs_augment_found fuel R0 R s t total pr Hwf0 Hrec Hinv Hf Ebfs)
        as (Hs & Haug).
      destruct (augment_step R0 R s t total pr fuel Hwf0 Hrec Hinv Haug Hf)
        as (R' & Epush & _).
      split; [destruct Haug as (_ & l & H); apply H|].
      exists R'. split; [assumption|]. eapply loop_iter; eassumption.
  - intros Hs.
    destruct (edmonds_karp_run g s t fuel Hwf Hnn Hs Hfuel)
      as (R0' & total & R & fm & _ & _ & _ & E & _).
    destruct (edmonds_karp_reaches fuel g s t total fm R E) as (k & Hst & _).
    exists total, fm, R, k. now split.
  - intros Hs. apply edmonds_karp_absent_source; try assumption.
    pose proof (fuel_bound_pos g s). lia.
Qed.

Lemma augmenting_loop_terminates_witness :
  (forall k R total,
     loop_state 15 (mf_graph diamond) "source" "sink" k R total ->
     Z.of_nat k <= total <= out_capacity (mf_graph diamond) "source" /\
     forall pr,
       _bfs_augment 15 R "source" "sink" = Ok (Some pr) ->
       0 < bottleneck pr /\
       exists R',
         push 15 R (parent pr) "sink" (bottleneck pr) = Ok R' /\
         loop_state 15 (mf_graph diamond) "source" "sink" (S k) R'
           (total + bottleneck pr)) /\
  (In "source"%string (node_list (mf_graph diamond)) ->
   exists total fm R k,
     edmonds_karp_on 15 (mf_graph diamond) "source" "sink"
       = Ok (total, fm, R) /\
     loop_state 15 (mf_graph diamond) "source" "sink" k R total) /\
  (~ In "source"%string (node_list (mf_graph diamond)) ->
   edmonds_karp_on 15 (mf_graph diamond) "source" "sink" = Raise KeyError).
Proof.
  apply (augmenting_loop_terminates (mf_graph diamond) "source" "sink" 15).
  - apply wf_graphb_true. reflexivity.
  - apply nonneg_graphb_true. reflexivity.
  - vm_compute. lia.
Defined.

(** C3: in the flow matrix that [edmonds_karp] returns, the inflow of
    every node other than the source and the sink equals its outflow. *)
Theorem flow_conservation (g : graph) (s t : string) (fuel : nat) :
  wf_graph g -> nonneg_graph g -> In s (node_list g) ->
  (fuel_bound g s <= fuel)%nat ->
  exists total fm R,
    edmonds_karp_on fuel g s t = Ok (total, fm, R) /\
    forall n, n <> s -> n <> t -> inflow fm n = outflow fm n.
Proof.
  intros Hwf Hnn Hs Hfuel.
  destruct (edmonds_karp_run g s t fuel Hwf Hnn Hs Hfuel)
    as (R0 & total & R & fm & E0 & Hwf0 & Hent & E & Hinv & Htot & _ & Hwfm & Hfm).
  exists total, fm, R. split; [assumption|].
  intros n Hns Hnt.
  pose proof (matrix_balance g R0 R fm s t total Hwf0 Hent Hinv Hwfm Hfm n) as Hb.
  destruct (String.eqb_spec n s); [congruence|].
  destruct (String.eqb_spec n t); [congruence|].
  simpl in Hb. lia.
Qed.

Lemma flow_conservation_witness :
  exists total fm R,
    edmonds_karp_on 15 (mf_graph diamond) "source" "sink"
      = Ok (total, fm, R) /\
    forall n, n <> "source"%string -> n <> "sink"%string ->
              inflow fm n = outflow fm n.
Proof.
  apply (flow_conservation (mf_graph diamond) "source" "sink" 15).
  - apply wf_graphb_true. reflexivity.
  - apply nonneg_graphb_true. reflexivity.
  - vm_compute. tauto.
  - vm_compute. lia.
Defined.

(** C4: the flow matrix that [edmonds_karp] returns has one entry for
    every edge of the graph and no other entry, and the flow on an edge of
    capacity [c] lies between [0] and [c]. *)
Theorem flow_matrix_within_capacity (g : graph) (s t : string) (fuel : nat) :
  wf_graph g -> nonneg_graph g -> In s (node_list g) ->
  (fuel_bound g s <= fuel)%nat ->
  exists total fm R,
    edmonds_karp_on fuel g s t = Ok (total, fm, R) /\
    (forall u v, edge_count fm u v = edge_count g u v) /\
    (forall u v c, In (u, v, c) (edges g) ->
       exists x, In (u, v, x) (edges fm) /\ 0 <= x <= c) /\
    (forall u v x, In (u, v, x) (edges fm) ->
       exists c, In (u, v, c) (edges g) /\ 0 <= x <= c).
Proof.
  intros Hwf Hnn Hs Hfuel.
  destruct (edmonds_karp_run g s t fuel Hwf Hnn Hs Hfuel)
    as (R0 & total & R & fm & E0 & Hwf0 & Hent & E & Hinv & Htot & _ & Hwfm & Hfm).
  exists total, fm, R. split; [assumption|].
  assert (Hb : forall u v c, entry g u v = Some c ->
            exists x, entry fm u v = Some x /\ 0 <= x <= c).
  { intros u v c Eg.
    pose proof (matrix_flow_bounds g R0 R fm s t total Hwf Hnn Hinv Hfm
                  u v c Eg) as Hx.
    unfold matrix_flow, capacity in Hx. rewrite Hfm in *.
    unfold flow_entry in *. rewrite Eg in *. eauto. }
  split; [|split].
  - intros u v. rewrite !edge_count_entry by assumption.
    rewrite Hfm. unfold flow_entry. now destruct (entry g u v).
  - intros u v c Hin. apply In_edges_entry in Hin; [|assumption].
    destruct (Hb u v c Hin) as (x & Ex & Hx). exists x.
    split; [now apply In_edges_entry|assumption].
  - intros u v x Hin. apply In_edges_entry in Hin; [|assumption].
    destruct (entry g u v) as [c|] eqn:Eg.
    + destruct (Hb u v c Eg) as (x' & Ex & Hx).
      exists c. split; [now apply In_edges_entry|]. congruence.
    + rewrite Hfm in Hin. unfold flow_entry in Hin. now rewrite Eg in Hin.
Qed.

Lemma flow_matrix_within_capacity_witness :
  exists total fm R,
    edmonds_karp_on 15 (mf_graph diamond) "source" "sink"
      = Ok (total, fm, R) /\
    (forall u v, edge_count fm u v = edge_count (mf_graph diamond) u v) /\
    (forall u v c, In (u, v, c) (edges (mf_graph diamond)) ->
       exists x, In (u, v, x) (edges fm) /\ 0 <= x <= c) /\
    (forall u v x, In (u, v, x) (edges fm) ->
       exists c, In (u, v, c) (edges (mf_graph diamond)) /\ 0 <= x <= c).
Proof.
  apply (flow_matrix_within_capacity (mf_graph diamond) "source" "sink" 15).
  - apply wf_graphb_true. reflexivity.
  - apply nonneg_graphb_true. reflexivity.
  - vm_compute. tauto.
  - vm_compute. lia.
Defined.

(** C8, as stated, fails on a pair of antiparallel edges: with the edges
    [a -> b] and [b -> a] of capacity [1] and a flow from [a] to [b], the
    residual capacity of [b -> a] becomes [2], so capacity minus residual
    is [-1] and the clamp changes it to [0]. *)
Lemma clamp_alters_antiparallel_edge :
  exists total fm R,
    edmonds_karp_on 4 (mf_graph antiparallel) "a" "b" = Ok (total, fm, R) /\
    nonneg_graph (mf_graph antiparallel) /\
    In ("b"%string, "a"%string, 1) (edges (mf_graph antiparallel)) /\
    1 - capacity R "b" "a" < 0 /\
    clamp (1 - capacity R "b" "a") <> 1 - capacity R "b" "a".
Proof.
  eexists. eexists. eexists. split; [vm_compute; reflexivity|].
  split; [apply nonneg_graphb_true; reflexivity|].
  split; [vm_compute; tauto|]. split; vm_compute; congruence.
Qed.

(** C8, amended: at every state of the augmenting loop, the state at the
    [break] included, no residual capacity is negative and the bottleneck
    of the path that the search returns is at most the residual capacity
    of every edge on it; for an edge of the graph whose reverse is not an
    edge of the graph, capacity minus residual capacity is not negative and
    the clamp leaves it as it is. *)
Theorem residual_capacities_nonnegative
    (g : graph) (s t : string) (fuel : nat) :
  wf_graph g -> nonneg_graph g -> (fuel_bound g s <= fuel)%nat ->
  (forall k R total,
     loop_state fuel g s t k R total ->
     (forall u v x, entry R u v = Some x -> 0 <= x) /\
     (forall pr l,
        _bfs_augment fuel R s t = Ok (Some pr) ->
        path_to (parent pr) t l ->
        forall p y, In (p, y) l ->
          exists c, entry R p y = Some c /\ bottleneck pr <= c) /\
     (forall u v c,
        In (u, v, c) (edges g) -> entry g v u = None ->
        0 <= c - capacity R u v /\
        clamp (c - capacity R u v) = c - capacity R u v)) /\
  (forall total fm R,
     edmonds_karp_on fuel g s t = Ok (total, fm, R) ->
     exists k, loop_state fuel g s t k R total).
Proof.
  intros Hwf Hnn Hfuel.
  destruct (build_residual_spec g Hwf) as (R0 & E0 & Hwf0 & Hkeys & Hent).
  assert (Hrec : reciprocal R0) by (eapply residual_reciprocal; eassumption).
  assert (Hf : (List.length (keys R0) <= fuel)%nat).
  { unfold fuel_bound in Hfuel. rewrite (node_list_residual g R0 E0) in Hfuel.
    lia. }
  split.
  - intros k R total Hst.
    destruct (loop_state_inv fuel g R0 s t Hwf Hnn E0 Hwf0 Hent Hf k R total Hst)
      as (Hinv & _ & _).
    split; [|split].
    + intros u v x E. rewrite <- (entry_capacity R u v x E). apply Hinv.
    + intros pr l Ebfs Hpath p y Hin.
      destruct (bfs_augment_found fuel R0 R s t total pr Hwf0 Hrec Hinv Hf Ebfs)
        as (_ & _ & l' & Hp' & _ & _ & _ & _ & _ & Hedges).
      rewrite (path_to_unique _ _ _ Hpath _ Hp') in Hin.
      destruct (Hedges p y Hin) as (c & E & Hc & _). eauto.
    + intros u v c Hin Hrev. apply In_edges_entry in Hin; [|assumption].
      destruct Hinv as (_ & Hpos & Hskew & _).
      specialize (Hskew u v). rewrite !(residual_capacity g R0 Hent) in Hskew.
      rewrite (entry_capacity g u v c Hin), (capacity_none g v u Hrev) in Hskew.
      pose proof (Hpos v u). assert (Hge : 0 <= c - capacity R u v) by lia.
      split; [assumption|]. unfold clamp.
      destruct (Z.ltb_spec 0 (c - capacity R u v)); lia.
  - intros total fm R E.
    destruct (edmonds_karp_reaches fuel g s t total fm R E) as (k & Hst & _).
    eauto.
Qed.

Lemma residual_capacities_nonnegative_witness :
  (forall k R total,
     loop_state 15 (mf_graph diamond) "source" "sink" k R total ->
     (forall u v x, entry R u v = Some x -> 0 <= x) /\
     (forall pr l,
        _bfs_augment 15 R "source" "sink" = Ok (Some pr) ->
        path_to (parent pr) "sink" l ->
        forall p y, In (p, y) l ->
          exists c, entry R p y = Some c /\ bottleneck pr <= c) /\
     (forall u v c,
        In (u, v, c) (edges (mf_graph diamond)) ->
        entry (mf_graph diamond) v u = None ->
        0 <= c - capacity R u v /\
        clamp (c - capacity R u v) = c - capacity R u v)) /\
  (forall total fm R,
     edmonds_karp_on 15 (mf_graph diamond) "source" "sink"
       = Ok (total, fm, R) ->
     exists k, loop_state 15 (mf_graph diamond) "source" "sink" k R total).
Proof.
  apply (residual_capacities_nonnegative (mf_graph diamond) "source" "sink" 15).
  - apply wf_graphb_true. reflexivity.
  - apply nonneg_graphb_true. reflexivity.
  - vm_compute. lia.
Defined.

(** C5, as stated, fails: with the source equal to the sink, or with a
    sink that is not in the graph, [edmonds_karp] raises nothing and
    returns a zero flow. *)
Lemma equal_endpoints_accepted :
  edmonds_karp_on 4 (mf_graph antiparallel) "a" "a" =
    Ok (0, [("a", [("b", 0)]); ("b", [("a", 0)])],
           [("a", [("b", 1)]); ("b", [("a", 1)])])%string /\
  edmonds_karp_on 4 (mf_graph antiparallel) "a" "x" =
    Ok (0, [("a", [("b", 0)]); ("b", [("a", 0)])],
           [("a", [("b", 1)]); ("b", [("a", 1)])])%string.
Proof. split; vm_compute; reflexivity. Qed.

Lemma chain_head s t l :
  chain s t l -> l <> [] -> exists p l', l = (p, t) :: l'.
Proof. intros H Hl. destruct H; [congruence|eauto]. Qed.

(** C5, amended: [edmonds_karp] does not check its endpoints.  When the
    source is not a node of the graph the first lookup in the residual
    graph raises [KeyError]; when the source is a node and the sink equals
    the source or is not a node, the call returns a total flow of [0], a
    flow matrix with one zero entry for every edge, and the residual graph
    as it was built. *)
Theorem endpoints_not_validated (g : graph) (s t : string) (fuel : nat) :
  wf_graph g -> (fuel_bound g s <= fuel)%nat ->
  (~ In s (node_list g) -> edmonds_karp_on fuel g s t = Raise KeyError) /\
  (In s (node_list g) -> s = t \/ ~ In t (node_list g) ->
   exists fm R0,
     _build_residual g = Ok R0 /\
     edmonds_karp_on fuel g s t = Ok (0, fm, R0) /\
     (forall u v, edge_count fm u v = edge_count g u v) /\
     (forall u v x, In (u, v, x) (edges fm) -> x = 0)).
Proof.
  intros Hwf Hfuel. split.
  - intros Hs. apply edmonds_karp_absent_source; try assumption.
    pose proof (fuel_bound_pos g s). lia.
  - intros Hs Ht.
    destruct (build_residual_spec g Hwf) as (R0 & E0 & Hwf0 & Hkeys & Hent).
    assert (Hrec : reciprocal R0) by (eapply residual_reciprocal; eassumption).
    unfold fuel_bound in Hfuel.
    rewrite (node_list_residual g R0 E0) in Hs, Ht, Hfuel.
    assert (Hbfs : _bfs_augment fuel R0 s t = Ok None).
    { pose proof (bfs_augment_spec R0 s t fuel Hwf0 Hrec Hs ltac:(lia)) as H.
      destruct (_bfs_augment fuel R0 s t) as [[pr|]| |]; try tauto.
      exfalso. destruct H as (Hts & l & _ & Hc & Hl & _ & _ & _ & He).
      destruct Ht as [Ht|Ht]; [congruence|].
      destruct (chain_head s t l Hc Hl) as (p & l' & ->).
      destruct (He p t) as (c & E & _); [now left|].
      apply Ht. apply (entry_target_key R0 p t Hrec). congruence. }
    destruct (flow_rows_spec R0 g [] Hwf) as (fm & Efm & Hwfm & Hfm).
    { split; [constructor|intros ? ? []]. }
    { intros u v. now apply residual_edge. }
    exists fm, R0. split; [assumption|]. split; [|split].
    + unfold edmonds_karp_on. rewrite E0. simpl.
      destruct fuel as [|fuel]; [lia|]. cbn [ek_loop]. rewrite Hbfs. simpl.
      now rewrite Efm.
    + intros u v. rewrite !edge_count_entry by assumption.
      rewrite Hfm. unfold flow_entry.
      destruct (entry g u v); [reflexivity|].
      unfold entry. simpl. reflexivity.
    + intros u v x Hin. apply In_edges_entry in Hin; [|assumption].
      rewrite Hfm in Hin. unfold flow_entry in Hin.
      destruct (entry g u v) as [c|] eqn:Eg.
      * rewrite (residual_capacity g R0 Hent), (entry_capacity g u v c Eg) in Hin.
        unfold clamp in Hin. rewrite Z.sub_diag in Hin. simpl in Hin. congruence.
      * unfold entry in Hin. simpl in Hin. discriminate.
Qed.

Lemma endpoints_not_validated_witness :
  (~ In "a"%string (node_list (mf_graph antiparallel)) ->
   edmonds_karp_on 4 (mf_graph antiparallel) "a" "a" = Raise KeyError) /\
  (In "a"%string (node_list (mf_graph antiparallel)) ->
   "a"%string = "a"%string \/ ~ In "a"%string (node_list (mf_graph antiparallel)) ->
   exists fm R0,
     _build_residual (mf_graph antiparallel) = Ok R0 /\
     edmonds_karp_on 4 (mf_graph antiparallel) "a" "a" = Ok (0, fm, R0) /\
     (forall u v, edge_count fm u v = edge_count (mf_graph antiparallel) u v) /\
     (forall u v x, In (u, v, x) (edges fm) -> x = 0)).
Proof.
  apply (endpoints_not_validated (mf_graph antiparallel) "a" "a" 4).
  - apply wf_graphb_true. reflexivity.
  - vm_compute. lia.
Defined.

(** C1: for a graph with capacities that are not negative and a source
    [s] in the graph, a sink [t] other than [s], [edmonds_karp] returns a
    total flow that is the value of a feasible flow (the one of the flow
    matrix), that no feasible flow exceeds, and that is the capacity of a
    cut between [s] and [t] which no such cut undercuts: the total flow is
    the maximum flow and the capacity of a minimum cut. *)
Theorem max_flow_min_cut (g : graph) (s t : string) (fuel : nat) :
  wf_graph g -> nonneg_graph g ->
  In s (node_list g) -> In t (node_list g) -> s <> t ->
  (fuel_bound g s <= fuel)%nat ->
  exists total fm R,
    edmonds_karp_on fuel g s t = Ok (total, fm, R) /\
    feasible g s t (matrix_flow fm) /\
    flow_value g s (matrix_flow fm) = total /\
    (forall f, feasible g s t f -> flow_value g s f <= total) /\
    (exists S, separates S s t /\ cut_capacity g S = total) /\
    (forall S, separates S s t -> total <= cut_capacity g S).
Proof.
  intros Hwf Hnn Hs Ht Hst Hfuel.
  destruct (edmonds_karp_run g s t fuel Hwf Hnn Hs Hfuel)
    as (R0 & total & R & fm & E0 & Hwf0 & Hent & E & Hinv & Htot
        & (S & HS) & Hwfm & Hfm).
  rewrite (node_list_residual g R0 E0) in Hs.
  exists total, fm, R. split; [assumption|].
  assert (Hfeas : feasible g s t (matrix_flow fm))
    by exact (matrix_feasible g R0 R fm s t total
                Hwf Hnn Hwf0 Hent Hinv Hwfm Hfm).
  assert (Hval : flow_value g s (matrix_flow fm) = total)
    by exact (matrix_value g R0 R fm s t total
                Hwf Hwf0 Hent Hinv Hwfm Hfm Hst).
  destruct (closed_set_cut g R0 R s t total Hwf Hwf0 Hent Hinv Hs Hst S HS)
    as [Hsep Hcap].
  split; [assumption|]. split; [assumption|]. split; [|split].
  - intros f Hf. rewrite <- Hcap.
    exact (weak_duality g (keys R0) Hwf (proj1 Hwf0) (graph_nodes g R0 Hent)
             s t f (cut_of S) Hs Hf Hsep).
  - exists (cut_of S). now split.
  - intros S' HS'. rewrite <- Hval.
    exact (weak_duality g (keys R0) Hwf (proj1 Hwf0) (graph_nodes g R0 Hent)
             s t (matrix_flow fm) S' Hs Hfeas HS').
Qed.

Lemma max_flow_min_cut_witness :
  exists total fm R,
    edmonds_karp_on 15 (mf_graph diamond) "source" "sink"
      = Ok (total, fm, R) /\
    feasible (mf_graph diamond) "source" "sink" (matrix_flow fm) /\
    flow_value (mf_graph diamond) "source" (matrix_flow fm) = total /\
    (forall f, feasible (mf_graph diamond) "source" "sink" f ->
               flow_value (mf_graph diamond) "source" f <= total) /\
    (exists S, separates S "source" "sink" /\
               cut_capacity (mf_graph diamond) S = total) /\
    (forall S, separates S "source" "sink" ->
               total <= cut_capacity (mf_graph diamond) S).
Proof.
  apply (max_flow_min_cut (mf_graph diamond) "source" "sink" 15).
  - apply wf_graphb_true. reflexivity.
  - apply nonneg_graphb_true. reflexivity.
  - vm_compute. tauto.
  - vm_compute. tauto.
  - discriminate.
  - vm_compute. lia.
Defined.

(** ** The proportional decomposition *)

Lemma flow_lookup_capacity g a b : flow_lookup g a b = capacity g a b.
Proof.
  unfold flow_lookup, capacity, entry, get_default.
  destruct (get g a) as [r|]; reflexivity.
Qed.

Lemma flow_lookup_setitem2 g u v x a b :
  flow_lookup (fm_setitem2 g u v x) a b =
  if String.eqb a u && String.eqb b v then x else flow_lookup g a b.
Proof.
  rewrite !flow_lookup_capacity. unfold fm_setitem2. apply capacity_update.
Qed.

Lemma sum_values_zsum (r : row) : sum_values r = zsum snd r.
Proof.
  unfold sum_values, values.
  assert (H : forall acc, fold_left Z.add (map snd r) acc = acc + zsum snd r).
  { induction r as [|[k x] r IH]; intros acc; simpl; [lia|].
    rewrite IH. lia. }
  rewrite H. lia.
Qed.

Lemma dd_getitem_row d k : fst (dd_getitem d k) = get_default d k [].
Proof. unfold dd_getitem, get_default. now destruct (get d k). Qed.

Lemma dd_getitem_rows d k : same_rows d (snd (dd_getitem d k)).
Proof.
  intros k'. unfold dd_getitem, get_default.
  destruct (get d k) eqn:E; simpl; [reflexivity|].
  rewrite get_setitem. destruct (String.eqb_spec k' k) as [->|]; [|reflexivity].
  now rewrite E.
Qed.

Lemma same_rows_refl d : same_rows d d.
Proof. intros k. reflexivity. Qed.

Lemma same_rows_trans d1 d2 d3 :
  same_rows d1 d2 -> same_rows d2 d3 -> same_rows d1 d3.
Proof. intros H1 H2 k. now rewrite H2, H1. Qed.

Lemma build_in_total_S_spec ws : forall d acc,
  same_rows d (snd (build_in_total_S ws d acc)) /\
  forall h,
    get_default (fst (build_in_total_S ws d acc)) h 0 =
    if in_dec string_dec h ws then sum_values (get_default d h [])
    else get_default acc h 0.
Proof.
  induction ws as [|s ws IH]; intros d acc; simpl.
  - split; [apply same_rows_refl|reflexivity].
  - destruct (dd_getitem d s) as [r d'] eqn:E.
    assert (Er : r = get_default d s [])
      by (rewrite <- dd_getitem_row, E; reflexivity).
    assert (Hd : same_rows d d')
      by (pose proof (dd_getitem_rows d s) as H; now rewrite E in H).
    destruct (IH d' (setitem acc s (sum_values r))) as [I1 I2].
    split; [eapply same_rows_trans; eassumption|].
    intros h. rewrite I2.
    destruct (in_dec string_dec h ws) as [Hin|Hni].
    + destruct (string_dec s h); now rewrite Hd.
    + unfold get_default at 1. rewrite get_setitem.
      destruct (string_dec s h) as [<-|Hne].
      * now rewrite String.eqb_refl, Er.
      * destruct (String.eqb_spec h s); [congruence|reflexivity].
Qed.

Lemma wf_fold_setitem2 (F : string * string * Z -> string * string * Z)
    (es : list (string * string * Z)) : forall acc,
  wf_graph acc ->
  wf_graph (fold_left
    (fun acc e => fm_setitem2 acc (fst (fst (F e))) (snd (fst (F e))) (snd (F e)))
    es acc).
Proof.
  induction es as [|e es IH]; intros acc Hwf; simpl; [assumption|].
  apply IH. now apply wf_fm_setitem2.
Qed.

Lemma wf_nil_graph : wf_graph [].
Proof. split; [constructor|intros ? ? []]. Qed.

Lemma lookup_fold_setitem2 (F : string * string * Z -> string * string * Z)
    (val : string -> string -> Z) (es : list (string * string * Z)) :
  (forall e, snd (F e) = val (fst (fst (F e))) (snd (fst (F e)))) ->
  forall acc a b,
    flow_lookup (fold_left
      (fun acc e =>
         fm_setitem2 acc (fst (fst (F e))) (snd (fst (F e))) (snd (F e)))
      es acc) a b =
    if existsb (fun e => is_edge a b (F e)) es then val a b
    else flow_lookup acc a b.
Proof.
  intros Hval. induction es as [|e es IH]; intros acc a b; simpl;
    [reflexivity|].
  rewrite IH, flow_lookup_setitem2. unfold is_edge at 2.
  rewrite (String.eqb_sym a), (String.eqb_sym b).
  destruct (existsb _ es); [now rewrite orb_true_r|]. rewrite orb_false_r.
  destruct (String.eqb_spec (fst (fst (F e))) a) as [<-|]; simpl; [|reflexivity].
  destruct (String.eqb_spec (snd (fst (F e))) b) as [<-|]; [|reflexivity].
  apply Hval.
Qed.

Lemma in_T_to_S_lookup eTS fm s t :
  flow_lookup (build_in_T_to_S eTS fm) s t =
  if has_edge eTS t s then flow_lookup fm t s else 0.
Proof.
  unfold build_in_T_to_S.
  etransitivity;
    [exact (lookup_fold_setitem2
      (fun e => (snd (fst e), fst (fst e),
                 flow_lookup fm (fst (fst e)) (snd (fst e))))
      (fun s t => flow_lookup fm t s) eTS (fun _ => eq_refl) [] s t)|].
  unfold has_edge. simpl.
  replace (existsb (fun e => is_edge s t _) eTS)
    with (existsb (is_edge t s) eTS); [reflexivity|].
  induction eTS as [|e es IH]; simpl; [reflexivity|].
  rewrite IH. f_equal. unfold is_edge. simpl. apply andb_comm.
Qed.

Lemma out_S_to_M_lookup eSM fm s m :
  flow_lookup (build_out_S_to_M eSM fm) s m =
  if has_edge eSM s m then flow_lookup fm s m else 0.
Proof.
  unfold build_out_S_to_M.
  etransitivity;
    [exact (lookup_fold_setitem2
      (fun e => (fst (fst e), snd (fst e),
                 flow_lookup fm (fst (fst e)) (snd (fst e))))
      (fun s m => flow_lookup fm s m) eSM (fun _ => eq_refl) [] s m)|].
  reflexivity.
Qed.

Lemma wf_in_T_to_S eTS fm : wf_graph (build_in_T_to_S eTS fm).
Proof.
  unfold build_in_T_to_S.
  apply (wf_fold_setitem2
    (fun e => (snd (fst e), fst (fst e),
               flow_lookup fm (fst (fst e)) (snd (fst e))))).
  apply wf_nil_graph.
Qed.

Lemma wf_out_S_to_M eSM fm : wf_graph (build_out_S_to_M eSM fm).
Proof.
  unfold build_out_S_to_M.
  apply (wf_fold_setitem2
    (fun e => (fst (fst e), snd (fst e),
               flow_lookup fm (fst (fst e)) (snd (fst e))))).
  apply wf_nil_graph.
Qed.

Lemma shares_of_fold (F : string -> Q) terms : forall acc,
  wf_dict acc ->
  wf_dict (fold_left (fun acc t => setitem acc t (F t)) terms acc) /\
  forall u,
    get (fold_left (fun acc t => setitem acc t (F t)) terms acc) u =
    if in_dec string_dec u terms then Some (F u) else get acc u.
Proof.
  induction terms as [|t terms' IH]; intros acc Hwf; simpl.
  - now split.
  - destruct (IH (setitem acc t (F t)) (wf_setitem acc t (F t) Hwf)) as [I1 I2].
    split; [assumption|]. intros u. rewrite I2.
    destruct (in_dec string_dec u terms') as [Hin|Hni].
    + now destruct (string_dec t u).
    + rewrite get_setitem. destruct (string_dec t u) as [<-|Hne].
      * now rewrite String.eqb_refl.
      * destruct (String.eqb_spec u t); [congruence|reflexivity].
Qed.

Lemma shares_of_spec terms row_in total_in :
  wf_dict (shares_of terms row_in total_in) /\
  forall u,
    get (shares_of terms row_in total_in) u =
    if in_dec string_dec u terms
    then Some (inject_Z (get_default row_in u 0%Z) / inject_Z total_in)%Q
    else None.
Proof.
  unfold shares_of.
  exact (shares_of_fold
    (fun t => (inject_Z (get_default row_in t 0%Z) / inject_Z total_in)%Q)
    terms [] wf_nil).
Qed.

Lemma qentry_update (tsf : dict (dict Q)) t m x a b :
  qentry (setitem tsf t (setitem (get_default tsf t []) m x)) a b =
  if String.eqb a t && String.eqb b m then x else qentry tsf a b.
Proof.
  unfold qentry. unfold get_default at 2. rewrite get_setitem.
  destruct (String.eqb_spec a t) as [->|Hne]; simpl; [|reflexivity].
  unfold get_default at 1. rewrite get_setitem.
  destruct (String.eqb b m); reflexivity.
Qed.

Lemma attribute_store_spec m f u d (shares : dict Q) : forall tsf,
  wf_dict shares ->
  (qentry (attribute_store shares m f tsf) u d ==
   qentry tsf u d +
   (if String.eqb d m
    then match get shares u with
         | Some sh => inject_Z f * sh
         | None => 0
         end
    else 0))%Q.
Proof.
  unfold wf_dict, attribute_store.
  induction shares as [|[t sh] shares IH]; intros tsf Hnd; simpl.
  - destruct (String.eqb d m); ring.
  - inversion Hnd as [|? ? Hni Hnd']; subst.
    rewrite IH by assumption. rewrite qentry_update.
    apply get_None in Hni.
    destruct (String.eqb_spec u t) as [->|Hne]; simpl.
    + rewrite Hni. destruct (String.eqb_spec d m) as [->|]; ring.
    + destruct (String.eqb d m); reflexivity.
Qed.

Lemma attribute_row_spec (shares : dict Q) u d (row_out : row) : forall tsf,
  wf_dict shares -> wf_dict row_out ->
  (qentry (attribute_row shares row_out tsf) u d ==
   qentry tsf u d +
   match get shares u with
   | Some sh => inject_Z (get_default row_out d 0%Z) * sh
   | None => 0
   end)%Q.
Proof.
  unfold wf_dict at 2, attribute_row.
  induction row_out as [|[m f] row_out IH]; intros tsf Hsh Hnd; simpl.
  - unfold get_default. simpl. destruct (get shares u); ring.
  - inversion Hnd as [|? ? Hni Hnd']; subst.
    rewrite IH by assumption. apply get_None in Hni.
    unfold get_default. simpl.
    destruct (String.eqb_spec d m) as [->|Hne].
    + rewrite Hni. destruct (Z.eqb_spec f 0) as [->|Hf].
      * destruct (get shares u); ring.
      * rewrite attribute_store_spec by assumption.
        rewrite String.eqb_refl. destruct (get shares u); ring.
    + destruct (Z.eqb_spec f 0) as [->|Hf]; [reflexivity|].
      rewrite attribute_store_spec by assumption.
      destruct (String.eqb_spec d m); [congruence|].
      destruct (get shares u); ring.
Qed.

Lemma wf_get_default (g : graph) k : wf_graph g -> wf_dict (get_default g k []).
Proof.
  intros Hwf. unfold get_default. destruct (get g k) eqn:E; [|apply wf_nil].
  exact (wf_graph_row g k _ Hwf E).
Qed.

Lemma decompose_step_spec terms in_total_S in0 out0 st h :
  wf_graph out0 ->
  same_rows in0 (in_T_to_S st) -> same_rows out0 (out_S_to_M st) ->
  get_default in_total_S h 0 = sum_values (get_default in0 h []) ->
  same_rows in0 (in_T_to_S (decompose_step terms in_total_S st h)) /\
  same_rows out0 (out_S_to_M (decompose_step terms in_total_S st h)) /\
  forall u d,
    (qentry (terminal_store_flow (decompose_step terms in_total_S st h))
       u d ==
     qentry (terminal_store_flow st) u d +
     (if in_dec string_dec u terms
      then attributed in0 out0 h u d else 0))%Q.
Proof.
  intros Hwf Hin Hout Htot. unfold decompose_step, attributed.
  rewrite Htot. destruct (Z.eqb_spec (sum_values (get_default in0 h [])) 0)
    as [Hz|Hnz].
  - split; [assumption|]. split; [assumption|].
    intros u d. destruct (in_dec string_dec u terms); ring.
  - destruct (dd_getitem (in_T_to_S st) h) as [row_in in1] eqn:E1.
    destruct (dd_getitem (out_S_to_M st) h) as [row_out out1] eqn:E2.
    assert (Er1 : row_in = get_default in0 h []).
    { rewrite <- Hin, <- dd_getitem_row, E1. reflexivity. }
    assert (Er2 : row_out = get_default out0 h []).
    { rewrite <- Hout, <- dd_getitem_row, E2. reflexivity. }
    simpl. split; [|split].
    + eapply same_rows_trans; [exact Hin|].
      pose proof (dd_getitem_rows (in_T_to_S st) h) as H. now rewrite E1 in H.
    + eapply same_rows_trans; [exact Hout|].
      pose proof (dd_getitem_rows (out_S_to_M st) h) as H. now rewrite E2 in H.
    + intros u d.
      destruct (shares_of_spec terms row_in
                  (sum_values (get_default in0 h []))) as [Hwsh Hsh].
      rewrite attribute_row_spec;
        [|assumption|rewrite Er2; now apply wf_get_default].
      rewrite Hsh, Er1, Er2. unfold flow_lookup.
      destruct (in_dec string_dec u terms); reflexivity.
Qed.

Lemma decompose_fold terms in_total_S in0 out0 ws : forall st,
  wf_graph out0 ->
  (forall h, In h ws ->
     get_default in_total_S h 0 = sum_values (get_default in0 h [])) ->
  same_rows in0 (in_T_to_S st) -> same_rows out0 (out_S_to_M st) ->
  forall u d,
    (qentry (terminal_store_flow
       (fold_left (decompose_step terms in_total_S) ws st)) u d ==
     qentry (terminal_store_flow st) u d +
     (if in_dec string_dec u terms
      then qsum (fun h => attributed in0 out0 h u d) ws else 0))%Q.
Proof.
  induction ws as [|h ws IH]; intros st Hwf Htot Hin Hout u d; simpl.
  - destruct (in_dec string_dec u terms); ring.
  - destruct (decompose_step_spec terms in_total_S in0 out0 st h Hwf Hin Hout)
      as (I1 & I2 & I3); [apply Htot; now left|].
    rewrite IH; try assumption; [|intros; apply Htot; now right].
    rewrite I3. destruct (in_dec string_dec u terms); ring.
Qed.

Lemma entry_fold_setitem2 (F : string * string * Z -> string * string * Z)
    (es : list (string * string * Z)) : forall acc a b,
  entry (fold_left
    (fun acc e => fm_setitem2 acc (fst (fst (F e))) (snd (fst (F e))) (snd (F e)))
    es acc) a b <> None ->
  existsb (fun e => is_edge a b (F e)) es = true \/ entry acc a b <> None.
Proof.
  induction es as [|e es IH]; intros acc a b H; simpl in *; [now right|].
  destruct (IH _ a b H) as [Hex|Hacc].
  - left. now rewrite Hex, orb_true_r.
  - rewrite entry_fm_setitem2 in Hacc. unfold is_edge at 1.
    rewrite (String.eqb_sym (fst (fst (F e)))), (String.eqb_sym (snd (fst (F e)))).
    destruct (String.eqb a (fst (fst (F e))) && String.eqb b (snd (fst (F e))));
      [now left|now right].
Qed.

Lemma in_T_to_S_keys eTS fm h u :
  In u (keys (get_default (build_in_T_to_S eTS fm) h [])) ->
  exists c, In (u, h, c) eTS.
Proof.
  intros Hin.
  assert (He : entry (build_in_T_to_S eTS fm) h u <> None).
  { unfold entry, get_default in *.
    destruct (get (build_in_T_to_S eTS fm) h) as [r|]; [|destruct Hin].
    destruct (In_keys_get r u Hin) as [x ->]. discriminate. }
  unfold build_in_T_to_S in He.
  destruct (entry_fold_setitem2
    (fun e => (snd (fst e), fst (fst e),
               flow_lookup fm (fst (fst e)) (snd (fst e))))
    eTS [] h u He) as [Hex|Hnil].
  - apply existsb_exists in Hex as ([[t s] c] & Hin' & Hedge).
    unfold is_edge in Hedge. simpl in Hedge.
    apply andb_true_iff in Hedge as [E1 E2].
    apply String.eqb_eq in E1, E2. subst. eauto.
  - exfalso. apply Hnil. reflexivity.
Qed.

Lemma qsum_ext {A} (f g : A -> Q) (l : list A) :
  (forall a, In a l -> (f a == g a)%Q) -> (qsum f l == qsum g l)%Q.
Proof.
  induction l as [|a l IH]; intros H; simpl; [reflexivity|].
  rewrite IH by (intros; apply H; now right).
  rewrite (H a) by now left. reflexivity.
Qed.

Lemma qsum_inject_scale {A} (f : A -> Z) (c : Q) (l : list A) :
  (qsum (fun a => inject_Z (f a) * c) l == inject_Z (zsum f l) * c)%Q.
Proof.
  induction l as [|a l IH]; simpl.
  - ring.
  - rewrite IH, inject_Z_plus. ring.
Qed.

Lemma zsum_keys (r : row) :
  wf_dict r -> zsum (fun k => get_default r k 0) (keys r) = zsum snd r.
Proof.
  intros Hwf. unfold keys. rewrite zsum_map. apply zsum_ext.
  intros [k x] Hin. unfold get_default. simpl.
  now rewrite (In_get r k x Hwf Hin).
Qed.

Lemma attributed_nonzero (in0 out0 : graph) h u d :
  sum_values (get_default in0 h []) <> 0 ->
  attributed in0 out0 h u d =
  (inject_Z (flow_lookup out0 h d)
   * (inject_Z (flow_lookup in0 h u)
      / inject_Z (sum_values (get_default in0 h []))))%Q.
Proof.
  intros Hnz. unfold attributed. cbv zeta.
  destruct (Z.eqb_spec (sum_values (get_default in0 h [])) 0); [contradiction|].
  reflexivity.
Qed.

Lemma attributed_total (in0 out0 : graph) terms h :
  wf_graph in0 -> wf_graph out0 -> NoDup terms ->
  incl (keys (get_default in0 h [])) terms ->
  sum_values (get_default in0 h []) <> 0 ->
  (qsum (fun u =>
     qsum (fun d => attributed in0 out0 h u d)
       (keys (get_default out0 h []))) terms ==
   inject_Z (sum_values (get_default out0 h [])))%Q.
Proof.
  intros Hwi Hwo Hnd Hincl Hnz.
  set (T := sum_values (get_default in0 h [])) in *.
  set (O := sum_values (get_default out0 h [])).
  assert (HO : zsum (fun d => flow_lookup out0 h d)
                 (keys (get_default out0 h [])) = O).
  { unfold O. rewrite sum_values_zsum. unfold flow_lookup.
    apply zsum_keys. now apply wf_get_default. }
  assert (HT : zsum (fun u => flow_lookup in0 h u) terms = T).
  { unfold T. rewrite sum_values_zsum. unfold flow_lookup.
    pose proof (zsum_dict (get_default in0 h []) terms (fun _ x => x)
                  (wf_get_default in0 h Hwi) Hnd Hincl) as Hsum.
    simpl in Hsum. etransitivity; [|symmetry; exact Hsum].
    apply zsum_ext. intros k _. unfold get_default at 1.
    now destruct (get (get_default in0 h []) k). }
  rewrite (qsum_ext _ (fun u =>
    inject_Z (flow_lookup in0 h u) * (inject_Z O / inject_Z T))%Q).
  - rewrite (qsum_inject_scale (fun u => flow_lookup in0 h u)
               (inject_Z O / inject_Z T)%Q terms), HT. field.
    intros E. apply Hnz. unfold Qeq in E. simpl in E. lia.
  - intros u _.
    rewrite (qsum_ext _ (fun d =>
      inject_Z (flow_lookup out0 h d)
      * (inject_Z (flow_lookup in0 h u) / inject_Z T))%Q)
      by (intros d _; rewrite attributed_nonzero by assumption; reflexivity).
    rewrite (qsum_inject_scale (fun d => flow_lookup out0 h d)
               (inject_Z (flow_lookup in0 h u) / inject_Z T)%Q
               (keys (get_default out0 h []))), HO.
    unfold Qdiv. ring.
Qed.

Lemma network_terminals :
  NoDup terminals /\
  forall t s c, In (t, s, c) edges_T_S -> In t terminals.
Proof.
  split.
  - apply nodupb_NoDup. reflexivity.
  - intros t s c Hin. unfold edges_T_S, terminals in *. simpl in *.
    repeat (destruct Hin as [[= <- <- <-]|Hin]; [tauto|]).
    contradiction.
Qed.

(** C6: the table that the decomposition builds gives every pair of a
    terminal [u] and a store [d] the sum, over the warehouses [h], of what
    [h] passes from [u] to [d]: nothing when the total inflow of [h] is
    zero, and otherwise the realized flow from [h] to [d] times the share
    of [u] in the inflow of [h].  In exact arithmetic the amounts that a
    warehouse with inflow passes on add up to its total realized outflow
    when the terminals are distinct and every edge into a warehouse comes
    from a terminal, as in the network of [build_and_run]; and the network
    with inflow 6 and 4 and outflow 7 and 3 gives 4.2, 2.8, 1.8 and 1.2. *)
Theorem proportional_decomposition
    (ts ws : list string)
    (eTS eSM : list (string * string * Z)) (fm : graph) :
  let in0 := build_in_T_to_S eTS fm in
  let out0 := build_out_S_to_M eSM fm in
  let table := decompose ts ws eTS eSM fm in
  (forall h u,
     flow_lookup in0 h u =
     if has_edge eTS u h then flow_lookup fm u h else 0) /\
  (forall h d,
     flow_lookup out0 h d =
     if has_edge eSM h d then flow_lookup fm h d else 0) /\
  (forall u d,
     (qentry table u d ==
      if in_dec string_dec u ts
      then qsum (fun h => attributed in0 out0 h u d) ws
      else 0)%Q) /\
  (forall h u d,
     sum_values (get_default in0 h []) = 0 ->
     attributed in0 out0 h u d = 0%Q) /\
  (forall h u d,
     sum_values (get_default in0 h []) <> 0 ->
     attributed in0 out0 h u d =
     (inject_Z (flow_lookup out0 h d)
      * (inject_Z (flow_lookup in0 h u)
         / inject_Z (sum_values (get_default in0 h []))))%Q) /\
  (forall h,
     NoDup ts ->
     (forall t s c, In (t, s, c) eTS -> In t ts) ->
     sum_values (get_default in0 h []) <> 0 ->
     (qsum (fun u =>
        qsum (fun d => attributed in0 out0 h u d)
          (keys (get_default out0 h []))) ts ==
      inject_Z (sum_values (get_default out0 h [])))%Q) /\
  (forall h,
     let in1 := build_in_T_to_S edges_T_S fm in
     let out1 := build_out_S_to_M edges_S_M fm in
     sum_values (get_default in1 h []) <> 0 ->
     (qsum (fun u =>
        qsum (fun d => attributed in1 out1 h u d)
          (keys (get_default out1 h []))) terminals ==
      inject_Z (sum_values (get_default out1 h [])))%Q) /\
  (qentry hub_table "X" "P" == 4.2)%Q /\
  (qentry hub_table "Y" "P" == 2.8)%Q /\
  (qentry hub_table "X" "Q" == 1.8)%Q /\
  (qentry hub_table "Y" "Q" == 1.2)%Q.
Proof.
  intros in0 out0 table.
  split; [intros h u; apply in_T_to_S_lookup|].
  split; [intros h d; apply out_S_to_M_lookup|].
  assert (Htotal : forall (ts' : list string) eTS' eSM' h,
    NoDup ts' ->
    (forall t s c, In (t, s, c) eTS' -> In t ts') ->
    sum_values (get_default (build_in_T_to_S eTS' fm) h []) <> 0 ->
    (qsum (fun u =>
       qsum (fun d =>
         attributed (build_in_T_to_S eTS' fm) (build_out_S_to_M eSM' fm) h u d)
         (keys (get_default (build_out_S_to_M eSM' fm) h []))) ts' ==
     inject_Z (sum_values (get_default (build_out_S_to_M eSM' fm) h [])))%Q).
  { intros ts' eTS' eSM' h Hnd Hterm Hnz.
    apply attributed_total; try assumption.
    - apply wf_in_T_to_S.
    - apply wf_out_S_to_M.
    - intros u Hu. destruct (in_T_to_S_keys eTS' fm h u Hu) as [c Hc].
      eapply Hterm, Hc. }
  split; [|split; [|split; [|split; [|split]]]].
  - intros u d. unfold table, decompose. fold in0. fold out0.
    pose proof (build_in_total_S_spec ws in0 []) as [Hrows Htot].
    destruct (build_in_total_S ws in0 []) as [in_total_S in1].
    simpl in Hrows, Htot.
    rewrite (decompose_fold ts in_total_S in0 out0 ws (mkDecomp in1 out0 [])).
    + cbn [terminal_store_flow]. unfold qentry at 1.
      change (get_default (get_default [] u []) d 0%Q) with 0%Q.
      destruct (in_dec string_dec u ts); ring.
    + apply wf_out_S_to_M.
    + intros h Hh. rewrite Htot.
      destruct (in_dec string_dec h ws); [reflexivity|contradiction].
    + exact Hrows.
    + apply same_rows_refl.
  - intros h u d Hz. unfold attributed. cbv zeta. now rewrite Hz.
  - intros h u d Hnz. now apply attributed_nonzero.
  - intros h Hnd Hterm Hnz. now apply Htotal.
  - intros h in1 out1 Hnz.
    destruct network_terminals as [Hnd Hterm]. now apply Htotal.
  - repeat split; vm_compute; reflexivity.
Qed.

(** ** Graphs that [add_edge] builds

    The properties above assume a graph whose dictionaries have distinct
    keys and whose capacities are not negative.  Every graph built from
    the empty one with [add_edge] is such a graph, and every endpoint of
    its edges has an entry, so that its nodes are its keys. *)

Lemma keys_after_add_edge g u v c a :
  In a (keys (graph_after_add_edge g u v c)) <->
  a = u \/ a = v \/ In a (keys g).
Proof.
  unfold graph_after_add_edge.
  set (g1 := match get g u with Some _ => g | None => setitem g u [] end).
  assert (H1 : In a (keys g1) <-> a = u \/ In a (keys g)).
  { unfold g1. destruct (get g u) eqn:E.
    - split; [tauto|]. intros [->|H]; [|assumption].
      eapply get_Some_key; eassumption.
    - apply In_keys_setitem. }
  set (g2 := setitem g1 u _).
  assert (H2 : In a (keys g2) <-> a = u \/ In a (keys g)).
  { unfold g2. rewrite In_keys_setitem, H1. tauto. }
  destruct (get g2 v) eqn:E.
  - rewrite H2. split; [tauto|]. intros [->|[->|H]]; [tauto| |tauto].
    apply H2. eapply get_Some_key; eassumption.
  - rewrite In_keys_setitem, H2. tauto.
Qed.

Lemma closed_after_add_edge g u v c :
  closed_graph g -> closed_graph (graph_after_add_edge g u v c).
Proof.
  intros Hc a b. rewrite entry_after_add_edge, keys_after_add_edge.
  destruct (String.eqb_spec a u) as [->|]; simpl.
  - destruct (String.eqb_spec b v) as [->|]; [tauto|].
    intros H. right. right. eapply Hc, H.
  - intros H. right. right. eapply Hc, H.
Qed.

Lemma nonneg_after_add_edge g u v c :
  wf_graph g -> nonneg_graph g -> 0 <= c ->
  nonneg_graph (graph_after_add_edge g u v c).
Proof.
  intros Hwf Hnn Hc a b x Hin.
  apply In_edges_entry in Hin; [|now apply wf_after_add_edge].
  rewrite entry_after_add_edge in Hin.
  destruct (String.eqb a u && String.eqb b v).
  - injection Hin as <-. pose proof (capacity_nonneg g Hwf u v Hnn). lia.
  - apply (Hnn a b x). now apply In_edges_entry.
Qed.

Lemma add_edges_builds es : forall self,
  (forall u v c, In (u, v, c) es -> 0 <= c) ->
  wf_graph (mf_graph self) -> nonneg_graph (mf_graph self) ->
  closed_graph (mf_graph self) ->
  exists self',
    add_edges es self = (Ok tt, self') /\
    wf_graph (mf_graph self') /\ nonneg_graph (mf_graph self') /\
    closed_graph (mf_graph self').
Proof.
  induction es as [|[[u v] c] es IH]; intros self Hes Hwf Hnn Hcl; simpl.
  - exists self. split; [reflexivity|]. now split; [|split].
  - assert (Hc : 0 <= c) by (apply (Hes u v c); now left).
    unfold mbind. rewrite add_edge_run by assumption.
    apply IH; cbn [mf_graph].
    + intros a b x Hin. apply (Hes a b x). now right.
    + now apply wf_after_add_edge.
    + now apply nonneg_after_add_edge.
    + now apply closed_after_add_edge.
Qed.

Lemma node_list_closed g x :
  wf_graph g -> closed_graph g -> In x (node_list g) <-> In x (keys g).
Proof.
  intros Hwf Hcl.
  destruct (build_residual_spec g Hwf) as (R0 & E0 & _ & Hkeys & _).
  rewrite (node_list_residual g R0 E0), Hkeys. split; [|tauto].
  intros [H|[b H]]; [assumption|]. eapply Hcl, H.
Qed.

Lemma add_edges_from_init es :
  (forall u v c, In (u, v, c) es -> 0 <= c) ->
  exists self,
    add_edges es init = (Ok tt, self) /\
    wf_graph (mf_graph self) /\ nonneg_graph (mf_graph self) /\
    closed_graph (mf_graph self).
Proof.
  intros Hes. apply add_edges_builds; try assumption.
  - apply wf_nil_graph.
  - intros u v c [].
  - intros u v H. exfalso. now apply H.
Qed.

(** ** The scenarios, by computation *)

Example scenario_single_edge :
  exists R,
    fst (edmonds_karp 12 "source" "sink" single_edge) =
    Ok (10, [("source", [("sink", 10)])]%string, R).
Proof. eexists. vm_compute. reflexivity. Qed.

Example scenario_diamond :
  exists R,
    fst (edmonds_karp 15 "source" "sink" diamond) =
    Ok (8, [("source", [("a", 3); ("b", 5)]); ("a", [("sink", 3)]);
            ("b", [("sink", 5)])]%string, R).
Proof. eexists. vm_compute. reflexivity. Qed.

Example scenario_disconnected :
  exists R,
    fst (edmonds_karp 9 "source" "sink" disconnected) =
    Ok (0, [("source", [("a", 0)]); ("b", [("sink", 0)])]%string, R).
Proof. eexists. vm_compute. reflexivity. Qed.

Example scenario_negative_capacity :
  add_edge "a" "b" (-1) diamond = (Raise ValueError, diamond).
Proof. reflexivity. Qed.

(** The network of [build_and_run] has the maximum flow that the program
    prints and reports. *)
Example build_and_run_max_flow :
  exists table, build_and_run 138 = Ok (115, table).
Proof. eexists. vm_compute. reflexivity. Qed.

(** * Further properties of the code *)

(** ** [add_edge] and the graphs it builds *)

Lemma add_edge_negative_run u v c self :
  c < 0 -> add_edge u v c self = (Raise ValueError, self).
Proof.
  intros Hc. unfold add_edge. destruct (Z.ltb_spec c 0); [reflexivity|lia].
Qed.

(** X1: a call of [add_edge] with a capacity that is not negative succeeds
    and touches the entry of its own ordered pair only: every other entry
    of the graph is as it was, no key is lost, and afterwards both
    endpoints are keys of the graph and members of the node set. *)
Theorem add_edge_frame (self : MaxFlow) (u v : string) (c : Z) :
  0 <= c ->
  exists self',
    add_edge u v c self = (Ok tt, self') /\
    entry (mf_graph self') u v = Some (capacity (mf_graph self) u v + c) /\
    (forall a b, (a, b) <> (u, v) ->
       entry (mf_graph self') a b = entry (mf_graph self) a b) /\
    (forall a, In a (keys (mf_graph self)) -> In a (keys (mf_graph self'))) /\
    In u (keys (mf_graph self')) /\ In v (keys (mf_graph self')) /\
    In u (mf_nodes self') /\ In v (mf_nodes self').
Proof.
  intros Hc. eexists. split; [now apply add_edge_run|]. cbn [mf_graph mf_nodes].
  split; [|split; [|split; [|split; [|split; [|split]]]]].
  - now rewrite entry_after_add_edge, !String.eqb_refl.
  - intros a b Hne. rewrite entry_after_add_edge.
    destruct (String.eqb_spec a u) as [->|]; simpl; [|reflexivity].
    destruct (String.eqb_spec b v) as [->|]; [congruence|reflexivity].
  - intros a Ha. apply keys_after_add_edge. tauto.
  - apply keys_after_add_edge. tauto.
  - apply keys_after_add_edge. tauto.
  - apply set_add_iff. right. apply set_add_iff. now left.
  - apply set_add_iff. now left.
Qed.

Lemma add_edge_frame_witness :
  exists self',
    add_edge "a" "c" 0 diamond = (Ok tt, self') /\
    entry (mf_graph self') "a" "c" =
      Some (capacity (mf_graph diamond) "a" "c" + 0) /\
    (forall a b, (a, b) <> ("a", "c")%string ->
       entry (mf_graph self') a b = entry (mf_graph diamond) a b) /\
    (forall a, In a (keys (mf_graph diamond)) ->
               In a (keys (mf_graph self'))) /\
    In "a"%string (keys (mf_graph self')) /\
    In "c"%string (keys (mf_graph self')) /\
    In "a"%string (mf_nodes self') /\ In "c"%string (mf_nodes self').
Proof. apply (add_edge_frame diamond "a" "c" 0). lia. Defined.

Lemma built_inv_init : built_inv init.
Proof.
  split; [apply wf_nil_graph|]. split; [intros u v c []|].
  split; [intros u v H; exfalso; now apply H|].
  split; [constructor|]. intros x. simpl. tauto.
Qed.

Lemma built_inv_add_edge self u v c :
  0 <= c -> built_inv self ->
  built_inv (snd (add_edge u v c self)).
Proof.
  intros Hc (Hwf & Hnn & Hcl & Hnd & Hnodes).
  rewrite add_edge_run by assumption. cbn [snd]. unfold built_inv.
  cbn [mf_graph mf_nodes].
  split; [now apply wf_after_add_edge|].
  split; [now apply nonneg_after_add_edge|].
  split; [now apply closed_after_add_edge|].
  split; [now do 2 apply set_add_nodup|].
  intros x. rewrite !set_add_iff, keys_after_add_edge, Hnodes. tauto.
Qed.

Lemma add_edges_inv es : forall self self',
  built_inv self -> add_edges es self = (Ok tt, self') -> built_inv self'.
Proof.
  induction es as [|[[u v] c] es IH]; intros self self' Hinv E; simpl in E.
  - unfold mret in E. congruence.
  - unfold mbind in E. destruct (Z.ltb_spec c 0) as [Hneg|Hc].
    + rewrite add_edge_negative_run in E by assumption. discriminate.
    + pose proof (built_inv_add_edge self u v c Hc Hinv) as Hinv'.
      rewrite add_edge_run in E, Hinv' by assumption. cbn [snd] in Hinv'.
      eapply IH; eassumption.
Qed.

(** X2: every object that a sequence of successful [add_edge] calls builds
    from [MaxFlow()] has dictionaries with distinct keys, capacities that
    are not negative, an entry for every endpoint of an edge, and a node
    set that holds exactly the keys of the graph. *)
Theorem add_edges_keep_invariant
    (es : list (string * string * Z)) (self : MaxFlow) :
  add_edges es init = (Ok tt, self) -> built_inv self.
Proof. apply add_edges_inv, built_inv_init. Qed.

Lemma add_edges_keep_invariant_witness : built_inv diamond.
Proof.
  apply (add_edges_keep_invariant
    [("source", "a", 5); ("source", "b", 5);
     ("a", "sink", 3); ("b", "sink", 10)]%string diamond).
  reflexivity.
Defined.

Lemma capacity_after_add_edge g u v c a b :
  capacity (graph_after_add_edge g u v c) a b =
  capacity g a b + (if is_edge a b (u, v, c) then c else 0).
Proof.
  unfold capacity at 1. rewrite entry_after_add_edge. unfold is_edge. simpl.
  rewrite (String.eqb_sym u a), (String.eqb_sym v b).
  destruct (String.eqb_spec a u) as [->|]; simpl; [|unfold capacity; lia].
  destruct (String.eqb_spec b v) as [->|]; [reflexivity|unfold capacity; lia].
Qed.

Lemma add_edges_capacity es : forall self self' a b,
  add_edges es self = (Ok tt, self') ->
  capacity (mf_graph self') a b = capacity (mf_graph self) a b + added es a b.
Proof.
  induction es as [|[[u v] c] es IH]; intros self self' a b E; simpl in E.
  - unfold mret in E. injection E as <-. unfold added. simpl. lia.
  - unfold mbind in E. destruct (Z.ltb_spec c 0) as [Hneg|Hc].
    + rewrite add_edge_negative_run in E by assumption. discriminate.
    + rewrite add_edge_run in E by assumption.
      rewrite (IH _ _ a b E). cbn [mf_graph].
      rewrite capacity_after_add_edge. unfold added. simpl. lia.
Qed.

Lemma add_edges_entry es : forall self self' a b,
  add_edges es self = (Ok tt, self') ->
  (entry (mf_graph self') a b <> None <->
   entry (mf_graph self) a b <> None \/ has_edge es a b = true).
Proof.
  induction es as [|[[u v] c] es IH]; intros self self' a b E; simpl in E.
  - unfold mret in E. injection E as <-. unfold has_edge. simpl.
    split; [tauto|]. intros [H|H]; [assumption|discriminate].
  - unfold mbind in E. destruct (Z.ltb_spec c 0) as [Hneg|Hc].
    + rewrite add_edge_negative_run in E by assumption. discriminate.
    + rewrite add_edge_run in E by assumption.
      rewrite (IH _ _ a b E). cbn [mf_graph].
      rewrite entry_after_add_edge.
      change (has_edge ((u, v, c) :: es) a b)
        with ((String.eqb u a && String.eqb v b) || has_edge es a b).
      rewrite (String.eqb_sym u a), (String.eqb_sym v b).
      destruct (String.eqb a u && String.eqb b v); simpl.
      * split; [tauto|]. intros _. left. discriminate.
      * tauto.
Qed.

(** X3: after a sequence of successful [add_edge] calls on a new object
    the capacity of an ordered pair is the sum of the capacities of all the
    calls for that pair, and the pair is an edge exactly when there was
    such a call; the order of the calls does not matter for it. *)
Theorem add_edges_sum_capacities
    (es : list (string * string * Z)) (self : MaxFlow) (u v : string) :
  add_edges es init = (Ok tt, self) ->
  capacity (mf_graph self) u v = added es u v /\
  (entry (mf_graph self) u v <> None <-> has_edge es u v = true) /\
  (forall es' self',
     Permutation es es' -> add_edges es' init = (Ok tt, self') ->
     capacity (mf_graph self') u v = capacity (mf_graph self) u v).
Proof.
  intros E. split; [|split].
  - rewrite (add_edges_capacity es init self u v E). reflexivity.
  - rewrite (add_edges_entry es init self u v E). simpl.
    split; [intros [H|H]; [now exfalso; apply H|assumption]|tauto].
  - intros es' self' Hperm E'.
    rewrite (add_edges_capacity es init self u v E).
    rewrite (add_edges_capacity es' init self' u v E'). f_equal.
    unfold added. clear - Hperm.
    induction Hperm; simpl; try lia.
Qed.

Lemma add_edges_sum_capacities_witness :
  capacity (mf_graph diamond) "b" "sink" =
    added [("source", "a", 5); ("source", "b", 5);
           ("a", "sink", 3); ("b", "sink", 10)]%string "b" "sink" /\
  (entry (mf_graph diamond) "b" "sink" <> None <->
   has_edge [("source", "a", 5); ("source", "b", 5);
             ("a", "sink", 3); ("b", "sink", 10)]%string "b" "sink" = true) /\
  (forall es' self',
     Permutation [("source", "a", 5); ("source", "b", 5);
                  ("a", "sink", 3); ("b", "sink", 10)]%string es' ->
     add_edges es' init = (Ok tt, self') ->
     capacity (mf_graph self') "b" "sink" =
     capacity (mf_graph diamond) "b" "sink").
Proof.
  apply (add_edges_sum_capacities
    [("source", "a", 5); ("source", "b", 5);
     ("a", "sink", 3); ("b", "sink", 10)]%string diamond "b" "sink").
  reflexivity.
Defined.

(** ** [_build_residual] once more *)

Lemma setitem_same {V} (d : dict V) k x : get d k = Some x -> setitem d k x = d.
Proof.
  induction d as [|[k' y] d IH]; simpl; [discriminate|].
  destruct (String.eqb_spec k k') as [->|].
  - now intros [= ->].
  - intros H. now rewrite IH.
Qed.

Lemma add_reverse_present res u v :
  entry res v u <> None -> add_reverse res u v = res.
Proof.
  unfold entry, add_reverse, setdefault.
  destruct (get res v) as [r|] eqn:Ev; [|congruence].
  destruct (get r u) as [x|] eqn:Eu; [|congruence].
  intros _. now apply setitem_same.
Qed.

Lemma reverse_rows_reciprocal R us :
  reciprocal R -> incl us (keys R) -> reverse_rows us R = Ok R.
Proof.
  intros Hrec. induction us as [|u us IH]; intros Hus; simpl; [reflexivity|].
  unfold reverse_row, getitem.
  destruct (In_keys_get R u) as [r Er]; [apply Hus; now left|].
  rewrite Er. simpl.
  assert (E : fold_left (fun acc v => add_reverse acc u v) (keys r) R = R).
  { assert (H : forall vs, incl vs (keys r) ->
      fold_left (fun acc v => add_reverse acc u v) vs R = R).
    { induction vs as [|v vs IHv]; intros Hvs; simpl; [reflexivity|].
      rewrite add_reverse_present; [apply IHv; intros a Ha; apply Hvs; now right|].
      apply Hrec. unfold entry. rewrite Er.
      destruct (In_keys_get r v) as [x ->]; [apply Hvs; now left|discriminate]. }
    apply H. intros a Ha. exact Ha. }
  rewrite E. apply IH. intros a Ha. apply Hus. now right.
Qed.

(** X4: building the residual graph of a residual graph changes nothing:
    every entry has its reverse entry already, so no entry is added and no
    value is replaced. *)
Theorem build_residual_fixed_point (g R : graph) :
  wf_graph g -> _build_residual g = Ok R -> _build_residual R = Ok R.
Proof.
  intros Hwf E.
  destruct (build_residual_spec g Hwf) as (R0 & E0 & Hwf0 & _ & Hent).
  assert (R0 = R) by congruence. subst R0.
  unfold _build_residual. rewrite copy_graph_id.
  apply reverse_rows_reciprocal.
  - eapply residual_reciprocal; eassumption.
  - intros a Ha. exact Ha.
Qed.

Lemma build_residual_fixed_point_witness :
  _build_residual
    [("a", [("b", 1)]); ("b", [("a", 1)])]%string =
  Ok [("a", [("b", 1)]); ("b", [("a", 1)])]%string.
Proof.
  apply (build_residual_fixed_point (mf_graph antiparallel)).
  - apply wf_graphb_true. reflexivity.
  - reflexivity.
Defined.

(** ** What [_bfs_augment] finds *)

Lemma chain_walk R s x l :
  chain s x l ->
  (forall p y, In (p, y) l -> exists c, entry R p y = Some c /\ 0 < c) ->
  walk R s x (List.length l).
Proof.
  induction 1 as [|p x l Hc IH]; intros H; simpl.
  - constructor.
  - destruct (H p x) as (c & E & Hpos); [now left|].
    eapply walk_snoc; [apply IH; intros; apply H; now right|eassumption|assumption].
Qed.

Lemma closed_walk R s t S x n :
  closed_set R s t S -> walk R s x n -> In x S.
Proof.
  intros (Hs & _ & Hc). induction 1; [assumption|]. eapply Hc; eassumption.
Qed.

Lemma depth_unique par x n m : depth par x n -> depth par x m -> n = m.
Proof.
  intros (l & Hl & <-) (l' & Hl' & <-).
  now rewrite (path_to_unique par x l Hl l' Hl').
Qed.

Lemma depth_app par e x n : depth par x n -> depth (par ++ e) x n.
Proof.
  intros (l & Hl & E). exists l. split; [now apply path_to_app|assumption].
Qed.

Lemma depth_key par x n : depth par x n -> In x (keys par).
Proof.
  intros (l & Hl & _). inversion Hl; subst; eapply get_Some_key; eassumption.
Qed.

Lemma depth_exists R s par x :
  ptree R s par -> In x (keys par) -> exists n, depth par x n.
Proof.
  intros Hp Hx. destruct (ptree_path R s par Hp x Hx) as (l & H & _).
  exists (List.length l), l. now split.
Qed.

Lemma depth_source R s par : ptree R s par -> depth par s 0.
Proof.
  intros Hp. exists []. split; [|reflexivity].
  apply path_root. eapply ptree_source; eassumption.
Qed.

Lemma depth_child par u v d :
  ~ In v (keys par) -> depth par u d -> depth (par ++ [(v, Some u)]) v (S d).
Proof.
  intros Hv (l & Hl & E). exists ((u, v) :: l). split; [|simpl; now rewrite E].
  apply path_step; [|now apply path_to_app].
  rewrite get_app_None by (now apply get_None). simpl.
  now rewrite String.eqb_refl.
Qed.

Lemma depth_old R s par e x n :
  ptree R s par -> In x (keys par) -> depth (par ++ e) x n -> depth par x n.
Proof.
  intros Hp Hx Hd. destruct (depth_exists R s par x Hp Hx) as [m Hm].
  now rewrite (depth_unique _ _ _ _ Hd (depth_app par e x m Hm)).
Qed.

Lemma scanned_app R s par v u x :
  ptree R s par -> In x (keys par) -> scanned R par x ->
  scanned R (par ++ [(v, Some u)]) x.
Proof.
  intros Hp Hx Hsc w c E Hc. destruct (Hsc w c E Hc) as [Hw Hd]. split.
  - rewrite keys_app. apply in_app_iff. now left.
  - intros dx dw Hdx Hdw. apply Hd; eapply depth_old; eassumption.
Qed.

Lemma levels_snoc R s par u q d v :
  ptree R s par -> ~ In v (keys par) ->
  levels R par u q d -> levels R (par ++ [(v, Some u)]) u (q ++ [v]) d.
Proof.
  intros Hp Hv (Hu & Hmax & Hsc & qa & qb & Eq & Ha & Hb).
  assert (Hvd : depth (par ++ [(v, Some u)]) v (S d)) by now apply depth_child.
  split; [now apply depth_app|]. split; [|split].
  - intros x dx Hx. pose proof (depth_key _ _ _ Hx) as Hk.
    rewrite keys_app in Hk. apply in_app_iff in Hk as [Hk|[<-|[]]].
    + apply (Hmax x). eapply depth_old; eassumption.
    + rewrite (depth_unique _ _ _ _ Hx Hvd). lia.
  - intros x Hk. rewrite keys_app in Hk.
    apply in_app_iff in Hk as [Hk|[<-|[]]].
    + destruct (Hsc x Hk) as [->|[Hq|Hs]];
        [now left|right; left; apply in_app_iff; now left|].
      right. right. eapply scanned_app; eassumption.
    + right. left. apply in_app_iff. right. now left.
  - exists qa, (qb ++ [v]). split; [rewrite Eq; now rewrite app_assoc|]. split.
    + intros x Hx. apply depth_app. now apply Ha.
    + intros x Hx. apply in_app_iff in Hx as [Hx|[<-|[]]];
        [apply depth_app; now apply Hb|assumption].
Qed.

Lemma walk_in_tree R s par u q d :
  ptree R s par -> levels R par u q d ->
  forall x n, walk R s x n -> (n <= d)%nat ->
  exists dx, depth par x dx /\ (dx <= n)%nat.
Proof.
  intros Hp (Hu & Hmax & Hsc & qa & qb & Eq & Ha & Hb).
  induction 1 as [|w v c n Hw IH E Hc]; intros Hn.
  - exists 0%nat. split; [eapply depth_source; eassumption|lia].
  - destruct IH as (dw & Hdw & Hle); [lia|].
    assert (Hs : scanned R par w).
    { destruct (Hsc w (depth_key _ _ _ Hdw)) as [->|[Hq|Hs]]; [| |assumption].
      - pose proof (depth_unique _ _ _ _ Hdw Hu). lia.
      - rewrite Eq in Hq. apply in_app_iff in Hq as [Hq|Hq].
        + pose proof (depth_unique _ _ _ _ Hdw (Ha _ Hq)). lia.
        + pose proof (depth_unique _ _ _ _ Hdw (Hb _ Hq)). lia. }
    destruct (Hs v c E Hc) as [Hv Hd].
    destruct (depth_exists R s par v Hp Hv) as [dv Hdv].
    exists dv. split; [assumption|]. specialize (Hd dw dv Hdw Hdv). lia.
Qed.

Lemma levels_next R par u q d :
  levels R par u q d ->
  (forall v c, entry R u v = Some c -> 0 < c -> In v (keys par)) ->
  q = [] \/ exists u2 q2 d2, q = u2 :: q2 /\ levels R par u2 q2 d2.
Proof.
  intros (Hu & Hmax & Hsc & qa & qb & Eq & Ha & Hb) Hrow.
  destruct q as [|u2 q2]; [now left|right].
  assert (Hdone : scanned R par u).
  { intros v c E Hc. split; [eapply Hrow; eassumption|].
    intros dx dv Hdx Hdv. rewrite (depth_unique _ _ _ _ Hdx Hu).
    eapply Hmax; eassumption. }
  assert (Hsc' : forall x, In x (keys par) ->
            x = u2 \/ In x q2 \/ scanned R par x).
  { intros x Hx. destruct (Hsc x Hx) as [->|[[<-|Hq]|Hs]]; auto. }
  destruct qa as [|a qa'].
  - simpl in Eq. subst qb. exists u2, q2, (S d). split; [reflexivity|].
    split; [apply Hb; now left|]. split; [|split; [exact Hsc'|]].
    + intros x dx Hx. specialize (Hmax x dx Hx). lia.
    + exists q2, []. split; [now rewrite app_nil_r|]. split.
      * intros x Hx. apply Hb. now right.
      * intros x [].
  - simpl in Eq. injection Eq as <- ->. exists u2, (qa' ++ qb), d.
    split; [reflexivity|]. split; [apply Ha; now left|].
    split; [exact Hmax|]. split; [exact Hsc'|].
    exists qa', qb. split; [reflexivity|]. split; [|exact Hb].
    intros x Hx. apply Ha. now right.
Qed.

Section SearchLevels.
Variables (R : graph) (s t : string) (fuel0 : nat).
Hypothesis Hwf : wf_graph R.
Hypothesis Hrec : reciprocal R.
Hypothesis Hs : In s (keys R).
Hypothesis Hfuel : (List.length (keys R) <= fuel0)%nat.

Lemma scan_row_levels u d items : forall par q,
  ptree R s par -> In u (keys par) ->
  (forall v c, In (v, c) items -> entry R u v = Some c) ->
  levels R par u q d ->
  match scan_row fuel0 R t u items par q with
  | Ok (Found pr) => found_inv fuel0 R s t pr
  | Ok (Next par' q') => levels R par' u q' d
  | _ => True
  end.
Proof.
  induction items as [|[v cap] items IH]; intros par q Hp Hu He Hlv; simpl.
  - assumption.
  - assert (Hev : entry R u v = Some cap) by (apply He; now left).
    assert (He' : forall w c, In (w, c) items -> entry R u w = Some c)
      by (intros; apply He; now right).
    destruct (contains par v) eqn:Ec; simpl; [now apply IH|].
    apply contains_false in Ec.
    destruct (Z.ltb_spec 0 cap) as [Hcap|Hcap]; [|now apply IH].
    assert (Hp' : ptree R s (par ++ [(v, Some u)]))
      by (eapply ptree_snoc; eassumption).
    rewrite setitem_absent by assumption.
    destruct (String.eqb_spec v t) as [->|Hvt].
    + destruct (sink_reached R s t fuel0 Hwf Hrec Hs Hfuel par u cap
                  Hp Hu Ec Hev Hcap) as (m & E & _).
      rewrite setitem_absent in E by assumption. rewrite E. simpl.
      split; [exact Hp'|]. split; [exact E|]. simpl.
      intros l n Hl Hw.
      assert (Hd : depth (par ++ [(t, Some u)]) t (S d))
        by (apply depth_child; [assumption|apply Hlv]).
      assert (El : List.length l = S d).
      { apply (depth_unique (par ++ [(t, Some u)]) t); [|assumption].
        exists l. now split. }
      rewrite El. destruct (Nat.le_gt_cases n d) as [Hn|Hn]; [|lia].
      destruct (walk_in_tree R s par u q d Hp Hlv t n Hw Hn) as (dx & Hdx & _).
      exfalso. apply Ec. eapply depth_key; eassumption.
    + apply IH; try assumption.
      * rewrite keys_app. apply in_app_iff. now left.
      * eapply levels_snoc; eassumption.
Qed.

Lemma bfs_loop_levels : forall fuel par q,
  ptree R s par -> (t = s \/ ~ In t (keys par)) ->
  incl q (keys par) ->
  (q = [] \/ exists u q' d, q = u :: q' /\ levels R par u q' d) ->
  forall pr,
    bfs_loop fuel0 fuel R t par q = Ok (Some pr) -> found_inv fuel0 R s t pr.
Proof.
  induction fuel as [|fuel IH]; intros par q Hp Ht Hq Hlv pr;
    destruct q as [|u q']; simpl; try discriminate.
  destruct Hlv as [Hlv|(u0 & q0 & d & [= <- <-] & Hlv)]; [discriminate|].
  assert (Hu : In u (keys par)) by (apply Hq; now left).
  unfold getitem. destruct (get R u) as [r|] eqn:Er; [simpl|discriminate].
  assert (Hr : forall v c, In (v, c) r -> entry R u v = Some c).
  { intros v c Hin. unfold entry. rewrite Er. apply In_get; [|assumption].
    eapply wf_graph_row; eassumption. }
  pose proof (scan_row_spec R s t fuel0 Hwf Hrec Hs Hfuel u r par q'
                Hp Hu Hr Ht) as Hscan.
  pose proof (scan_row_levels u d r par q' Hp Hu Hr Hlv) as Hscl.
  destruct (scan_row fuel0 R t u r par q') as [[pr'|par' q'']| |];
    try discriminate.
  - intros [= <-]. exact Hscl.
  - destruct Hscan as (I1 & I2 & (new & I3 & I4) & I5).
    apply IH; try assumption.
    + rewrite I3, I4. intros a Ha. apply in_app_iff in Ha. apply in_app_iff.
      destruct Ha as [Ha|Ha]; [left; apply Hq; now right|now right].
    + apply (levels_next R par' u q'' d Hscl).
      intros v c Hv Hpos. apply (I5 v c); [|assumption].
      unfold entry in Hv. rewrite Er in Hv. now apply get_In.
Qed.

Lemma bfs_augment_found_inv pr :
  _bfs_augment fuel0 R s t = Ok (Some pr) -> found_inv fuel0 R s t pr.
Proof.
  unfold _bfs_augment. apply bfs_loop_levels.
  - constructor.
  - destruct (string_dec t s) as [->|Hne]; [now left|right].
    simpl. intros [E|[]]. congruence.
  - intros a Ha. exact Ha.
  - right. exists s, [], 0%nat. split; [reflexivity|].
    assert (Hd : depth [(s, None)] s 0)
      by (apply (depth_source R s); constructor).
    split; [exact Hd|]. split; [|split].
    + intros x dx Hx. pose proof (depth_key _ _ _ Hx) as [<-|[]].
      rewrite (depth_unique _ _ _ _ Hx Hd). lia.
    + intros x [<-|[]]. now left.
    + exists [], []. split; [reflexivity|]. split; intros x [].
Qed.

End SearchLevels.

Lemma reciprocalb_true R : reciprocalb R = true -> reciprocal R.
Proof.
  unfold reciprocalb. rewrite forallb_forall. intros H u v Huv.
  unfold entry in Huv.
  destruct (get R u) as [r|] eqn:Eu; [|congruence].
  destruct (get r v) as [c|] eqn:Ev; [|congruence].
  assert (Hin : In (u, v, c) (edges R)).
  { apply In_edges. exists r. split; now apply get_In. }
  specialize (H _ Hin). simpl in H.
  destruct (entry R v u); [discriminate|discriminate H].
Qed.

(** X5: on a residual graph that holds the source, the search always
    returns, and it returns a path exactly when the sink is another node
    that a walk over entries of positive residual capacity reaches from the
    source; otherwise it returns [None]. *)
Theorem search_decides_reachability (R : graph) (s t : string) (fuel : nat) :
  wf_graph R -> reciprocal R -> In s (keys R) ->
  (List.length (keys R) <= fuel)%nat ->
  (_bfs_augment fuel R s t = Ok None /\ ~ (t <> s /\ reach R s t)) \/
  (exists pr,
     _bfs_augment fuel R s t = Ok (Some pr) /\ t <> s /\ reach R s t).
Proof.
  intros Hwf Hrec Hs Hf.
  pose proof (bfs_augment_spec R s t fuel Hwf Hrec Hs Hf) as H.
  destruct (_bfs_augment fuel R s t) as [[pr|]| |] eqn:E; try contradiction.
  - right. exists pr. split; [reflexivity|].
    destruct H as (Hts & l & H1 & H2 & H3 & H4 & H5 & H6 & H7).
    split; [assumption|]. exists (List.length l).
    apply chain_walk; [assumption|].
    intros p y Hin. destruct (H7 p y Hin) as (c & Ec & Hc & _).
    exists c. split; [assumption|lia].
  - left. split; [reflexivity|]. destruct H as [S HS]. intros [Hts [n Hw]].
    apply (proj1 (proj2 HS) Hts). eapply closed_walk; eassumption.
Qed.

Lemma search_decides_reachability_witness :
  (_bfs_augment 2 [("a", [("b", 1)]); ("b", [("a", 0)])]%string "b" "a"
     = Ok None /\
   ~ ("a"%string <> "b"%string /\
      reach [("a", [("b", 1)]); ("b", [("a", 0)])]%string "b" "a")) \/
  (exists pr,
     _bfs_augment 2 [("a", [("b", 1)]); ("b", [("a", 0)])]%string "b" "a"
       = Ok (Some pr) /\
     "a"%string <> "b"%string /\
     reach [("a", [("b", 1)]); ("b", [("a", 0)])]%string "b" "a").
Proof.
  apply (search_decides_reachability
           [("a", [("b", 1)]); ("b", [("a", 0)])]%string "b" "a" 2).
  - apply wf_graphb_true. reflexivity.
  - apply reciprocalb_true. reflexivity.
  - simpl. auto.
  - simpl. lia.
Defined.

(** X6: the path that the search returns is a shortest one: its edges
    have positive residual capacity, and no walk from the source to the
    sink over entries of positive residual capacity has fewer edges. *)
Theorem search_returns_shortest_path
    (R : graph) (s t : string) (fuel : nat) (pr : _PathResult) :
  wf_graph R -> reciprocal R -> In s (keys R) ->
  (List.length (keys R) <= fuel)%nat ->
  _bfs_augment fuel R s t = Ok (Some pr) ->
  exists l,
    path_to (parent pr) t l /\ chain s t l /\
    (forall p y, In (p, y) l -> 0 < capacity R p y) /\
    walk R s t (List.length l) /\
    forall n, walk R s t n -> (List.length l <= n)%nat.
Proof.
  intros Hwf Hrec Hs Hf E.
  pose proof (bfs_augment_spec R s t fuel Hwf Hrec Hs Hf) as H.
  rewrite E in H.
  destruct H as (Hts & l & H1 & H2 & H3 & H4 & H5 & H6 & H7).
  destruct (bfs_augment_found_inv R s t fuel Hwf Hrec Hs Hf pr E)
    as (_ & _ & Hmin).
  exists l. split; [assumption|]. split; [assumption|]. split; [|split].
  - intros p y Hin. destruct (H7 p y Hin) as (c & Ec & Hc & _).
    rewrite (entry_capacity _ _ _ _ Ec). lia.
  - apply chain_walk; [assumption|].
    intros p y Hin. destruct (H7 p y Hin) as (c & Ec & Hc & _).
    exists c. split; [assumption|lia].
  - intros n Hn. now apply Hmin.
Qed.

Lemma search_returns_shortest_path_witness :
  exists l,
    path_to [("s", None); ("a", Some "s"); ("b", Some "s"); ("t", Some "a")]%string
      "t" l /\
    chain "s" "t" l /\
    (forall p y, In (p, y) l ->
       0 < capacity
             [("s", [("a", 1); ("b", 1)]); ("a", [("s", 0); ("t", 1)]);
              ("t", [("a", 0); ("b", 0)]); ("b", [("s", 0); ("t", 1)])]%string
             p y) /\
    walk [("s", [("a", 1); ("b", 1)]); ("a", [("s", 0); ("t", 1)]);
          ("t", [("a", 0); ("b", 0)]); ("b", [("s", 0); ("t", 1)])]%string
         "s" "t" (List.length l) /\
    forall n,
      walk [("s", [("a", 1); ("b", 1)]); ("a", [("s", 0); ("t", 1)]);
            ("t", [("a", 0); ("b", 0)]); ("b", [("s", 0); ("t", 1)])]%string
           "s" "t" n ->
      (List.length l <= n)%nat.
Proof.
  apply (search_returns_shortest_path
           [("s", [("a", 1); ("b", 1)]); ("a", [("s", 0); ("t", 1)]);
            ("t", [("a", 0); ("b", 0)]); ("b", [("s", 0); ("t", 1)])]%string
           "s" "t" 4
           (mkPathResult 1
              [("s", None); ("a", Some "s"); ("b", Some "s");
               ("t", Some "a")]%string)).
  - apply wf_graphb_true. reflexivity.
  - apply reciprocalb_true. reflexivity.
  - simpl. auto.
  - simpl. lia.
  - reflexivity.
Defined.

(** ** The bottleneck and the augmentation *)

Lemma path_min_attained_from R l : forall z m,
  path_min R l (Int z) = Int m ->
  m = z \/ exists p y, In (p, y) l /\ capacity R p y = m.
Proof.
  induction l as [|[p y] l IH]; intros z m E.
  - left. unfold path_min in E. simpl in E. congruence.
  - change (path_min R l (Int (Z.min z (capacity R p y))) = Int m) in E.
    destruct (IH _ _ E) as [->|(a & b & Hin & Hc)].
    + destruct (Z.min_spec z (capacity R p y)) as [[_ ->]|[_ ->]];
        [now left|right].
      exists p, y. split; [now left|reflexivity].
    + right. exists a, b. split; [now right|assumption].
Qed.

Lemma path_min_attained R l m :
  path_min R l Inf = Int m ->
  exists p y, In (p, y) l /\ capacity R p y = m.
Proof.
  destruct l as [|[p y] l]; [discriminate|]. intros E.
  change (path_min R l (Int (capacity R p y)) = Int m) in E.
  destruct (path_min_attained_from R l _ _ E) as [->|(a & b & Hin & Hc)].
  - exists p, y. split; [now left|reflexivity].
  - exists a, b. split; [now right|assumption].
Qed.

Lemma path_to_suffix par x l p y :
  path_to par x l -> In (p, y) l -> exists l', path_to par y ((p, y) :: l').
Proof.
  induction 1 as [x Hx|x p0 l Hx Hp IH]; intros Hin; [destruct Hin|].
  destruct Hin as [[= -> ->]|Hin]; [|now apply IH].
  exists l. now apply path_step.
Qed.

Lemma path_to_one_way par x l p y :
  path_to par x l -> In (p, y) l -> ~ In (y, p) l.
Proof.
  intros Hl H1 H2.
  destruct (path_to_suffix par x l p y Hl H1) as [l1 P1].
  destruct (path_to_suffix par x l y p Hl H2) as [l2 P2].
  inversion P1 as [|? ? ? G1 Q1]; subst.
  inversion P2 as [|? ? ? G2 Q2]; subst.
  pose proof (path_to_unique par p l1 Q1 _ P2) as E1.
  pose proof (path_to_unique par y l2 Q2 _ P1) as E2.
  apply (f_equal (@List.length _)) in E1, E2. simpl in E1, E2. lia.
Qed.

Lemma capacity_push_path_off l aug a b : forall R,
  (forall p y, In (p, y) l -> p <> y) ->
  ~ In (a, b) l -> ~ In (b, a) l ->
  capacity (push_path R l aug) a b = capacity R a b.
Proof.
  induction l as [|[p y] l IH]; intros R Hne H1 H2; [reflexivity|].
  rewrite push_path_cons, IH;
    [|intros; apply Hne; now right|intros H; apply H1; now right
     |intros H; apply H2; now right].
  rewrite capacity_push_edge by (apply Hne; now left).
  assert (E1 : (String.eqb a p && String.eqb b y)%bool = false).
  { destruct (String.eqb_spec a p) as [->|]; [|reflexivity].
    destruct (String.eqb_spec b y) as [->|]; [|reflexivity].
    exfalso. apply H1. now left. }
  assert (E2 : (String.eqb a y && String.eqb b p)%bool = false).
  { destruct (String.eqb_spec a y) as [->|]; [|reflexivity].
    destruct (String.eqb_spec b p) as [->|]; [|reflexivity].
    exfalso. apply H2. now left. }
  rewrite E1, E2. lia.
Qed.

Lemma capacity_push_path_on l aug a b : forall R,
  (forall p y, In (p, y) l -> p <> y) -> NoDup l ->
  In (a, b) l -> ~ In (b, a) l ->
  capacity (push_path R l aug) a b = capacity R a b - aug.
Proof.
  induction l as [|[p y] l IH]; intros R Hne Hnd H1 H2; [destruct H1|].
  assert (Hab : a <> b) by now apply Hne.
  inversion Hnd as [|? ? Hnotin Hnd']; subst.
  rewrite push_path_cons.
  assert (Hne' : forall p0 y0, In (p0, y0) l -> p0 <> y0)
    by (intros; apply Hne; now right).
  assert (H2' : ~ In (b, a) l) by (intros H; apply H2; now right).
  assert (Hrev : (String.eqb a y && String.eqb b p)%bool = false).
  { destruct (String.eqb_spec a y) as [->|]; [|reflexivity].
    destruct (String.eqb_spec b p) as [->|]; [|reflexivity].
    exfalso. apply H2. now left. }
  destruct H1 as [[= -> ->]|H1].
  - rewrite capacity_push_path_off by assumption.
    rewrite capacity_push_edge by assumption.
    rewrite !String.eqb_refl, Hrev. simpl. lia.
  - rewrite IH by assumption.
    rewrite capacity_push_edge by (apply Hne; now left).
    rewrite Hrev.
    destruct (String.eqb_spec a p) as [->|]; [|simpl; lia].
    destruct (String.eqb_spec b y) as [->|]; [|simpl; lia].
    contradiction.
Qed.

(** X7: the bottleneck that the search returns is the least residual
    capacity on the path it found: it is positive, no edge of the path has
    less, and some edge of the path has exactly that much. *)
Theorem bottleneck_is_least_on_path
    (R : graph) (s t : string) (fuel : nat) (pr : _PathResult) :
  wf_graph R -> reciprocal R -> In s (keys R) ->
  (List.length (keys R) <= fuel)%nat ->
  _bfs_augment fuel R s t = Ok (Some pr) ->
  exists l,
    path_to (parent pr) t l /\
    0 < bottleneck pr /\
    (forall p y, In (p, y) l -> bottleneck pr <= capacity R p y) /\
    (exists p y, In (p, y) l /\ capacity R p y = bottleneck pr).
Proof.
  intros Hwf Hrec Hs Hf E.
  pose proof (bfs_augment_spec R s t fuel Hwf Hrec Hs Hf) as H.
  rewrite E in H.
  destruct H as (Hts & l & H1 & H2 & H3 & H4 & H5 & H6 & H7).
  destruct (bfs_augment_found_inv R s t fuel Hwf Hrec Hs Hf pr E)
    as (_ & Hwalk & _).
  exists l. split; [assumption|]. split; [assumption|]. split.
  - intros p y Hin. destruct (H7 p y Hin) as (c & Ec & Hc & _).
    now rewrite (entry_capacity _ _ _ _ Ec).
  - apply path_min_attained.
    rewrite (walk_run R (parent pr) t l H1 fuel Inf) in Hwalk; [congruence|lia|].
    intros p y Hin. destruct (H7 p y Hin) as (c & -> & _). discriminate.
Qed.

Lemma bottleneck_is_least_on_path_witness :
  exists l,
    path_to [("s", None); ("a", Some "s"); ("t", Some "a")]%string "t" l /\
    0 < 2 /\
    (forall p y, In (p, y) l ->
       2 <= capacity
              [("s", [("a", 5)]); ("a", [("s", 0); ("t", 2)]);
               ("t", [("a", 0)])]%string p y) /\
    (exists p y, In (p, y) l /\
       capacity
         [("s", [("a", 5)]); ("a", [("s", 0); ("t", 2)]);
          ("t", [("a", 0)])]%string p y = 2).
Proof.
  apply (bottleneck_is_least_on_path
           [("s", [("a", 5)]); ("a", [("s", 0); ("t", 2)]);
            ("t", [("a", 0)])]%string
           "s" "t" 3
           (mkPathResult 2
              [("s", None); ("a", Some "s"); ("t", Some "a")]%string)).
  - apply wf_graphb_true. reflexivity.
  - apply reciprocalb_true. reflexivity.
  - simpl. auto.
  - simpl. lia.
  - reflexivity.
Defined.

(** X8: the augmentation along the path found succeeds and changes the
    residual graph in this way only: every edge of the path loses the
    bottleneck, its reverse entry gains it, every other entry keeps its
    value, no entry is added, and one edge of the path is left with
    residual capacity [0]. *)
Theorem augmentation_saturates_an_edge
    (R : graph) (s t : string) (fuel : nat) (pr : _PathResult) :
  wf_graph R -> reciprocal R -> In s (keys R) ->
  (List.length (keys R) <= fuel)%nat ->
  _bfs_augment fuel R s t = Ok (Some pr) ->
  exists l R',
    path_to (parent pr) t l /\
    push fuel R (parent pr) t (bottleneck pr) = Ok R' /\
    shape R' = shape R /\
    (forall p y, In (p, y) l ->
       capacity R' p y = capacity R p y - bottleneck pr /\
       capacity R' y p = capacity R y p + bottleneck pr) /\
    (forall a b, ~ In (a, b) l -> ~ In (b, a) l ->
       capacity R' a b = capacity R a b) /\
    (exists p y, In (p, y) l /\ capacity R' p y = 0).
Proof.
  intros Hwf Hrec Hs Hf E.
  pose proof (bfs_augment_spec R s t fuel Hwf Hrec Hs Hf) as H.
  rewrite E in H.
  destruct H as (Hts & l & H1 & H2 & H3 & H4 & H5 & H6 & H7).
  destruct (bfs_augment_found_inv R s t fuel Hwf Hrec Hs Hf pr E)
    as (_ & Hwalk & _).
  set (aug := bottleneck pr) in *.
  assert (He : forall p y, In (p, y) l ->
            entry R p y <> None /\ entry R y p <> None).
  { intros p y Hin. destruct (H7 p y Hin) as (c & Ec & _).
    assert (entry R p y <> None) by congruence. split; [assumption|].
    now apply Hrec. }
  assert (Hne : forall p y, In (p, y) l -> p <> y).
  { intros p y Hin. destruct (H7 p y Hin) as (c & _ & _ & Hpy). exact Hpy. }
  assert (Hnd : NoDup l) by (eapply NoDup_map_inv; eassumption).
  assert (Hon : forall p y, In (p, y) l ->
            capacity (push_path R l aug) p y = capacity R p y - aug).
  { intros p y Hin. apply capacity_push_path_on; try assumption.
    eapply path_to_one_way; eassumption. }
  exists l, (push_path R l aug). split; [assumption|]. split.
  { apply push_run; [assumption|lia|assumption]. }
  split; [now apply shape_push_path|]. split; [|split].
  - intros p y Hin. split; [now apply Hon|].
    pose proof (skew_push_path l aug R p y Hne) as Hsk.
    rewrite (Hon p y Hin) in Hsk. lia.
  - intros a b Ha Hb. now apply capacity_push_path_off.
  - assert (Hatt : exists p y, In (p, y) l /\ capacity R p y = aug).
    { apply path_min_attained.
      rewrite (walk_run R (parent pr) t l H1 fuel Inf) in Hwalk;
        [congruence|lia|].
      intros p y Hin. destruct (He p y Hin) as [Hpy _]. exact Hpy. }
    destruct Hatt as (p & y & Hin & Hc). exists p, y. split; [assumption|].
    rewrite (Hon p y Hin). lia.
Qed.

Lemma augmentation_saturates_an_edge_witness :
  exists l R',
    path_to [("s", None); ("a", Some "s"); ("t", Some "a")]%string "t" l /\
    push 3 [("s", [("a", 5)]); ("a", [("s", 0); ("t", 2)]);
            ("t", [("a", 0)])]%string
         [("s", None); ("a", Some "s"); ("t", Some "a")]%string "t" 2
      = Ok R' /\
    shape R' =
    shape [("s", [("a", 5)]); ("a", [("s", 0); ("t", 2)]);
           ("t", [("a", 0)])]%string /\
    (forall p y, In (p, y) l ->
       capacity R' p y =
       capacity [("s", [("a", 5)]); ("a", [("s", 0); ("t", 2)]);
                 ("t", [("a", 0)])]%string p y - 2 /\
       capacity R' y p =
       capacity [("s", [("a", 5)]); ("a", [("s", 0); ("t", 2)]);
                 ("t", [("a", 0)])]%string y p + 2) /\
    (forall a b, ~ In (a, b) l -> ~ In (b, a) l ->
       capacity R' a b =
       capacity [("s", [("a", 5)]); ("a", [("s", 0); ("t", 2)]);
                 ("t", [("a", 0)])]%string a b) /\
    (exists p y, In (p, y) l /\ capacity R' p y = 0).
Proof.
  apply (augmentation_saturates_an_edge
           [("s", [("a", 5)]); ("a", [("s", 0); ("t", 2)]);
            ("t", [("a", 0)])]%string
           "s" "t" 3
           (mkPathResult 2
              [("s", None); ("a", Some "s"); ("t", Some "a")]%string)).
  - apply wf_graphb_true. reflexivity.
  - apply reciprocalb_true. reflexivity.
  - simpl. auto.
  - simpl. lia.
  - reflexivity.
Defined.

(** ** What [edmonds_karp] returns *)

Lemma edmonds_karp_result g s t fuel total fm R :
  wf_graph g -> nonneg_graph g -> (fuel_bound g s <= fuel)%nat ->
  edmonds_karp_on fuel g s t = Ok (total, fm, R) ->
  exists R0,
    _build_residual g = Ok R0 /\ wf_graph R0 /\
    (forall u v, entry R0 u v = residual_entry g u v) /\
    In s (keys R0) /\
    flow_inv R0 R s t total /\ 0 <= total /\
    (exists S, closed_set R s t S) /\
    wf_graph fm /\ (forall a b, entry fm a b = flow_entry g R a b).
Proof.
  intros Hwf Hnn Hfuel E.
  destruct (in_dec string_dec s (node_list g)) as [Hs|Hs].
  - destruct (edmonds_karp_run g s t fuel Hwf Hnn Hs Hfuel)
      as (R0 & total' & R' & fm' & E0 & Hwf0 & Hent & E' & Hinv & Htot & Hcl
          & Hwfm & Hfm).
    rewrite E in E'. injection E' as <- <- <-.
    exists R0. rewrite <- (node_list_residual g R0 E0). tauto.
  - rewrite (edmonds_karp_absent_source fuel g s t Hwf) in E;
      [discriminate| |assumption].
    pose proof (fuel_bound_pos g s). lia.
Qed.

Lemma in_capacity_grid g N t :
  wf_graph g -> NoDup N ->
  (forall u v, entry g u v <> None -> In u N /\ In v N) ->
  in_capacity g t = zsum (fun u => capacity g u t) N.
Proof.
  intros Hwf HN Hnodes. unfold in_capacity.
  pose proof (zsum_edges_grid g N
    (fun _ v c => if String.eqb v t then c else 0) Hwf HN Hnodes) as Hgrid.
  simpl in Hgrid. rewrite Hgrid. apply zsum_ext. intros u Hu.
  rewrite (zsum_ext _ (fun v => if String.eqb v t then capacity g u v else 0)).
  - rewrite (zsum_single N t (fun v => capacity g u v)) by assumption.
    destruct (in_dec string_dec t N) as [Hn|Hn]; [reflexivity|].
    unfold capacity. destruct (entry g u t) eqn:E; [|reflexivity].
    exfalso. apply Hn. apply (Hnodes u t). congruence.
  - intros v _. unfold capacity.
    destruct (entry g u v); [reflexivity|]. now destruct (String.eqb v t).
Qed.

Lemma matrix_flow_range g R0 R fm s t total u v :
  wf_graph g -> nonneg_graph g -> flow_inv R0 R s t total ->
  (forall a b, entry fm a b = flow_entry g R a b) ->
  0 <= matrix_flow fm u v <= capacity g u v.
Proof.
  intros Hwf Hnn Hinv Hfm. destruct (entry g u v) as [c|] eqn:E.
  - rewrite (entry_capacity g u v c E).
    exact (matrix_flow_bounds g R0 R fm s t total Hwf Hnn Hinv Hfm u v c E).
  - unfold matrix_flow. rewrite (capacity_none g u v E).
    rewrite (capacity_none fm u v); [lia|].
    rewrite Hfm. unfold flow_entry. now rewrite E.
Qed.

(** X9: when the source and the sink differ, the flow matrix returned
    carries the total flow out of the source and into the sink: the outflow
    of the source exceeds its inflow by the total, the inflow of the sink
    exceeds its outflow by the total, and the total is at most the capacity
    of the edges that enter the sink. *)
Theorem flow_arrives_at_sink
    (g : graph) (s t : string) (fuel : nat) (total : Z) (fm R : graph) :
  wf_graph g -> nonneg_graph g -> (fuel_bound g s <= fuel)%nat ->
  s <> t ->
  edmonds_karp_on fuel g s t = Ok (total, fm, R) ->
  outflow fm s - inflow fm s = total /\
  inflow fm t - outflow fm t = total /\
  0 <= total <= in_capacity g t.
Proof.
  intros Hwf Hnn Hfuel Hst E.
  destruct (edmonds_karp_result g s t fuel total fm R Hwf Hnn Hfuel E)
    as (R0 & E0 & Hwf0 & Hent & Hs & Hinv & Htot & _ & Hwfm & Hfm).
  pose proof (matrix_balance g R0 R fm s t total Hwf0 Hent Hinv Hwfm Hfm s) as Bs.
  pose proof (matrix_balance g R0 R fm s t total Hwf0 Hent Hinv Hwfm Hfm t) as Bt.
  rewrite String.eqb_refl in Bs, Bt.
  destruct (String.eqb_spec s t) as [|_]; [contradiction|].
  destruct (String.eqb_spec t s) as [|_]; [congruence|].
  unfold b2z in Bs, Bt.
  split; [lia|]. split; [lia|]. split; [assumption|].
  assert (Hin : inflow fm t <= in_capacity g t).
  { rewrite (inflow_grid g R0 R fm Hwf0 Hent Hwfm Hfm t).
    rewrite (in_capacity_grid g (keys R0) t Hwf (proj1 Hwf0)
               (graph_nodes g R0 Hent)).
    apply zsum_le. intros u _.
    apply (matrix_flow_range g R0 R fm s t total u t Hwf Hnn Hinv Hfm). }
  assert (Hout : 0 <= outflow fm t).
  { rewrite (outflow_grid g R0 R fm Hwf0 Hent Hwfm Hfm t).
    apply zsum_nonneg. intros v _.
    apply (matrix_flow_range g R0 R fm s t total t v Hwf Hnn Hinv Hfm). }
  lia.
Qed.

Lemma flow_arrives_at_sink_witness :
  outflow [("source", [("a", 3); ("b", 5)]); ("a", [("sink", 3)]);
           ("b", [("sink", 5)])]%string "source"
  - inflow [("source", [("a", 3); ("b", 5)]); ("a", [("sink", 3)]);
            ("b", [("sink", 5)])]%string "source" = 8 /\
  inflow [("source", [("a", 3); ("b", 5)]); ("a", [("sink", 3)]);
          ("b", [("sink", 5)])]%string "sink"
  - outflow [("source", [("a", 3); ("b", 5)]); ("a", [("sink", 3)]);
             ("b", [("sink", 5)])]%string "sink" = 8 /\
  0 <= 8 <= in_capacity (mf_graph diamond) "sink".
Proof.
  apply (flow_arrives_at_sink (mf_graph diamond) "source" "sink" 15 8
           [("source", [("a", 3); ("b", 5)]); ("a", [("sink", 3)]);
            ("b", [("sink", 5)])]%string
           (snd (match edmonds_karp_on 15 (mf_graph diamond) "source" "sink"
                 with Ok x => x | _ => (0, [], []) end))).
  - apply wf_graphb_true. reflexivity.
  - apply nonneg_graphb_true. reflexivity.
  - vm_compute. lia.
  - discriminate.
  - vm_compute. reflexivity.
Defined.

(** X10: the residual graph returned has the entries of the residual graph
    built at the start and no others, the two residual capacities of a pair
    of nodes still add up to the two capacities of the graph, and the search
    finds nothing more in it: no walk over entries of positive residual
    capacity leads from the source to another sink. *)
Theorem final_residual_graph
    (g : graph) (s t : string) (fuel : nat) (total : Z) (fm R : graph) :
  wf_graph g -> nonneg_graph g -> (fuel_bound g s <= fuel)%nat ->
  edmonds_karp_on fuel g s t = Ok (total, fm, R) ->
  exists R0,
    _build_residual g = Ok R0 /\ shape R = shape R0 /\
    (forall u v,
       capacity R u v + capacity R v u = capacity g u v + capacity g v u) /\
    _bfs_augment fuel R s t = Ok None /\
    (t <> s -> ~ reach R s t).
Proof.
  intros Hwf Hnn Hfuel E.
  destruct (edmonds_karp_result g s t fuel total fm R Hwf Hnn Hfuel E)
    as (R0 & E0 & Hwf0 & Hent & Hs & Hinv & Htot & [S HS] & Hwfm & Hfm).
  exists R0. split; [assumption|]. split; [apply Hinv|]. split; [|split].
  - intros u v. destruct Hinv as (_ & _ & Hskew & _).
    rewrite (Hskew u v). now rewrite !(residual_capacity g R0 Hent).
  - destruct (edmonds_karp_reaches fuel g s t total fm R E) as (k & _ & Hn).
    exact Hn.
  - intros Hts [n Hw]. apply (proj1 (proj2 HS) Hts).
    eapply closed_walk; eassumption.
Qed.

Lemma final_residual_graph_witness :
  exists R0,
    _build_residual (mf_graph antiparallel) = Ok R0 /\
    shape [("a", [("b", 0)]); ("b", [("a", 2)])]%string = shape R0 /\
    (forall u v,
       capacity [("a", [("b", 0)]); ("b", [("a", 2)])]%string u v
       + capacity [("a", [("b", 0)]); ("b", [("a", 2)])]%string v u =
       capacity (mf_graph antiparallel) u v
       + capacity (mf_graph antiparallel) v u) /\
    _bfs_augment 4 [("a", [("b", 0)]); ("b", [("a", 2)])]%string "a" "b"
      = Ok None /\
    ("b"%string <> "a"%string ->
     ~ reach [("a", [("b", 0)]); ("b", [("a", 2)])]%string "a" "b").
Proof.
  apply (final_residual_graph (mf_graph antiparallel) "a" "b" 4 1
           [("a", [("b", 1)]); ("b", [("a", 0)])]%string).
  - apply wf_graphb_true. reflexivity.
  - apply nonneg_graphb_true. reflexivity.
  - vm_compute. lia.
  - vm_compute. reflexivity.
Defined.

(** X11: the flow matrix returned never carries flow in both directions
    between two nodes: of the entries for [(u, v)] and [(v, u)] one is [0]
    or absent, and their difference is what the residual graph took from
    the capacity of [(u, v)]. *)
Theorem flow_matrix_one_direction
    (g : graph) (s t : string) (fuel : nat) (total : Z) (fm R : graph) :
  wf_graph g -> nonneg_graph g -> (fuel_bound g s <= fuel)%nat ->
  edmonds_karp_on fuel g s t = Ok (total, fm, R) ->
  forall u v,
    (capacity fm u v = 0 \/ capacity fm v u = 0) /\
    capacity fm u v - capacity fm v u = capacity g u v - capacity R u v.
Proof.
  intros Hwf Hnn Hfuel E u v.
  destruct (edmonds_karp_result g s t fuel total fm R Hwf Hnn Hfuel E)
    as (R0 & E0 & Hwf0 & Hent & Hs & Hinv & Htot & _ & Hwfm & Hfm).
  pose proof (matrix_flow_net g R0 R fm s t total Hinv Hfm u v) as H1.
  pose proof (matrix_flow_net g R0 R fm s t total Hinv Hfm v u) as H2.
  pose proof (matrix_flow_diff g R0 R fm s t total Hent Hinv Hfm u v) as H3.
  pose proof (matrix_flow_diff g R0 R fm s t total Hent Hinv Hfm v u) as H4.
  unfold matrix_flow, net_flow in *. lia.
Qed.

Lemma flow_matrix_one_direction_witness :
  (capacity [("a", [("b", 1)]); ("b", [("a", 0)])]%string "a" "b" = 0 \/
   capacity [("a", [("b", 1)]); ("b", [("a", 0)])]%string "b" "a" = 0) /\
  capacity [("a", [("b", 1)]); ("b", [("a", 0)])]%string "a" "b"
  - capacity [("a", [("b", 1)]); ("b", [("a", 0)])]%string "b" "a" =
  capacity (mf_graph antiparallel) "a" "b"
  - capacity [("a", [("b", 0)]); ("b", [("a", 2)])]%string "a" "b".
Proof.
  apply (flow_matrix_one_direction (mf_graph antiparallel) "a" "b" 4 1).
  - apply wf_graphb_true. reflexivity.
  - apply nonneg_graphb_true. reflexivity.
  - vm_compute. lia.
  - vm_compute. reflexivity.
Defined.



(** ** The table of the decomposition *)


Lemma decompose_entry ts ws eTS eSM fm u d :
  (qentry (decompose ts ws eTS eSM fm) u d ==
   if in_dec string_dec u ts
   then qsum (fun h =>
          attributed (build_in_T_to_S eTS fm) (build_out_S_to_M eSM fm) h u d)
          ws
   else 0)%Q.
Proof.
  unfold decompose.
  set (in0 := build_in_T_to_S eTS fm). set (out0 := build_out_S_to_M eSM fm).
  pose proof (build_in_total_S_spec ws in0 []) as [Hrows Htot].
  destruct (build_in_total_S ws in0 []) as [in_total_S in1].
  simpl in Hrows, Htot.
  rewrite (decompose_fold ts in_total_S in0 out0 ws (mkDecomp in1 out0 [])).
  - cbn [terminal_store_flow]. unfold qentry at 1.
    change (get_default (get_default [] u []) d 0%Q) with 0%Q.
    destruct (in_dec string_dec u ts); ring.
  - apply wf_out_S_to_M.
  - intros h Hh. rewrite Htot.
    destruct (in_dec string_dec h ws); [reflexivity|contradiction].
  - exact Hrows.
  - apply same_rows_refl.
Qed.

Lemma qsum_nonneg {A} (f : A -> Q) (l : list A) :
  (forall a, In a l -> (0 <= f a)%Q) -> (0 <= qsum f l)%Q.
Proof.
  induction l as [|a l IH]; intros H; simpl; [apply Qle_refl|].
  setoid_replace 0%Q with (0 + 0)%Q by ring.
  apply Qplus_le_compat; [apply H; now left|apply IH; intros; apply H; now right].
Qed.






Lemma attributed_nonneg in0 out0 h u d :
  (forall a b, 0 <= flow_lookup in0 a b) ->
  (forall a b, 0 <= flow_lookup out0 a b) ->
  wf_graph in0 ->
  (0 <= attributed in0 out0 h u d)%Q.
Proof.
  intros Hin Hout Hwf. unfold attributed. cbv zeta.
  destruct (Z.eqb_spec (sum_values (get_default in0 h [])) 0) as [|Hnz];
    [apply Qle_refl|].
  assert (Hpos : 0 < sum_values (get_default in0 h [])).
  { rewrite sum_values_zsum in *.
    assert (0 <= zsum snd (get_default in0 h [])); [|lia].
    apply zsum_nonneg. intros [k x] Hk. simpl.
    assert (Ek : get (get_default in0 h []) k = Some x)
      by (apply In_get; [now apply wf_get_default|assumption]).
    specialize (Hin h k). unfold flow_lookup in Hin.
    unfold get_default at 1 in Hin. now rewrite Ek in Hin. }
  apply Qmult_le_0_compat.
  - change 0%Q with (inject_Z 0). rewrite <- Zle_Qle. apply Hout.
  - apply Qle_shift_div_l.
    + change 0%Q with (inject_Z 0). now rewrite <- Zlt_Qlt.
    + rewrite Qmult_0_l. change 0%Q with (inject_Z 0). rewrite <- Zle_Qle.
      apply Hin.
Qed.


(** X13: when no entry of the flow matrix is negative, no entry of the
    table of flows from terminals to stores is negative. *)
Theorem decomposition_nonnegative
    (ts ws : list string) (eTS eSM : list (string * string * Z))
    (fm : graph) :
  (forall a b, 0 <= flow_lookup fm a b) ->
  forall u d, (0 <= qentry (decompose ts ws eTS eSM fm) u d)%Q.
Proof.
  intros Hnn u d. rewrite decompose_entry.
  destruct (in_dec string_dec u ts); [|apply Qle_refl].
  apply qsum_nonneg. intros h _. apply attributed_nonneg.
  - intros a b. rewrite in_T_to_S_lookup.
    destruct (has_edge eTS b a); [apply Hnn|lia].
  - intros a b. rewrite out_S_to_M_lookup.
    destruct (has_edge eSM a b); [apply Hnn|lia].
  - apply wf_in_T_to_S.
Qed.

Lemma decomposition_nonnegative_witness :
  (0 <= qentry hub_table "X" "P")%Q.
Proof.
  apply (decomposition_nonnegative ["X"; "Y"]%string ["H"]%string
           [("X", "H", 6); ("Y", "H", 4)]%string
           [("H", "P", 7); ("H", "Q", 3)]%string hub_flows).
  intros a b. unfold flow_lookup, get_default, hub_flows. simpl.
  destruct (String.eqb a "X"); [simpl; destruct (String.eqb b "H"); lia|].
  destruct (String.eqb a "Y"); [simpl; destruct (String.eqb b "H"); lia|].
  destruct (String.eqb a "H"); [simpl|simpl; lia].
  destruct (String.eqb b "P"); [lia|]. destruct (String.eqb b "Q"); lia.
Defined.



(** * The prefix tree *)

Lemma TrieNode_induct {V} (P : Trie.TrieNode V -> Prop) :
  (forall cs v, all_children P cs -> P (Trie.mkTrieNode cs v)) ->
  forall n, P n.
Proof.
  intros H. fix IH 1. intros [cs v]. apply H.
  induction cs as [|[c m] cs IHcs]; simpl; [exact I|].
  split; [apply IH|exact IHcs].
Qed.

Lemma all_children_In {V} (P : Trie.TrieNode V -> Prop) cs :
  all_children P cs <-> forall e, In e cs -> P (snd e).
Proof.
  induction cs as [|e cs IH]; simpl.
  - split; [intros _ ? []|trivial].
  - rewrite IH. split.
    + intros [H1 H2] e' [<-|Hin]; auto.
    + intros H. split; [apply H; now left|intros; apply H; now right].
Qed.

Lemma child_set_child {V} (cs : list (ascii * Trie.TrieNode V)) ch n ch' :
  Trie.child (Trie.set_child cs ch n) ch' =
  if Ascii.eqb ch' ch then Some n else Trie.child cs ch'.
Proof.
  induction cs as [|[c m] cs IH]; simpl.
  - reflexivity.
  - destruct (Ascii.eqb_spec ch c) as [->|Hne]; simpl.
    + destruct (Ascii.eqb_spec ch' c); reflexivity.
    + rewrite IH. destruct (Ascii.eqb_spec ch' c) as [->|]; [|reflexivity].
      destruct (Ascii.eqb_spec c ch); [congruence|reflexivity].
Qed.

Lemma child_del_child {V} (cs : list (ascii * Trie.TrieNode V)) ch ch' :
  Trie.child (Trie.del_child cs ch) ch' =
  if Ascii.eqb ch' ch then None else Trie.child cs ch'.
Proof.
  unfold Trie.del_child. induction cs as [|[c m] cs IH]; simpl.
  - now destruct (Ascii.eqb ch' ch).
  - destruct (Ascii.eqb_spec c ch) as [->|Hne]; simpl.
    + rewrite IH. destruct (Ascii.eqb_spec ch' ch); reflexivity.
    + rewrite IH. destruct (Ascii.eqb_spec ch' c) as [->|]; [|reflexivity].
      destruct (Ascii.eqb_spec c ch); [congruence|reflexivity].
Qed.

Lemma stored_new {V} ks : stored (@Trie.new_node V) ks = None.
Proof. destruct ks; reflexivity. Qed.

Lemma stored_cons {V} (n : Trie.TrieNode V) ch ks :
  stored n (ch :: ks) =
  match Trie.child (Trie.children n) ch with
  | Some nxt => stored nxt ks
  | None => None
  end.
Proof.
  unfold stored. simpl. now destruct (Trie.child (Trie.children n) ch).
Qed.

Lemma stored_put_node {V} ks : forall (n : Trie.TrieNode V) v ks',
  stored (fst (Trie.put_node n ks v)) ks' =
  if list_eq_dec ascii_dec ks ks' then v else stored n ks'.
Proof.
  induction ks as [|ch ks IH]; intros n v ks'.
  - destruct (list_eq_dec ascii_dec [] ks') as [<-|Hne]; [reflexivity|].
    destruct ks' as [|ch' ks']; [congruence|].
    cbn [Trie.put_node fst]. now rewrite !stored_cons.
  - cbn [Trie.put_node].
    set (nxt := match Trie.child (Trie.children n) ch with
                | Some m => m
                | None => Trie.new_node
                end).
    specialize (IH nxt v).
    destruct (Trie.put_node nxt ks v) as [nxt' fresh]. cbn [fst] in *.
    assert (En : forall r, stored nxt r = stored n (ch :: r)).
    { intros r. rewrite stored_cons. unfold nxt.
      destruct (Trie.child (Trie.children n) ch);
        [reflexivity|apply stored_new]. }
    destruct ks' as [|ch' ks'].
    + destruct (list_eq_dec ascii_dec (ch :: ks) []); [discriminate|].
      reflexivity.
    + rewrite (stored_cons (Trie.mkTrieNode _ _)). cbn [Trie.children].
      rewrite child_set_child.
      destruct (Ascii.eqb_spec ch' ch) as [->|Hne].
      * rewrite IH.
        destruct (list_eq_dec ascii_dec ks ks') as [->|Hk];
          destruct (list_eq_dec ascii_dec (ch :: _) (ch :: ks'));
          try congruence; apply En.
      * destruct (list_eq_dec ascii_dec (ch :: ks) (ch' :: ks'));
          [congruence|]. now rewrite stored_cons.
Qed.

Lemma fresh_put_node {V} ks : forall (n : Trie.TrieNode V) v,
  snd (Trie.put_node n ks v) =
  match stored n ks with None => true | Some _ => false end.
Proof.
  induction ks as [|ch ks IH]; intros n v.
  - reflexivity.
  - simpl. rewrite stored_cons.
    set (nxt := match Trie.child (Trie.children n) ch with
                | Some m => m
                | None => Trie.new_node
                end).
    specialize (IH nxt v).
    destruct (Trie.put_node nxt ks v) as [nxt' fresh]. simpl in IH. simpl.
    rewrite IH. unfold nxt.
    destruct (Trie.child (Trie.children n) ch); [reflexivity|].
    now rewrite stored_new.
Qed.

Lemma get_stored {V} key (t : Trie.Trie V) :
  key <> EmptyString ->
  Trie.get key t = Trie.Return (stored (Trie.root t) (list_ascii_of_string key)).
Proof.
  intros Hk. unfold Trie.get, stored. destruct key; [congruence|].
  now destruct (Trie.descend _ _).
Qed.

Lemma chars_inj k k' :
  list_ascii_of_string k = list_ascii_of_string k' -> k = k'.
Proof.
  intros H. rewrite <- (string_of_list_ascii_of_string k),
    <- (string_of_list_ascii_of_string k'). now rewrite H.
Qed.

(** X15: [put] rejects the empty key with [TypeError]; with any other key
    it succeeds, a [get] of that key returns the value put, a [get] of any
    other key returns what it returned before, and the size grows by one
    exactly when the key had no value. *)
Theorem put_then_get {V} (key : string) (v : option V) (t : Trie.Trie V) :
  Trie.put EmptyString v t = Trie.TypeError /\
  (key <> EmptyString ->
   exists t',
     Trie.put key v t = Trie.Return t' /\
     Trie.get key t' = Trie.Return v /\
     (forall key', key' <> key -> Trie.get key' t' = Trie.get key' t) /\
     Trie.size t' =
       match Trie.get key t with
       | Trie.Return None => Trie.size t + 1
       | _ => Trie.size t
       end).
Proof.
  split; [reflexivity|]. intros Hk.
  pose proof (stored_put_node (list_ascii_of_string key) (Trie.root t) v) as Hst.
  pose proof (fresh_put_node (list_ascii_of_string key) (Trie.root t) v) as Hfr.
  unfold Trie.put.
  destruct (Trie.put_node (Trie.root t) (list_ascii_of_string key) v)
    as [r fresh]. simpl in Hst, Hfr.
  destruct key as [|a key]; [congruence|].
  eexists. split; [reflexivity|]. split; [|split].
  - rewrite get_stored by assumption. simpl Trie.root. rewrite Hst.
    destruct (list_eq_dec ascii_dec _ _); [reflexivity|congruence].
  - intros key' Hne. destruct key' as [|b key']; [reflexivity|].
    rewrite !get_stored by discriminate. simpl Trie.root. rewrite Hst.
    destruct (list_eq_dec ascii_dec _ _) as [E|]; [|reflexivity].
    apply chars_inj in E. congruence.
  - rewrite get_stored by assumption. simpl Trie.size. rewrite Hfr.
    now destruct (stored _ _).
Qed.

Lemma put_then_get_witness :
  exists t',
    Trie.put "cat" (Some 7) (trie_of ["car"]%string) = Trie.Return t' /\
    Trie.get "cat" t' = Trie.Return (Some 7) /\
    (forall key', key' <> "cat"%string ->
       Trie.get key' t' = Trie.get key' (trie_of ["car"]%string)) /\
    Trie.size t' =
      match Trie.get "cat" (trie_of ["car"]%string) with
      | Trie.Return None => Trie.size (trie_of ["car"]%string) + 1
      | _ => Trie.size (trie_of ["car"]%string)
      end.
Proof.
  apply (put_then_get "cat" (Some 7) (trie_of ["car"]%string)).
  discriminate.
Defined.

Lemma length_zero_nil {A} (l : list A) : (List.length l =? 0)%nat = true -> l = [].
Proof. destruct l; [reflexivity|discriminate]. Qed.

Lemma del_gone {V} ks : forall (n : Trie.TrieNode V),
  snd (fst (Trie._del n ks)) = true ->
  fst (fst (Trie._del n ks)) = Trie.mkTrieNode [] None.
Proof.
  induction ks as [|ch ks IH]; intros n; cbn [Trie._del].
  - destruct n as [cs [x|]]; cbn; [|discriminate].
    intros H. now rewrite (length_zero_nil cs H).
  - destruct (Trie.child (Trie.children n) ch) as [nxt|]; [|discriminate].
    destruct (Trie._del nxt ks) as [[nxt' gone] less].
    destruct gone; cbn; [|discriminate].
    intros H. apply andb_true_iff in H as [H1 H2].
    rewrite (length_zero_nil _ H1). now destruct (Trie.value n).
Qed.

Lemma stored_del {V} ks : forall (n : Trie.TrieNode V) ks',
  stored (fst (fst (Trie._del n ks))) ks' =
  if list_eq_dec ascii_dec ks ks' then None else stored n ks'.
Proof.
  induction ks as [|ch ks IH]; intros n ks'.
  - destruct (list_eq_dec ascii_dec [] ks') as [<-|Hne].
    + cbn [Trie._del]. now destruct n as [cs [x|]].
    + destruct ks' as [|ch' ks']; [congruence|].
      cbn [Trie._del]. destruct n as [cs [x|]]; cbn [Trie.value fst];
        now rewrite ?stored_cons.
  - cbn [Trie._del].
    destruct (Trie.child (Trie.children n) ch) as [nxt|] eqn:Ec.
    + pose proof (IH nxt) as IHn. pose proof (del_gone ks nxt) as Hg.
      destruct (Trie._del nxt ks) as [[nxt' gone] less]. cbn [fst snd] in *.
      assert (Hch : forall r, stored n (ch :: r) = stored nxt r)
        by (intros r; now rewrite stored_cons, Ec).
      destruct gone; cbn [fst].
      * specialize (Hg eq_refl). subst nxt'.
        destruct ks' as [|ch' ks'].
        -- destruct (list_eq_dec ascii_dec (ch :: ks) []); [discriminate|].
           reflexivity.
        -- rewrite (stored_cons (Trie.mkTrieNode _ _)). cbn [Trie.children].
           rewrite child_del_child, child_set_child.
           destruct (Ascii.eqb_spec ch' ch) as [->|Hne].
           ++ specialize (IHn ks').
              change (Trie.mkTrieNode [] None) with (@Trie.new_node V) in IHn.
              rewrite stored_new in IHn.
              destruct (list_eq_dec ascii_dec ks ks');
                destruct (list_eq_dec ascii_dec (ch :: ks) (ch :: ks'));
                try congruence; now rewrite Hch.
           ++ destruct (list_eq_dec ascii_dec (ch :: ks) (ch' :: ks'));
                [congruence|]. now rewrite stored_cons.
      * destruct ks' as [|ch' ks'].
        -- destruct (list_eq_dec ascii_dec (ch :: ks) []); [discriminate|].
           reflexivity.
        -- rewrite (stored_cons (Trie.mkTrieNode _ _)). cbn [Trie.children].
           rewrite child_set_child.
           destruct (Ascii.eqb_spec ch' ch) as [->|Hne].
           ++ rewrite IHn.
              destruct (list_eq_dec ascii_dec ks ks');
                destruct (list_eq_dec ascii_dec (ch :: ks) (ch :: ks'));
                try congruence; now rewrite Hch.
           ++ destruct (list_eq_dec ascii_dec (ch :: ks) (ch' :: ks'));
                [congruence|]. now rewrite stored_cons.
    + cbn [fst].
      destruct (list_eq_dec ascii_dec (ch :: ks) ks') as [<-|Hne];
        [|reflexivity].
      now rewrite stored_cons, Ec.
Qed.

Lemma less_del {V} ks : forall (n : Trie.TrieNode V),
  snd (Trie._del n ks) =
  match stored n ks with Some _ => true | None => false end.
Proof.
  induction ks as [|ch ks IH]; intros n; cbn [Trie._del].
  - now destruct n as [cs [x|]].
  - rewrite stored_cons.
    destruct (Trie.child (Trie.children n) ch) as [nxt|]; [|reflexivity].
    specialize (IH nxt).
    destruct (Trie._del nxt ks) as [[nxt' gone] less]. cbn [snd] in IH.
    now destruct gone.
Qed.

(** X16: [delete] rejects the empty key with [TypeError]; with any other
    key it succeeds, a [get] of that key then returns [None], a [get] of
    any other key returns what it returned before, and the size shrinks by
    one exactly when the key had a value. *)
Theorem delete_then_get {V} (key : string) (t : Trie.Trie V) :
  Trie.delete EmptyString t = Trie.TypeError /\
  (key <> EmptyString ->
   exists t',
     Trie.delete key t = Trie.Return t' /\
     Trie.get key t' = Trie.Return None /\
     (forall key', key' <> key -> Trie.get key' t' = Trie.get key' t) /\
     Trie.size t' =
       match Trie.get key t with
       | Trie.Return (Some _) => Trie.size t - 1
       | _ => Trie.size t
       end).
Proof.
  split; [reflexivity|]. intros Hk.
  pose proof (stored_del (list_ascii_of_string key) (Trie.root t)) as Hst.
  pose proof (less_del (list_ascii_of_string key) (Trie.root t)) as Hl.
  unfold Trie.delete.
  destruct (Trie._del (Trie.root t) (list_ascii_of_string key))
    as [[r gone] less]. cbn [fst snd] in Hst, Hl.
  destruct key as [|a key]; [congruence|].
  eexists. split; [reflexivity|]. split; [|split].
  - rewrite get_stored by assumption. cbn [Trie.root]. rewrite Hst.
    destruct (list_eq_dec ascii_dec _ _); [reflexivity|congruence].
  - intros key' Hne. destruct key' as [|b key']; [reflexivity|].
    rewrite !get_stored by discriminate. cbn [Trie.root]. rewrite Hst.
    destruct (list_eq_dec ascii_dec _ _) as [E|]; [|reflexivity].
    apply chars_inj in E. congruence.
  - rewrite get_stored by assumption. cbn [Trie.size]. rewrite Hl.
    now destruct (stored _ _).
Qed.

Lemma delete_then_get_witness :
  exists t',
    Trie.delete "car" (trie_of ["car"; "cat"]%string) = Trie.Return t' /\
    Trie.get "car" t' = Trie.Return None /\
    (forall key', key' <> "car"%string ->
       Trie.get key' t' = Trie.get key' (trie_of ["car"; "cat"]%string)) /\
    Trie.size t' =
      match Trie.get "car" (trie_of ["car"; "cat"]%string) with
      | Trie.Return (Some _) => Trie.size (trie_of ["car"; "cat"]%string) - 1
      | _ => Trie.size (trie_of ["car"; "cat"]%string)
      end.
Proof.
  apply (delete_then_get "car" (trie_of ["car"; "cat"]%string)).
  discriminate.
Defined.

(** ** The keys of a trie *)

Lemma collect_eq {V} (n : Trie.TrieNode V) path out :
  Trie._collect n path out =
  fold_left (fun acc e => Trie._collect (snd e) (path ++ [fst e]) acc)
    (Trie.children n)
    (match Trie.value n with
     | Some _ => out ++ [string_of_list_ascii path]
     | None => out
     end).
Proof. destruct n. reflexivity. Qed.

Lemma paths_eq {V} (n : Trie.TrieNode V) :
  paths n =
  (match Trie.value n with Some _ => [[]] | None => [] end)
  ++ flat_map (fun e => map (cons (fst e)) (paths (snd e))) (Trie.children n).
Proof. destruct n. reflexivity. Qed.

Lemma collect_paths {V} (n : Trie.TrieNode V) : forall path out,
  Trie._collect n path out =
  out ++ map (fun ks => string_of_list_ascii (path ++ ks)) (paths n).
Proof.
  induction n as [cs v IH] using TrieNode_induct. intros path out.
  rewrite collect_eq, paths_eq. cbn [Trie.children Trie.value].
  rewrite map_app, app_assoc.
  set (out1 := match v with
               | Some _ => out ++ [string_of_list_ascii path]
               | None => out
               end).
  assert (E1 : out1 =
    out ++ map (fun ks => string_of_list_ascii (path ++ ks))
             (match v with Some _ => [[]] | None => [] end)).
  { unfold out1. destruct v; simpl; [now rewrite app_nil_r|].
    now rewrite app_nil_r. }
  rewrite <- E1. clear E1. generalize out1. clear out1.
  induction cs as [|[c m] cs IHcs]; intros acc; simpl.
  - now rewrite app_nil_r.
  - destruct IH as [Hm Hcs]. simpl in Hm.
    rewrite (IHcs Hcs), Hm, map_app, map_map, <- !app_assoc.
    do 2 f_equal. apply map_ext. intros ks. now rewrite <- app_assoc.
Qed.

Lemma keys_paths {V} (t : Trie.Trie V) :
  Trie.keys t = map string_of_list_ascii (paths (Trie.root t)).
Proof. unfold Trie.keys. now rewrite collect_paths. Qed.

Lemma set_child_present {V} (cs : list (ascii * Trie.TrieNode V)) ch m n :
  Trie.child cs ch = Some m ->
  exists l1 l2,
    cs = l1 ++ (ch, m) :: l2 /\
    Trie.set_child cs ch n = l1 ++ (ch, n) :: l2 /\
    ~ In ch (map fst l1).
Proof.
  induction cs as [|[c x] cs IH]; simpl; [discriminate|].
  destruct (Ascii.eqb_spec ch c) as [->|Hne].
  - intros [= ->]. exists [], cs. simpl. auto.
  - intros H. destruct (IH H) as (l1 & l2 & E1 & E2 & Hn).
    exists ((c, x) :: l1), l2. simpl. rewrite E1 at 1. rewrite E2.
    split; [reflexivity|]. split; [reflexivity|].
    intros [Hc|Hin]; [congruence|contradiction].
Qed.

Lemma child_None {V} (cs : list (ascii * Trie.TrieNode V)) ch :
  Trie.child cs ch = None <-> ~ In ch (map fst cs).
Proof.
  induction cs as [|[c x] cs IH]; simpl; [tauto|].
  destruct (Ascii.eqb_spec ch c) as [->|Hne].
  - split; [discriminate|]. intros H. exfalso. apply H. now left.
  - rewrite IH. split; [intros H [Hc|Hin]; [congruence|tauto]|tauto].
Qed.

Lemma set_child_absent {V} (cs : list (ascii * Trie.TrieNode V)) ch n :
  Trie.child cs ch = None -> Trie.set_child cs ch n = cs ++ [(ch, n)].
Proof.
  induction cs as [|[c x] cs IH]; simpl; [reflexivity|].
  destruct (Ascii.eqb_spec ch c) as [->|Hne]; [discriminate|].
  intros H. now rewrite IH.
Qed.

Lemma paths_new {V} : paths (@Trie.new_node V) = [].
Proof. reflexivity. Qed.

Lemma paths_put_none {V} ks : forall (n : Trie.TrieNode V),
  stored n ks = None -> paths (fst (Trie.put_node n ks None)) = paths n.
Proof.
  induction ks as [|ch ks IH]; intros n Hs.
  - destruct n as [cs v]. unfold stored in Hs. simpl in Hs. now subst v.
  - cbn [Trie.put_node]. rewrite stored_cons in Hs.
    destruct (Trie.child (Trie.children n) ch) as [nxt|] eqn:Ec.
    + specialize (IH nxt Hs).
      destruct (Trie.put_node nxt ks None) as [nxt' fresh]. cbn [fst] in *.
      destruct (set_child_present _ ch nxt nxt' Ec) as (l1 & l2 & E1 & E2 & _).
      rewrite (paths_eq n), paths_eq. cbn [Trie.children Trie.value].
      rewrite E2, E1, !flat_map_app. simpl. now rewrite IH.
    + specialize (IH Trie.new_node (stored_new ks)).
      destruct (Trie.put_node Trie.new_node ks None) as [nxt' fresh].
      cbn [fst] in *.
      rewrite (paths_eq n), paths_eq. cbn [Trie.children Trie.value].
      rewrite (set_child_absent _ ch nxt' Ec), flat_map_app. simpl.
      rewrite IH. change (paths (@Trie.new_node V)) with (@nil (list ascii)).
      simpl. now rewrite !app_nil_r.
Qed.

(** X17: a [put] without a value, on a key that has none, stores nothing
    and still counts a word: every [get] and the list of keys are as
    before, and the size has grown by one, so that [is_empty] answers
    [False] for a trie of positive size that has no key at all. *)
Theorem put_none_counts_a_word {V} (key : string) (t : Trie.Trie V) :
  key <> EmptyString ->
  Trie.get key t = Trie.Return None ->
  exists t',
    Trie.put key None t = Trie.Return t' /\
    Trie.size t' = Trie.size t + 1 /\
    (forall key', Trie.get key' t' = Trie.get key' t) /\
    Trie.keys t' = Trie.keys t /\
    (0 <= Trie.size t -> Trie.is_empty t' = false).
Proof.
  intros Hk Hg. rewrite get_stored in Hg by assumption.
  injection Hg as Hg.
  pose proof (stored_put_node (list_ascii_of_string key) (Trie.root t) None)
    as Hst.
  pose proof (fresh_put_node (list_ascii_of_string key) (Trie.root t) None)
    as Hfr.
  pose proof (paths_put_none (list_ascii_of_string key) (Trie.root t) Hg)
    as Hp.
  unfold Trie.put.
  destruct (Trie.put_node (Trie.root t) (list_ascii_of_string key) None)
    as [r fresh]. cbn [fst snd] in Hst, Hfr, Hp.
  rewrite Hg in Hfr. subst fresh.
  destruct key as [|a key]; [congruence|].
  eexists. split; [reflexivity|]. cbn [Trie.size].
  split; [reflexivity|]. split; [|split].
  - intros key'. destruct key' as [|b key']; [reflexivity|].
    rewrite !get_stored by discriminate. cbn [Trie.root]. rewrite Hst.
    destruct (list_eq_dec ascii_dec _ _) as [<-|]; [|reflexivity].
    now rewrite Hg.
  - rewrite !keys_paths. cbn [Trie.root]. now rewrite Hp.
  - intros Hs. unfold Trie.is_empty. cbn [Trie.size].
    destruct (Z.eqb_spec (Trie.size t + 1) 0); [lia|reflexivity].
Qed.

Lemma put_none_counts_a_word_witness :
  exists t',
    Trie.put "a" None (@Trie.init Z) = Trie.Return t' /\
    Trie.size t' = Trie.size (@Trie.init Z) + 1 /\
    (forall key', Trie.get key' t' = Trie.get key' (@Trie.init Z)) /\
    Trie.keys t' = Trie.keys (@Trie.init Z) /\
    (0 <= Trie.size (@Trie.init Z) -> Trie.is_empty t' = false).
Proof.
  apply (put_none_counts_a_word "a" (@Trie.init Z)).
  - discriminate.
  - reflexivity.
Defined.

(** ** What [put] and [delete] keep *)

Lemma all_children_app {V} (P : Trie.TrieNode V -> Prop) l1 l2 :
  all_children P (l1 ++ l2) <-> all_children P l1 /\ all_children P l2.
Proof.
  rewrite !all_children_In. split.
  - intros H. split; intros e He; apply H, in_app_iff; auto.
  - intros [H1 H2] e He. apply in_app_iff in He as [He|He]; auto.
Qed.

Lemma wf_eq {V} (n : Trie.TrieNode V) :
  wf_node n <->
  NoDup (map fst (Trie.children n)) /\ all_children wf_node (Trie.children n).
Proof. destruct n. reflexivity. Qed.

Lemma pruned_eq {V} (n : Trie.TrieNode V) :
  pruned n <->
  (Trie.children n = [] -> Trie.value n <> None) /\
  all_children pruned (Trie.children n).
Proof. destruct n. reflexivity. Qed.

Lemma child_In {V} (cs : list (ascii * Trie.TrieNode V)) ch m :
  Trie.child cs ch = Some m -> In (ch, m) cs.
Proof.
  induction cs as [|[c x] cs IH]; simpl; [discriminate|].
  destruct (Ascii.eqb_spec ch c) as [->|Hne].
  - intros [= ->]. now left.
  - intros H. right. now apply IH.
Qed.

Lemma In_child {V} (cs : list (ascii * Trie.TrieNode V)) ch m :
  NoDup (map fst cs) -> In (ch, m) cs -> Trie.child cs ch = Some m.
Proof.
  induction cs as [|[c x] cs IH]; simpl; intros Hnd Hin; [destruct Hin|].
  inversion Hnd as [|? ? Hni Hnd']; subst.
  destruct Hin as [[= -> ->]|Hin].
  - now rewrite Ascii.eqb_refl.
  - destruct (Ascii.eqb_spec ch c) as [->|Hne]; [|now apply IH].
    exfalso. apply Hni. apply in_map_iff. exists (c, m). now split.
Qed.

Lemma set_child_shape {V} (cs : list (ascii * Trie.TrieNode V)) ch n
    (P : Trie.TrieNode V -> Prop) :
  NoDup (map fst cs) -> all_children P cs -> P n ->
  NoDup (map fst (Trie.set_child cs ch n)) /\
  all_children P (Trie.set_child cs ch n) /\
  Trie.set_child cs ch n <> [].
Proof.
  intros Hnd Hall Hn.
  destruct (Trie.child cs ch) as [m|] eqn:Ec.
  - destruct (set_child_present cs ch m n Ec) as (l1 & l2 & E1 & E2 & _).
    rewrite E2. subst cs. split; [|split].
    + rewrite map_app in *. exact Hnd.
    + apply all_children_app in Hall as [H1 [_ H2]].
      apply all_children_app. split; [assumption|]. simpl. now split.
    + now destruct l1.
  - rewrite (set_child_absent cs ch n Ec). split; [|split].
    + rewrite map_app. apply NoDup_app; [assumption|repeat constructor; simpl; tauto|].
      intros a Ha [<-|[]]. now apply child_None in Ec.
    + apply all_children_app. split; [assumption|]. simpl. now split.
    + now destruct cs.
Qed.

Lemma wf_new {V} : wf_node (@Trie.new_node V).
Proof. simpl. split; [constructor|exact I]. Qed.

Lemma next_node {V} (P : Trie.TrieNode V -> Prop) cs ch :
  all_children P cs -> P Trie.new_node ->
  P (match Trie.child cs ch with Some m => m | None => Trie.new_node end).
Proof.
  intros Hall Hnew. destruct (Trie.child cs ch) as [m|] eqn:Ec; [|assumption].
  apply child_In in Ec. rewrite all_children_In in Hall. exact (Hall _ Ec).
Qed.

Lemma wf_put_node {V} ks : forall (n : Trie.TrieNode V) v,
  wf_node n -> wf_node (fst (Trie.put_node n ks v)).
Proof.
  induction ks as [|ch ks IH]; intros n v Hwf.
  - destruct n as [cs x]. exact Hwf.
  - cbn [Trie.put_node]. apply wf_eq in Hwf as [Hnd Hall].
    pose proof (next_node wf_node _ ch Hall wf_new) as Hnxt.
    specialize (IH _ v Hnxt).
    destruct (Trie.put_node _ ks v) as [nxt' fresh]. cbn [fst] in *.
    apply wf_eq. cbn [Trie.children].
    destruct (set_child_shape _ ch nxt' wf_node Hnd Hall IH) as (H1 & H2 & _).
    now split.
Qed.

Lemma map_fst_del_child {V} (cs : list (ascii * Trie.TrieNode V)) ch :
  map fst (Trie.del_child cs ch) =
  filter (fun c => negb (Ascii.eqb c ch)) (map fst cs).
Proof.
  unfold Trie.del_child. induction cs as [|[c x] cs IH]; simpl; [reflexivity|].
  destruct (Ascii.eqb c ch); simpl; now rewrite IH.
Qed.

Lemma del_child_shape {V} (cs : list (ascii * Trie.TrieNode V)) ch
    (P : Trie.TrieNode V -> Prop) :
  NoDup (map fst cs) -> all_children P cs ->
  NoDup (map fst (Trie.del_child cs ch)) /\
  all_children P (Trie.del_child cs ch).
Proof.
  intros Hnd Hall. split.
  - rewrite map_fst_del_child. now apply NoDup_filter.
  - rewrite all_children_In in *. intros e He.
    apply filter_In in He as [He _]. now apply Hall.
Qed.

Lemma wf_del {V} ks : forall (n : Trie.TrieNode V),
  wf_node n -> wf_node (fst (fst (Trie._del n ks))).
Proof.
  induction ks as [|ch ks IH]; intros n Hwf; cbn [Trie._del].
  - destruct n as [cs [x|]]; exact Hwf.
  - destruct (Trie.child (Trie.children n) ch) as [nxt|] eqn:Ec;
      [|exact Hwf].
    apply wf_eq in Hwf as [Hnd Hall].
    assert (Hnxt : wf_node nxt).
    { apply child_In in Ec. rewrite all_children_In in Hall.
      exact (Hall _ Ec). }
    specialize (IH nxt Hnxt).
    destruct (Trie._del nxt ks) as [[nxt' gone] less]. cbn [fst] in IH.
    destruct (set_child_shape _ ch nxt' wf_node Hnd Hall IH) as (H1 & H2 & _).
    destruct gone; cbn [fst]; apply wf_eq; cbn [Trie.children].
    + now apply del_child_shape.
    + now split.
Qed.

Lemma value_put_node {V} (n : Trie.TrieNode V) ch ks v :
  Trie.value (fst (Trie.put_node n (ch :: ks) v)) = Trie.value n.
Proof.
  cbn [Trie.put_node]. now destruct (Trie.put_node _ ks v).
Qed.

Lemma value_del {V} (n : Trie.TrieNode V) ch ks :
  Trie.value (fst (fst (Trie._del n (ch :: ks)))) = Trie.value n.
Proof.
  cbn [Trie._del]. destruct (Trie.child (Trie.children n) ch); [|reflexivity].
  destruct (Trie._del _ ks) as [[nxt' gone] less]. now destruct gone.
Qed.

Lemma pruned_put_node {V} ks : forall (n : Trie.TrieNode V) v,
  all_children pruned (Trie.children n) ->
  pruned (fst (Trie.put_node n ks (Some v))).
Proof.
  induction ks as [|ch ks IH]; intros n v Hall.
  - cbn. split; [discriminate|assumption].
  - cbn [Trie.put_node].
    assert (Hnxt : all_children pruned
              (Trie.children (match Trie.child (Trie.children n) ch with
                              | Some m => m
                              | None => Trie.new_node
                              end))).
    { destruct (Trie.child (Trie.children n) ch) as [m|] eqn:Ec; [|exact I].
      apply child_In in Ec. rewrite all_children_In in Hall.
      apply (pruned_eq m). exact (Hall _ Ec). }
    specialize (IH _ v Hnxt).
    destruct (Trie.put_node _ ks (Some v)) as [nxt' fresh]. cbn [fst] in *.
    apply pruned_eq. cbn [Trie.children Trie.value]. split.
    + intros E. exfalso. revert E.
      destruct (Trie.child (Trie.children n) ch) as [m|] eqn:Ec.
      * destruct (set_child_present _ ch m nxt' Ec) as (l1 & l2 & _ & -> & _).
        now destruct l1.
      * rewrite (set_child_absent _ ch nxt' Ec).
        now destruct (Trie.children n).
    + destruct (Trie.child (Trie.children n) ch) as [m|] eqn:Ec.
      * destruct (set_child_present _ ch m nxt' Ec) as (l1 & l2 & E1 & -> & _).
        rewrite E1 in Hall. apply all_children_app in Hall as [H1 [_ H2]].
        apply all_children_app. split; [assumption|]. simpl. now split.
      * rewrite (set_child_absent _ ch nxt' Ec).
        apply all_children_app. split; [assumption|]. simpl. now split.
Qed.

Lemma pruned_del {V} ks : forall (n : Trie.TrieNode V),
  all_children pruned (Trie.children n) ->
  all_children pruned (Trie.children (fst (fst (Trie._del n ks)))) /\
  ((Trie.children n = [] -> Trie.value n <> None) ->
   snd (fst (Trie._del n ks)) = true \/ pruned (fst (fst (Trie._del n ks)))).
Proof.
  induction ks as [|ch ks IH]; intros n Hall; cbn [Trie._del].
  - destruct n as [cs [x|]]; cbn in *.
    + split; [assumption|]. intros _. destruct cs; [now left|right].
      split; [discriminate|assumption].
    + split; [assumption|]. intros H. right. now split.
  - destruct (Trie.child (Trie.children n) ch) as [nxt|] eqn:Ec.
    + assert (Hnxt : pruned nxt).
      { apply child_In in Ec. rewrite all_children_In in Hall.
        exact (Hall _ Ec). }
      apply pruned_eq in Hnxt as [Hv Hc].
      destruct (IH nxt Hc) as [IH1 IH2]. specialize (IH2 Hv).
      destruct (Trie._del nxt ks) as [[nxt' gone] less]. cbn [fst snd] in *.
      destruct (set_child_present _ ch nxt nxt' Ec) as (l1 & l2 & E1 & E2 & _).
      rewrite E1 in Hall. apply all_children_app in Hall as [H1 [_ H2]].
      destruct gone; cbn [fst snd Trie.children Trie.value].
      * assert (Hd : all_children pruned
                  (Trie.del_child (Trie.set_child (Trie.children n) ch nxt') ch)).
        { rewrite all_children_In. intros e He.
          apply filter_In in He as [He Hne]. rewrite E2 in He.
          apply in_app_iff in He as [He|[<-|He]].
          - rewrite all_children_In in H1. now apply H1.
          - simpl in Hne. now rewrite Ascii.eqb_refl in Hne.
          - rewrite all_children_In in H2. now apply H2. }
        split; [assumption|]. intros _.
        destruct (Trie.del_child _ ch) as [|e cs'] eqn:Ed.
        -- destruct (Trie.value n); [right|now left].
           split; [discriminate|exact I].
        -- right. split; [discriminate|assumption].
      * destruct IH2 as [IH2|IH2]; [discriminate|].
        assert (Hs : all_children pruned
                  (Trie.set_child (Trie.children n) ch nxt')).
        { rewrite E2. apply all_children_app. split; [assumption|].
          simpl. now split. }
        split; [assumption|]. intros _. right. split; [|assumption].
        rewrite E2. now destruct l1.
    + cbn [fst snd]. split; [assumption|]. intros H. right.
      apply pruned_eq. now split.
Qed.

Lemma flat_length {V} (l1 l2 : list (ascii * Trie.TrieNode V)) ch m :
  List.length
    (flat_map (fun e => map (cons (fst e)) (paths (snd e)))
       (l1 ++ (ch, m) :: l2)) =
  (List.length (flat_map (fun e => map (cons (fst e)) (paths (snd e)))
      (l1 ++ l2))
   + List.length (paths m))%nat.
Proof.
  rewrite !flat_map_app, !length_app. simpl.
  rewrite length_app, length_map. lia.
Qed.

Lemma length_paths_put {V} ks : forall (n : Trie.TrieNode V) v,
  List.length (paths (fst (Trie.put_node n ks (Some v)))) =
  (List.length (paths n)
   + match stored n ks with Some _ => 0 | None => 1 end)%nat.
Proof.
  induction ks as [|ch ks IH]; intros n v.
  - destruct n as [cs [x|]]; cbn; lia.
  - cbn [Trie.put_node]. rewrite stored_cons.
    destruct (Trie.child (Trie.children n) ch) as [nxt|] eqn:Ec.
    + specialize (IH nxt v).
      destruct (Trie.put_node nxt ks (Some v)) as [nxt' fresh]. cbn [fst] in *.
      destruct (set_child_present _ ch nxt nxt' Ec) as (l1 & l2 & E1 & E2 & _).
      rewrite (paths_eq n), paths_eq. cbn [Trie.children Trie.value].
      rewrite E2, E1, !length_app, !flat_length. lia.
    + specialize (IH Trie.new_node v). rewrite stored_new in IH.
      destruct (Trie.put_node Trie.new_node ks (Some v)) as [nxt' fresh].
      cbn [fst] in *.
      change (paths (@Trie.new_node V)) with (@nil (list ascii)) in IH.
      rewrite (paths_eq n), paths_eq. cbn [Trie.children Trie.value].
      rewrite (set_child_absent _ ch nxt' Ec), flat_map_app, !length_app.
      simpl. rewrite app_nil_r, length_map. simpl in IH. lia.
Qed.

Lemma del_child_only {V} (l1 l2 : list (ascii * Trie.TrieNode V)) ch x :
  ~ In ch (map fst l1) -> ~ In ch (map fst l2) ->
  Trie.del_child (l1 ++ (ch, x) :: l2) ch = l1 ++ l2.
Proof.
  intros H1 H2. unfold Trie.del_child.
  assert (Hk : forall l : list (ascii * Trie.TrieNode V),
            ~ In ch (map fst l) ->
            filter (fun e => negb (Ascii.eqb (fst e) ch)) l = l).
  { induction l as [|[c y] l IH]; simpl; intros Hn; [reflexivity|].
    destruct (Ascii.eqb_spec c ch) as [->|]; [tauto|]. simpl.
    rewrite IH; tauto. }
  rewrite filter_app. simpl. rewrite Ascii.eqb_refl. simpl.
  now rewrite !Hk.
Qed.

Lemma length_paths_del {V} ks : forall (n : Trie.TrieNode V),
  wf_node n ->
  (List.length (paths (fst (fst (Trie._del n ks))))
   + match stored n ks with Some _ => 1 | None => 0 end)%nat =
  List.length (paths n).
Proof.
  induction ks as [|ch ks IH]; intros n Hwf; cbn [Trie._del].
  - destruct n as [cs [x|]]; cbn; lia.
  - rewrite stored_cons.
    destruct (Trie.child (Trie.children n) ch) as [nxt|] eqn:Ec;
      [|cbn [fst]; lia].
    apply wf_eq in Hwf as [Hnd Hall].
    assert (Hnxt : wf_node nxt).
    { apply child_In in Ec. rewrite all_children_In in Hall.
      exact (Hall _ Ec). }
    specialize (IH nxt Hnxt). pose proof (del_gone ks nxt) as Hg.
    destruct (Trie._del nxt ks) as [[nxt' gone] less]. cbn [fst snd] in *.
    destruct (set_child_present _ ch nxt nxt' Ec) as (l1 & l2 & E1 & E2 & Hn1).
    assert (Hn2 : ~ In ch (map fst l2)).
    { rewrite E1, map_app in Hnd. apply NoDup_remove_2 in Hnd.
      intros H. apply Hnd. apply in_app_iff. now right. }
    rewrite (paths_eq n). destruct gone; cbn [fst];
      rewrite paths_eq; cbn [Trie.children Trie.value].
    + specialize (Hg eq_refl). subst nxt'. simpl in IH.
      rewrite E2, (del_child_only l1 l2 ch _ Hn1 Hn2), E1.
      rewrite !length_app, flat_length. lia.
    + rewrite E2, E1, !length_app, !flat_length. lia.
Qed.

Lemma built_inv_step_put {V} (t t' : Trie.Trie V) key v :
  trie_inv t -> Trie.put key (Some v) t = Trie.Return t' -> trie_inv t'.
Proof.
  intros (Hwf & Hroot & Hpr & Hsize) E. unfold Trie.put in E.
  destruct key as [|a key]; [discriminate|].
  pose proof (wf_put_node (list_ascii_of_string (String a key)) (Trie.root t)
                (Some v) Hwf) as H1.
  pose proof (pruned_put_node (list_ascii_of_string (String a key))
                (Trie.root t) v Hpr) as H2.
  pose proof (length_paths_put (list_ascii_of_string (String a key))
                (Trie.root t) v) as H3.
  pose proof (fresh_put_node (list_ascii_of_string (String a key))
                (Trie.root t) (Some v)) as H4.
  pose proof (value_put_node (Trie.root t) a (list_ascii_of_string key)
                (Some v)) as H5.
  change (a :: list_ascii_of_string key)
    with (list_ascii_of_string (String a key)) in H5.
  destruct (Trie.put_node (Trie.root t) _ (Some v)) as [r fresh].
  cbn [fst snd] in *. injection E as <-.
  split; [exact H1|]. split; [cbn; congruence|]. split.
  { cbn [Trie.root]. now apply (pruned_eq r). }
  cbn [Trie.size]. rewrite keys_paths, length_map. cbn [Trie.root].
  rewrite H3, Hsize, keys_paths, length_map, H4.
  destruct (stored _ _); lia.
Qed.

Lemma built_inv_step_delete {V} (t t' : Trie.Trie V) key :
  trie_inv t -> Trie.delete key t = Trie.Return t' -> trie_inv t'.
Proof.
  intros (Hwf & Hroot & Hpr & Hsize) E. unfold Trie.delete in E.
  destruct key as [|a key]; [discriminate|].
  pose proof (wf_del (list_ascii_of_string (String a key)) (Trie.root t) Hwf)
    as H1.
  pose proof (pruned_del (list_ascii_of_string (String a key)) (Trie.root t)
                Hpr) as [H2 _].
  pose proof (length_paths_del (list_ascii_of_string (String a key))
                (Trie.root t) Hwf) as H3.
  pose proof (less_del (list_ascii_of_string (String a key)) (Trie.root t))
    as H4.
  pose proof (value_del (Trie.root t) a (list_ascii_of_string key)) as H5.
  change (a :: list_ascii_of_string key)
    with (list_ascii_of_string (String a key)) in H5.
  destruct (Trie._del (Trie.root t) _) as [[r gone] less].
  cbn [fst snd] in *. injection E as <-.
  split; [exact H1|]. split; [cbn; congruence|]. split; [exact H2|].
  cbn [Trie.size]. rewrite keys_paths, length_map. cbn [Trie.root].
  rewrite Hsize, keys_paths, length_map, H4.
  destruct (stored _ _); lia.
Qed.

Lemma built_keeps_inv {V} (t : Trie.Trie V) : built t -> trie_inv t.
Proof.
  induction 1 as [|t key v t' Hb IH E|t key t' Hb IH E].
  - split; [apply wf_new|]. split; [reflexivity|]. split; [exact I|].
    reflexivity.
  - eapply built_inv_step_put; eassumption.
  - eapply built_inv_step_delete; eassumption.
Qed.

(** X18: every trie built from the empty one by [put] with a value and by
    [delete] has distinct characters at every node, no value at the root
    and no dead branch (a node without children ends a word), its size is
    the number of its keys, and [is_empty] holds exactly when it has no
    key. *)
Theorem built_trie_invariant {V} (t : Trie.Trie V) :
  built t ->
  trie_inv t /\ (Trie.is_empty t = true <-> Trie.keys t = []).
Proof.
  intros Hb.
  pose proof (built_keeps_inv t Hb) as Hinv.
  split; [assumption|].
  destruct Hinv as (_ & _ & _ & Hsize). unfold Trie.is_empty.
  rewrite Hsize. destruct (Trie.keys t) as [|k l]; simpl.
  - tauto.
  - split; discriminate.
Qed.

Lemma built_trie_invariant_witness :
  trie_inv (trie_of ["car"; "cat"]%string) /\
  (Trie.is_empty (trie_of ["car"; "cat"]%string) = true <->
   Trie.keys (trie_of ["car"; "cat"]%string) = []).
Proof.
  apply (built_trie_invariant (trie_of ["car"; "cat"]%string)).
  apply (built_put
           (trie_of ["car"]%string) "cat"%string 0
           (trie_of ["car"; "cat"]%string)); [|reflexivity].
  apply (built_put Trie.init "car"%string 0 (trie_of ["car"]%string));
    [|reflexivity].
  apply built_init.
Defined.

Lemma In_flat_paths {V} (cs : list (ascii * Trie.TrieNode V)) ks :
  In ks (flat_map (fun e => map (cons (fst e)) (paths (snd e))) cs) <->
  exists ch r m, ks = ch :: r /\ In (ch, m) cs /\ In r (paths m).
Proof.
  rewrite in_flat_map. split.
  - intros ([c m] & He & Hin). apply in_map_iff in Hin as (r & <- & Hr).
    exists c, r, m. simpl. auto.
  - intros (ch & r & m & -> & He & Hr). exists (ch, m). split; [assumption|].
    apply in_map_iff. exists r. auto.
Qed.

Lemma In_paths {V} ks : forall (n : Trie.TrieNode V),
  wf_node n -> (In ks (paths n) <-> stored n ks <> None).
Proof.
  induction ks as [|ch ks IH]; intros n Hwf; rewrite paths_eq, in_app_iff.
  - unfold stored. simpl. split.
    + intros [H|H].
      * destruct (Trie.value n); [discriminate|destruct H].
      * apply In_flat_paths in H as (c & r & m & E & _). discriminate.
    + intros H. left. destruct (Trie.value n); [now left|congruence].
  - rewrite stored_cons. apply wf_eq in Hwf as [Hnd Hall]. split.
    + intros [H|H].
      * destruct (Trie.value n); [|destruct H].
        destruct H as [H|[]]. discriminate.
      * apply In_flat_paths in H as (c & r & m & [= <- <-] & Hin & Hr).
        rewrite (In_child _ ch m Hnd Hin). apply IH; [|assumption].
        rewrite all_children_In in Hall. exact (Hall _ Hin).
    + intros H. right.
      destruct (Trie.child (Trie.children n) ch) as [m|] eqn:Ec;
        [|congruence].
      apply child_In in Ec. apply In_flat_paths. exists ch, ks, m.
      split; [reflexivity|]. split; [assumption|]. apply IH; [|assumption].
      rewrite all_children_In in Hall. exact (Hall _ Ec).
Qed.

Lemma NoDup_paths {V} (n : Trie.TrieNode V) : wf_node n -> NoDup (paths n).
Proof.
  induction n as [cs v IH] using TrieNode_induct. intros [Hnd Hall].
  rewrite paths_eq. cbn [Trie.children Trie.value].
  apply NoDup_app.
  - destruct v; repeat constructor. simpl. tauto.
  - clear v. induction cs as [|[c m] cs IHcs]; simpl; [constructor|].
    destruct IH as [Hm Hcs]. destruct Hall as [Hwm Hwcs].
    inversion Hnd as [|? ? Hni Hnd']; subst. simpl in *.
    apply NoDup_app.
    + apply Finite.Injective_map_NoDup; [|now apply Hm].
      intros a b E. now injection E.
    + now apply IHcs.
    + intros ks H1 H2. apply in_map_iff in H1 as (r & <- & Hr).
      apply In_flat_paths in H2 as (c' & r' & m' & [= <- <-] & Hin & _).
      apply Hni. apply in_map_iff. exists (c, m'). now split.
  - intros ks H1 H2. apply In_flat_paths in H2 as (c & r & m & -> & _).
    destruct v; [|destruct H1]. destruct H1 as [H1|[]]. discriminate.
Qed.

Lemma string_of_inj l l' :
  string_of_list_ascii l = string_of_list_ascii l' -> l = l'.
Proof.
  intros H. rewrite <- (list_ascii_of_string_of_list_ascii l),
    <- (list_ascii_of_string_of_list_ascii l'). now rewrite H.
Qed.

(** X19: in a trie built by [put] with a value and by [delete], [keys]
    lists every key once, and a key is listed exactly when [get] returns
    a value for it. *)
Theorem keys_are_the_stored_words {V} (t : Trie.Trie V) :
  built t ->
  NoDup (Trie.keys t) /\
  forall key,
    In key (Trie.keys t) <-> exists v, Trie.get key t = Trie.Return (Some v).
Proof.
  intros Hb.
  pose proof (built_keeps_inv t Hb) as Hinv.
  destruct Hinv as (Hwf & Hroot & _ & _). rewrite keys_paths. split.
  - apply Finite.Injective_map_NoDup; [|now apply NoDup_paths].
    intros a b. apply string_of_inj.
  - intros key. rewrite in_map_iff. split.
    + intros (ks & <- & Hin). apply In_paths in Hin; [|assumption].
      destruct ks as [|a ks].
      { unfold stored in Hin. simpl in Hin. congruence. }
      rewrite get_stored by discriminate.
      rewrite list_ascii_of_string_of_list_ascii.
      destruct (stored (Trie.root t) (a :: ks)) as [v|]; [eauto|congruence].
    + intros [v Hg]. destruct key as [|a key]; [discriminate|].
      rewrite get_stored in Hg by discriminate. injection Hg as Hg.
      exists (list_ascii_of_string (String a key)).
      split; [apply string_of_list_ascii_of_string|].
      apply In_paths; [assumption|]. simpl. congruence.
Qed.

Lemma keys_are_the_stored_words_witness :
  NoDup (Trie.keys (trie_of ["car"; "cat"]%string)) /\
  forall key,
    In key (Trie.keys (trie_of ["car"; "cat"]%string)) <->
    exists v,
      Trie.get key (trie_of ["car"; "cat"]%string) = Trie.Return (Some v).
Proof.
  apply (keys_are_the_stored_words (trie_of ["car"; "cat"]%string)).
  apply (built_put
           (trie_of ["car"]%string) "cat"%string 0
           (trie_of ["car"; "cat"]%string)); [|reflexivity].
  apply (built_put Trie.init "car"%string 0 (trie_of ["car"]%string));
    [|reflexivity].
  apply built_init.
Defined.

(** ** Keys with a prefix *)

Lemma prefix_starts_with p s :
  String.prefix p s =
  starts_with (list_ascii_of_string p) (list_ascii_of_string s).
Proof.
  revert s. induction p as [|a p IH]; intros s;
    destruct s as [|b s]; simpl; try reflexivity.
  destruct (ascii_dec a b) as [->|Hne].
  - now rewrite Ascii.eqb_refl, IH.
  - destruct (Ascii.eqb_spec a b); [contradiction|reflexivity].
Qed.

Lemma filter_map_swap {A B} (f : B -> bool) (g : A -> B) (l : list A) :
  filter f (map g l) = map g (filter (fun a => f (g a)) l).
Proof.
  induction l as [|a l IH]; simpl; [reflexivity|].
  destruct (f (g a)); simpl; now rewrite IH.
Qed.

Lemma filter_true {A} (l : list A) : filter (fun _ => true) l = l.
Proof. induction l as [|a l IH]; simpl; [reflexivity|now rewrite IH]. Qed.

Lemma filter_false {A} (l : list A) : filter (fun _ => false) l = [].
Proof. induction l as [|a l IH]; simpl; [reflexivity|exact IH]. Qed.

Lemma filter_flat_paths {V} ch p (cs : list (ascii * Trie.TrieNode V)) :
  NoDup (map fst cs) ->
  filter (starts_with (ch :: p))
    (flat_map (fun e => map (cons (fst e)) (paths (snd e))) cs) =
  match Trie.child cs ch with
  | Some nxt => map (cons ch) (filter (starts_with p) (paths nxt))
  | None => []
  end.
Proof.
  induction cs as [|[c m] cs IH]; intros Hnd; [reflexivity|].
  inversion Hnd as [|? ? Hni Hnd']; subst.
  cbn [flat_map Trie.child fst snd].
  rewrite filter_app, filter_map_swap, (IH Hnd').
  destruct (Ascii.eqb_spec ch c) as [->|Hne].
  - rewrite (proj2 (child_None cs c) Hni), app_nil_r. f_equal.
    apply filter_ext. intros ks. cbn [starts_with].
    now rewrite Ascii.eqb_refl.
  - rewrite (filter_ext _ (fun _ => false)), filter_false; [reflexivity|].
    intros ks. cbn [starts_with].
    destruct (Ascii.eqb_spec ch c); [contradiction|reflexivity].
Qed.

Lemma filter_paths {V} p : forall (n : Trie.TrieNode V),
  wf_node n ->
  filter (starts_with p) (paths n) =
  match Trie.descend n p with
  | Some m => map (app p) (paths m)
  | None => []
  end.
Proof.
  induction p as [|ch p IH]; intros n Hwf.
  - simpl. rewrite filter_true. symmetry. apply map_id.
  - apply wf_eq in Hwf as [Hnd Hall].
    rewrite paths_eq, filter_app, (filter_flat_paths ch p _ Hnd).
    assert (E0 : filter (starts_with (ch :: p))
                   (match Trie.value n with Some _ => [[]] | None => [] end)
                 = []) by now destruct (Trie.value n).
    rewrite E0. simpl.
    destruct (Trie.child (Trie.children n) ch) as [nxt|] eqn:Ec;
      [|reflexivity].
    rewrite IH.
    + destruct (Trie.descend nxt p); [|reflexivity]. now rewrite map_map.
    + apply child_In in Ec. rewrite all_children_In in Hall.
      exact (Hall _ Ec).
Qed.

(** X20: in a trie built by [put] with a value and by [delete],
    [keys_with_prefix] returns the keys that start with the prefix, in the
    order in which [keys] lists them. *)
Theorem keys_with_prefix_filters_keys {V} (prefix : string) (t : Trie.Trie V) :
  built t ->
  Trie.keys_with_prefix prefix t =
  filter (String.prefix prefix) (Trie.keys t).
Proof.
  intros Hb. destruct (built_keeps_inv t Hb) as (Hwf & _).
  rewrite keys_paths, filter_map_swap.
  rewrite (filter_ext _ (starts_with (list_ascii_of_string prefix)))
    by (intros ks; now rewrite prefix_starts_with,
          list_ascii_of_string_of_list_ascii).
  rewrite (filter_paths _ _ Hwf). unfold Trie.keys_with_prefix.
  destruct (Trie.descend (Trie.root t) (list_ascii_of_string prefix));
    [|reflexivity].
  now rewrite collect_paths, map_map.
Qed.

Lemma keys_with_prefix_filters_keys_witness :
  Trie.keys_with_prefix "ca" (trie_of ["car"; "dog"; "cat"]%string) =
  filter (String.prefix "ca")
    (Trie.keys (trie_of ["car"; "dog"; "cat"]%string)).
Proof.
  apply (keys_with_prefix_filters_keys "ca"
           (trie_of ["car"; "dog"; "cat"]%string)).
  apply (built_put (trie_of ["car"; "dog"]%string) "cat"%string 0
           (trie_of ["car"; "dog"; "cat"]%string)); [|reflexivity].
  apply (built_put (trie_of ["car"]%string) "dog"%string 0
           (trie_of ["car"; "dog"]%string)); [|reflexivity].
  apply (built_put Trie.init "car"%string 0 (trie_of ["car"]%string));
    [|reflexivity].
  apply built_init.
Defined.

(** ** [has_prefix] *)

Lemma nodes_eq {V} (n : Trie.TrieNode V) :
  nodes n = S (stack_nodes (map snd (Trie.children n))).
Proof.
  destruct n as [cs v]. simpl. f_equal. unfold stack_nodes.
  induction cs as [|e cs IH]; simpl; [reflexivity|now rewrite IH].
Qed.

Lemma stack_nodes_app {V} (l1 l2 : list (Trie.TrieNode V)) :
  stack_nodes (l1 ++ l2) = (stack_nodes l1 + stack_nodes l2)%nat.
Proof.
  unfold stack_nodes. induction l1 as [|n l1 IH]; simpl; [reflexivity|].
  rewrite IH. lia.
Qed.

Lemma occupied_children {V} (n : Trie.TrieNode V) :
  Trie.value n = None ->
  occupied n = existsb occupied (map snd (Trie.children n)).
Proof.
  intros Hv. unfold occupied at 1. rewrite paths_eq, Hv. simpl.
  induction (Trie.children n) as [|[c m] cs IH]; simpl; [reflexivity|].
  unfold occupied at 1. destruct (paths m); simpl; [exact IH|reflexivity].
Qed.

Lemma occupied_value {V} (n : Trie.TrieNode V) x :
  Trie.value n = Some x -> occupied n = true.
Proof. intros Hv. unfold occupied. now rewrite paths_eq, Hv. Qed.

Lemma search_run {V} : forall fuel (stack : list (Trie.TrieNode V)),
  (stack_nodes stack < fuel)%nat ->
  Homework.search fuel stack = Trie.Return (existsb occupied stack).
Proof.
  induction fuel as [|fuel IH]; intros stack Hf; [lia|].
  simpl. unfold Homework.pop.
  destruct (rev stack) as [|x r] eqn:Er.
  - apply (f_equal (@rev _)) in Er. rewrite rev_involutive in Er.
    now subst stack.
  - apply (f_equal (@rev _)) in Er. rewrite rev_involutive in Er.
    simpl in Er. subst stack.
    rewrite existsb_app. simpl. rewrite orb_false_r.
    rewrite stack_nodes_app in Hf. simpl in Hf. rewrite nodes_eq in Hf.
    destruct (Trie.value x) as [y|] eqn:Ev.
    + rewrite (occupied_value x y Ev). now rewrite orb_true_r.
    + rewrite IH by (rewrite stack_nodes_app; lia).
      now rewrite existsb_app, (occupied_children x Ev).
Qed.

Lemma nodes_descend {V} p : forall (n m : Trie.TrieNode V),
  Trie.descend n p = Some m -> (nodes m <= nodes n)%nat.
Proof.
  induction p as [|ch p IH]; intros n m; simpl.
  - intros [= ->]. lia.
  - destruct (Trie.child (Trie.children n) ch) as [nxt|] eqn:Ec;
      [|discriminate].
    intros H. apply IH in H. rewrite (nodes_eq n).
    apply child_In in Ec. apply in_split in Ec as (l1 & l2 & ->).
    rewrite map_app, stack_nodes_app. simpl. lia.
Qed.

(** X21: with a budget above the number of nodes, [has_prefix] returns,
    and it returns [True] exactly when [keys_with_prefix] returns a key:
    a path of characters without a word below it counts for nothing. *)
Theorem has_prefix_iff_some_key {V}
    (fuel : nat) (prefix : string) (t : Trie.Trie V) :
  (nodes (Trie.root t) < fuel)%nat ->
  Homework.has_prefix fuel prefix t =
  Trie.Return (match Trie.keys_with_prefix prefix t with
               | [] => false
               | _ :: _ => true
               end).
Proof.
  intros Hf. unfold Homework.has_prefix, Trie.keys_with_prefix.
  destruct (Trie.descend (Trie.root t) (list_ascii_of_string prefix))
    as [cur|] eqn:Ed; [|reflexivity].
  rewrite collect_paths. simpl.
  pose proof (nodes_descend _ _ _ Ed) as Hn.
  destruct (Trie.value cur) as [x|] eqn:Ev.
  - pose proof (occupied_value cur x Ev) as Ho. unfold occupied in Ho.
    now destruct (paths cur).
  - rewrite search_run by (simpl; lia). simpl. rewrite orb_false_r.
    unfold occupied. now destruct (paths cur).
Qed.

Lemma has_prefix_iff_some_key_witness :
  Homework.has_prefix 9 "ca" (trie_of ["car"; "dog"; "cat"]%string) =
  Trie.Return
    (match Trie.keys_with_prefix "ca" (trie_of ["car"; "dog"; "cat"]%string)
     with
     | [] => false
     | _ :: _ => true
     end).
Proof.
  apply (has_prefix_iff_some_key 9 "ca"
           (trie_of ["car"; "dog"; "cat"]%string)).
  vm_compute. lia.
Defined.

(** ** [longest_prefix_of] *)

Lemma longest_from_spec {V} s : forall (n : Trie.TrieNode V) pref lg,
  (Trie.longest_from n s pref lg = lg /\
   forall q, q <> [] -> starts_with q s = true -> stored n q = None) \/
  (exists q,
     q <> [] /\ Trie.longest_from n s pref lg = pref ++ q /\
     starts_with q s = true /\ stored n q <> None /\
     forall q', starts_with q' s = true -> stored n q' <> None ->
                (List.length q' <= List.length q)%nat).
Proof.
  induction s as [|ch s IH]; intros n pref lg.
  - left. split; [reflexivity|]. intros [|a q] Hq; [congruence|discriminate].
  - cbn [Trie.longest_from].
    destruct (Trie.child (Trie.children n) ch) as [nxt|] eqn:Ec.
    + assert (Hst : forall a r,
                starts_with (a :: r) (ch :: s) = true ->
                a = ch /\ starts_with r s = true /\
                stored n (a :: r) = stored nxt r).
      { intros a r H. cbn [starts_with] in H.
        apply andb_true_iff in H as [H1 H2]. apply Ascii.eqb_eq in H1.
        subst a. now rewrite stored_cons, Ec. }
      destruct (IH nxt (pref ++ [ch])
                  (match Trie.value nxt with
                   | Some _ => pref ++ [ch]
                   | None => lg
                   end)) as [[E Hnone]|(q & Hq & E & Hpre & Hsto & Hmax)].
      * rewrite E. destruct (Trie.value nxt) as [x|] eqn:Ev.
        -- right. exists [ch]. split; [discriminate|]. split; [reflexivity|].
           split; [cbn; now rewrite Ascii.eqb_refl|]. split.
           { rewrite stored_cons, Ec. unfold stored. simpl. congruence. }
           intros [|a r] Hp Hs; [simpl; lia|].
           destruct (Hst a r Hp) as (-> & Hr & Es). rewrite Es in Hs.
           destruct r as [|b r]; [simpl; lia|].
           exfalso. apply Hs. apply Hnone; [discriminate|assumption].
        -- left. split; [reflexivity|].
           intros [|a r] Hne Hp; [congruence|].
           destruct (Hst a r Hp) as (-> & Hr & ->).
           destruct r as [|b r]; [unfold stored; simpl; exact Ev|].
           apply Hnone; [discriminate|assumption].
      * right. exists (ch :: q). split; [discriminate|]. split.
        { rewrite E, <- app_assoc. reflexivity. }
        split; [cbn; now rewrite Ascii.eqb_refl|]. split.
        { now rewrite stored_cons, Ec. }
        intros [|a r] Hp Hs; [simpl; lia|].
        destruct (Hst a r Hp) as (-> & Hr & Es). rewrite Es in Hs.
        simpl. apply le_n_S. now apply Hmax.
    + left. split; [reflexivity|].
      intros [|a r] Hne Hp; [congruence|].
      cbn [starts_with] in Hp. apply andb_true_iff in Hp as [H1 _].
      apply Ascii.eqb_eq in H1. subst a. now rewrite stored_cons, Ec.
Qed.

Lemma length_chars s :
  List.length (list_ascii_of_string s) = String.length s.
Proof. induction s as [|a s IH]; simpl; [reflexivity|now rewrite IH]. Qed.

(** X22: [longest_prefix_of] rejects the empty string with [TypeError];
    for any other string it returns a prefix of it that is empty or a key
    with a value, and no key with a value that is a prefix of the string is
    longer. *)
Theorem longest_prefix_is_longest_key {V} (s : string) (t : Trie.Trie V) :
  Trie.longest_prefix_of EmptyString t = Trie.TypeError /\
  (s <> EmptyString ->
   exists r,
     Trie.longest_prefix_of s t = Trie.Return r /\
     String.prefix r s = true /\
     (r = EmptyString \/ exists v, Trie.get r t = Trie.Return (Some v)) /\
     forall q v,
       String.prefix q s = true -> Trie.get q t = Trie.Return (Some v) ->
       (String.length q <= String.length r)%nat).
Proof.
  split; [reflexivity|]. intros Hs.
  unfold Trie.longest_prefix_of. destruct s as [|a s]; [congruence|].
  eexists. split; [reflexivity|].
  destruct (longest_from_spec (list_ascii_of_string (String a s))
              (Trie.root t) [] [])
    as [[E Hnone]|(q & Hq & E & Hpre & Hsto & Hmax)]; rewrite E.
  - split; [reflexivity|]. split; [now left|].
    intros q v Hp Hg. destruct q as [|b q]; [discriminate|].
    rewrite get_stored in Hg by discriminate. injection Hg as Hg.
    rewrite prefix_starts_with in Hp.
    assert (Hn : stored (Trie.root t) (list_ascii_of_string (String b q))
                 = None) by (apply Hnone; [discriminate|assumption]).
    simpl in Hn. congruence.
  - simpl app. split; [|split].
    + now rewrite prefix_starts_with, list_ascii_of_string_of_list_ascii.
    + right. destruct q as [|b q]; [congruence|].
      rewrite get_stored by discriminate.
      rewrite list_ascii_of_string_of_list_ascii.
      destruct (stored (Trie.root t) (b :: q)) as [v|]; [eauto|congruence].
    + intros q' v Hp Hg. destruct q' as [|b q']; [discriminate|].
      rewrite get_stored in Hg by discriminate. injection Hg as Hg.
      rewrite prefix_starts_with in Hp.
      rewrite <- !length_chars, list_ascii_of_string_of_list_ascii.
      apply Hmax; [assumption|]. simpl in *. congruence.
Qed.

Lemma longest_prefix_is_longest_key_witness :
  exists r,
    Trie.longest_prefix_of "cart" (trie_of ["ca"; "car"; "dog"]%string)
      = Trie.Return r /\
    String.prefix r "cart" = true /\
    (r = EmptyString \/
     exists v,
       Trie.get r (trie_of ["ca"; "car"; "dog"]%string)
         = Trie.Return (Some v)) /\
    forall q v,
      String.prefix q "cart" = true ->
      Trie.get q (trie_of ["ca"; "car"; "dog"]%string)
        = Trie.Return (Some v) ->
      (String.length q <= String.length r)%nat.
Proof.
  apply (longest_prefix_is_longest_key "cart"
           (trie_of ["ca"; "car"; "dog"]%string)).
  discriminate.
Defined.

(** ** [count_words_with_suffix] *)

Lemma dfs_eq {V} k target (n : Trie.TrieNode V) st :
  Homework.dfs k target n st =
  fold_left
    (fun acc e =>
       let before := List.length (fst acc) in
       let acc1 :=
         Homework.dfs k target (snd e)
           (Homework.window_append k (fst acc) (fst e), snd acc) in
       if (before <? List.length (fst acc1))%nat
       then (removelast (fst acc1), snd acc1)
       else acc1)
    (Trie.children n)
    (fst st,
     match Trie.value n with
     | Some _ =>
         if (List.length (fst st) =? k)%nat
            && String.eqb (string_of_list_ascii (fst st)) target
         then snd st + 1 else snd st
     | None => snd st
     end).
Proof. destruct n. reflexivity. Qed.

Lemma ends_in_app c l1 l2 :
  l2 <> [] -> ends_in c (l1 ++ l2) = ends_in c l2.
Proof.
  intros Hl. induction l1 as [|a l1 IH]; [reflexivity|].
  simpl. destruct (l1 ++ l2) eqn:E; [|exact IH].
  apply app_eq_nil in E as [_ ->]. congruence.
Qed.

Lemma ends_with_in c l : ends_with c (string_of_list_ascii l) = ends_in c l.
Proof.
  induction l as [|a l IH]; [reflexivity|].
  simpl. destruct l as [|b l]; [reflexivity|exact IH].
Qed.

Lemma window_one w ch :
  (List.length w <= 1)%nat -> Homework.window_append 1 w ch = [ch].
Proof.
  destruct w as [|a [|b w]]; simpl; intros H; [reflexivity|reflexivity|lia].
Qed.

Lemma dfs_one {V} c (n : Trie.TrieNode V) : forall w cnt,
  (List.length w <= 1)%nat ->
  exists w',
    Homework.dfs 1 (String c EmptyString) n (w, cnt) =
      (w', cnt + Z.of_nat (List.length
                             (filter (fun ks => ends_in c (w ++ ks)) (paths n))))
    /\ List.length w' = List.length w.
Proof.
  induction n as [cs v IH] using TrieNode_induct. intros w cnt Hw.
  rewrite dfs_eq, paths_eq. cbn [Trie.children Trie.value fst snd].
  rewrite filter_app, length_app, Nat2Z.inj_add, Z.add_assoc.
  set (cnt1 := match v with
               | Some _ =>
                   if (List.length w =? 1)%nat
                      && String.eqb (string_of_list_ascii w)
                           (String c EmptyString)
                   then cnt + 1 else cnt
               | None => cnt
               end).
  assert (E1 : cnt1 = cnt + Z.of_nat (List.length
                 (filter (fun ks => ends_in c (w ++ ks))
                    (match v with Some _ => [[]] | None => [] end)))).
  { unfold cnt1. destruct v as [x|]; [|simpl; lia].
    destruct w as [|a [|b w]]; simpl in *; [lia| |lia].
    destruct (Ascii.eqb a c); simpl; lia. }
  rewrite <- E1. clear E1.
  assert (Hloop : forall wcur cntcur,
    List.length wcur = List.length w ->
    exists w',
      fold_left
        (fun acc e =>
           let before := List.length (fst acc) in
           let acc1 :=
             Homework.dfs 1 (String c EmptyString) (snd e)
               (Homework.window_append 1 (fst acc) (fst e), snd acc) in
           if (before <? List.length (fst acc1))%nat
           then (removelast (fst acc1), snd acc1)
           else acc1)
        cs (wcur, cntcur) =
      (w', cntcur + Z.of_nat (List.length
             (filter (fun ks => ends_in c (w ++ ks))
                (flat_map (fun e => map (cons (fst e)) (paths (snd e))) cs))))
      /\ List.length w' = List.length w).
  { clear cnt1. induction cs as [|[ch m] cs IHcs]; intros wcur cntcur Hcur.
    - exists wcur. simpl. split; [f_equal; lia|assumption].
    - destruct IH as [Hm Hcs]. cbn [snd] in Hm.
      cbn [fold_left flat_map fst snd].
      rewrite (window_one wcur ch) by lia.
      destruct (Hm [ch] cntcur) as (w2 & E2 & L2); [simpl; lia|].
      rewrite E2. cbn [fst snd].
      rewrite filter_app, length_app, filter_map_swap, length_map.
      rewrite (filter_ext (fun a => ends_in c (w ++ ch :: a))
                 (fun ks => ends_in c ([ch] ++ ks)))
        by (intros ks; rewrite ends_in_app by discriminate; reflexivity).
      set (N := List.length
                  (filter (fun ks => ends_in c ([ch] ++ ks)) (paths m))).
      destruct (Nat.ltb_spec (List.length wcur) (List.length w2)) as [Hlt|Hge].
      + destruct (IHcs Hcs (removelast w2) (cntcur + Z.of_nat N))
          as (w' & E' & L').
        { destruct w2 as [|a [|b w2]]; simpl in *; lia. }
        exists w'. cbv zeta in E'. cbv zeta. rewrite E'.
        split; [f_equal; lia|assumption].
      + destruct (IHcs Hcs w2 (cntcur + Z.of_nat N)) as (w' & E' & L').
        { simpl in L2. lia. }
        exists w'. cbv zeta in E'. cbv zeta. rewrite E'.
        split; [f_equal; lia|assumption]. }
  destruct (Hloop w cnt1 eq_refl) as (w' & E' & L').
  exists w'. split; assumption.
Qed.

(** X23: [count_words_with_suffix] returns the size for the empty
    pattern, and for a pattern of one character it returns the number of
    keys that end with the character.  For longer patterns the window is
    not restored once it is full, and words can be missed: with the words
    [abc] and [abd] the pattern [bd] counts no word. *)
Theorem suffix_count_for_short_patterns {V} (t : Trie.Trie V) :
  Homework.count_words_with_suffix EmptyString t = Trie.size t /\
  (forall c,
     Homework.count_words_with_suffix (String c EmptyString) t =
     Z.of_nat (List.length (filter (ends_with c) (Trie.keys t)))) /\
  Homework.count_words_with_suffix "bd" (trie_of ["abc"; "abd"]%string) = 0 /\
  In "abd"%string (Trie.keys (trie_of ["abc"; "abd"]%string)).
Proof.
  split; [reflexivity|]. split; [|split; [reflexivity|simpl; auto]].
  intros c. unfold Homework.count_words_with_suffix.
  change (String.length (String c EmptyString)) with 1%nat.
  destruct (dfs_one c (Trie.root t) [] 0) as (w' & E & _); [simpl; lia|].
  rewrite E. cbn [snd app]. rewrite keys_paths, filter_map_swap, length_map.
  rewrite (filter_ext (fun a => ends_with c (string_of_list_ascii a))
             (fun ks => ends_in c ks)) by (intros; apply ends_with_in).
  reflexivity.
Qed.
